(** * critsec: the CritSection analyzer

    A shallow embedding of the static analyzer of package [analysis]
    (function [run] and its helpers [nearestFunction], [checkLease],
    [isFunctionInGraph] and [positionCompare]) together with the properties
    of its lease-reachability check, its liveness filter, its scanner and
    its diagnostics.

    What the analyzer obtains from the Go tool chain is input of the model:
    the syntax trees with their positions ([go/ast], [go/token]), the
    resolved types ([go/types]) and the call graph ([callgraph], built by
    [vta.CallGraph]). *)

From stdpp Require Import gmap strings list.
From Stdlib Require Import ZArith Lia.

Open Scope string_scope.
Open Scope list_scope.
Open Scope nat_scope.
Set Warnings "-register-all,-clear-no-such-hyp".
Set Default Proof Using "Type".

(** ** Positions ([go/token]) *)

(** [token.Pos] is an [int]; [token.NoPos] is zero. *)
Definition Pos := Z.
Definition NoPos : Pos := 0%Z.

(** [token.Position], restricted to the fields the analyzer reads. *)
Record Position := mkPosition { Filename : string; Line : Z }.

(** ** Information about the crit package *)

Definition critName : string := "github.com/jetsetilly/critsec/crit.Section".
Definition leaseFunction : string := "Lease".

(** ** The call graph ([golang.org/x/tools/go/callgraph]) *)

Module callgraph.

(** A [*callgraph.Node] is an address; the graph dereferences it. *)
Definition NodeRef := nat.

(** [ssa.Function], restricted to [Name()] and [Pos()]. *)
Record Function := mkFunction { Name : string; FPos : Pos }.

Record Edge := mkEdge { Caller : NodeRef; Callee : NodeRef }.

Record Node := mkNode { Func : Function; In : list Edge; Out : list Edge }.

(** [Nodes] lists the values of the map [g.Nodes]; [node] is the store
    the references point into. *)
Record Graph := mkGraph { node : NodeRef → Node; Nodes : list NodeRef }.

#[global] Instance Edge_eq_dec : EqDecision Edge.
Proof. solve_decision. Defined.

(** Every edge of the graph: the outgoing edges of every node. *)
Definition all_edges (g : Graph) : list Edge :=
  flat_map (λ r, Out (node g r)) (Nodes g).

(** [callgraph.GraphVisitEdges] calls [edge] on every edge of the graph
    and stops at the first error.  The order of the calls comes from a
    depth-first walk that starts at the nodes in the iteration order of
    the map [g.Nodes], which the Go runtime leaves unspecified: the
    sequence [order] of the visited edges is a parameter.  A callback
    that does not return ([None]) makes the visit not return. *)
Fixpoint GraphVisitEdges {E : Type} (order : list Edge)
    (edge : Edge → option (option E)) : option (option E) :=
  match order with
  | [] => Some None
  | e :: rest =>
      match edge e with
      | None => None
      | Some (Some err) => Some (Some err)
      | Some None => GraphVisitEdges rest edge
      end
  end.

(** An order in which [GraphVisitEdges] may visit the edges of [g]:
    every edge of the graph is visited, and nothing else is. *)
Definition visits (g : Graph) (order : list Edge) : Prop :=
  ∀ e, e ∈ order ↔ e ∈ all_edges g.

(** The function [visit] inside [GraphVisitEdges]: a node that was not
    seen is marked, and for each of its outgoing edges the callee is visited
    first and the edge is passed to the callback next.  The result is the
    nodes seen and the edges in the order of their calls; [fuel] bounds the
    depth of the recursion, which the marks keep below the number of nodes. *)
Fixpoint visit (fuel : nat) (g : Graph) (n : NodeRef) (seen : list NodeRef)
    : list NodeRef * list Edge :=
  match fuel with
  | O => (seen, [])
  | S fuel' =>
      if bool_decide (n ∈ seen) then (seen, [])
      else
        fold_left
          (λ acc e,
             let r := visit fuel' g (Callee e) acc.1 in
             (r.1, acc.2 ++ r.2 ++ [e]))
          (Out (node g n)) (n :: seen, [])
  end.

(** The order of the visit of [GraphVisitEdges] when the iteration over the
    map [g.Nodes] yields the nodes in the order [roots]. *)
Definition visit_order (g : Graph) (roots : list NodeRef) : list Edge :=
  (fold_left
     (λ acc n,
        let r := visit (S (length (Nodes g))) g n acc.1 in
        (r.1, acc.2 ++ r.2))
     roots ([], [])).2.

(** The graph is well formed: the map [g.Nodes] has every node once, and
    the callee of every edge is one of them. *)
Definition well_formed (g : Graph) : Prop :=
  NoDup (Nodes g) ∧
  ∀ r e, r ∈ Nodes g → e ∈ Out (node g r) → Callee e ∈ Nodes g.

End callgraph.

Import callgraph.

(** ** The recursive caller walk of [checkLease] *)

(** [e.Caller.Func.Name() == leaseFunction] *)
Definition names_lease (g : Graph) (e : Edge) : bool :=
  String.eqb (Name (Func (node g (Caller e)))) leaseFunction.

(** The closure [check] declared inside [checkLease].  The recursion of the
    source is not bounded by anything: [fuel] bounds the depth of the calls,
    and [None] says that the depth was not enough.  The loop over
    [e.Caller.In] returns in its first iteration. *)
Fixpoint check (fuel : nat) (g : Graph) (e : Edge) : option bool :=
  match fuel with
  | O => None
  | S fuel' =>
      if names_lease g e then Some true
      else match In (node g (Caller e)) with
           | inn :: _ => check fuel' g inn
           | [] => Some false
           end
  end.

(** [check] called on [e] returns [b]. *)
Definition check_returns (g : Graph) (e : Edge) (b : bool) : Prop :=
  ∃ fuel, check fuel g e = Some b.

(** The edge reached from [e] after [k] steps of the walk, each step taking
    the first incoming edge of the caller. *)
Fixpoint walk_edge (g : Graph) (k : nat) (e : Edge) : option Edge :=
  match k with
  | O => Some e
  | S k' =>
      match In (node g (Caller e)) with
      | inn :: _ => walk_edge g k' inn
      | [] => None
      end
  end.

(** ** Syntax trees ([go/ast]) *)

(** The node kinds the analyzer distinguishes, with the fields it reads and
    the fields that fix a node's position; every other kind of node is
    [Other].  Fields of type [*ast.Ident] are given by their position and
    name.  A list that Go indexes without a test is kept with its first
    element apart: [Lhs0 :: LhsRest] and [Rhs0 :: RhsRest] are the two sides
    of an assignment, [Name0 :: Names] the names of a [ValueSpec].
    [FuncDecl.Params] stands for [Type.Params]: [None] is [nil], and the
    list holds the [*ast.Field]s of [Type.Params.List]; the [Params] of a
    [FuncLit] are the fields of its type.  Left out are the comments, the
    receiver and the results of a [FuncDecl], and the nodes [FuncType],
    [FieldList] and [BlockStmt] that wrap the fields and the body: the
    analyzer matches none of them, a [FuncType] starts where its function
    starts and is visited after it, and a [FieldList] or a [BlockStmt]
    starts at a parenthesis or a brace, where no node starts that the
    analyzer matches. *)
Inductive Node : Type :=
| Ident (NamePos : Pos) (IdName : string)
| StarExpr (Star : Pos) (X : Node)
| SelectorExpr (X : Node) (SelPos : Pos) (Sel : string)
| CompositeLit (Type_ : option Node) (Lbrace : Pos) (Elts : list Node)
| FuncLit (FuncPos : Pos) (Params : list Node) (Body : list Node)
| FuncDecl (FuncPos : Pos) (NamePos : Pos) (FName : string)
    (Params : option (list Node)) (Body : list Node)
| Field (Names : list Node) (Type_ : Node)
| ValueSpec (Name0 : Node) (Names : list Node) (Type_ : option Node)
    (Values : list Node)
| AssignStmt (Lhs0 : Node) (LhsRest : list Node) (Tok : string)
    (Rhs0 : Node) (RhsRest : list Node)
| TypeSpec (NamePos : Pos) (TName : string) (Type_ : Node)
| StructType (Struct : Pos) (Fields : list Node)
| Other (pos : Pos) (children : list Node).

(** The method [Pos()] of each kind of node, as [go/ast] defines it. *)
Fixpoint NodePos (n : Node) : Pos :=
  match n with
  | Ident p _ => p
  | StarExpr p _ => p
  | SelectorExpr X _ _ => NodePos X
  | CompositeLit (Some t) _ _ => NodePos t
  | CompositeLit None lbrace _ => lbrace
  | FuncLit p _ _ => p
  | FuncDecl p _ _ _ _ => p
  | Field (name :: _) _ => NodePos name
  | Field [] t => NodePos t
  | ValueSpec name _ _ _ => NodePos name
  | AssignStmt lhs0 _ _ _ _ => NodePos lhs0
  | TypeSpec p _ _ => p
  | StructType p _ => p
  | Other p _ => p
  end.

(** [m.Lhs[len(m.Lhs)-1]] *)
Definition last_lhs (Lhs0 : Node) (LhsRest : list Node) : Node :=
  List.last LhsRest Lhs0.

(** One call of the function given to [inspector.WithStack]: the node,
    whether the traversal enters ([push]) or leaves it, and the stack of
    the enclosing nodes, outermost first, the node itself last. *)
Record Event := mkEvent { ev_node : Node; ev_push : bool; ev_stack : list Node }.

(** The calls [WithStack] makes below a node, in the order of [ast.Walk]:
    the node is entered, its children are traversed in the order of their
    fields, and the node is left. *)
Fixpoint traverse (stack : list Node) (n : Node) : list Event :=
  let stack' := stack ++ [n] in
  let below := flat_map (traverse stack') in
  let ident p s :=
    [mkEvent (Ident p s) true (stack' ++ [Ident p s]);
     mkEvent (Ident p s) false (stack' ++ [Ident p s])] in
  mkEvent n true stack' ::
  match n with
  | Ident _ _ => []
  | StarExpr _ X => traverse stack' X
  | SelectorExpr X p s => traverse stack' X ++ ident p s
  | CompositeLit t _ Elts =>
      match t with Some t => traverse stack' t | None => [] end ++ below Elts
  | FuncLit _ Params Body => below Params ++ below Body
  | FuncDecl _ p s Params Body =>
      ident p s ++
      match Params with Some ps => below ps | None => [] end ++ below Body
  | Field Names t => below Names ++ traverse stack' t
  | ValueSpec name Names t Values =>
      traverse stack' name ++ below Names ++
      match t with Some t => traverse stack' t | None => [] end ++ below Values
  | AssignStmt lhs0 LhsRest _ rhs0 RhsRest =>
      traverse stack' lhs0 ++ below LhsRest ++
      traverse stack' rhs0 ++ below RhsRest
  | TypeSpec p s t => ident p s ++ traverse stack' t
  | StructType _ Fields => below Fields
  | Other _ children => below children
  end ++ [mkEvent n false stack'].

(** The traversal of all the files of the inspector. *)
Definition events (files : list Node) : list Event :=
  flat_map (traverse []) files.

(** ** Resolved types ([go/types]) *)

(** [types.Type] is an interface; the analyzer uses these operations. *)
Class GoTypes (Ty : Type) := {
  ConvertibleTo : Ty → Ty → bool;
  NewPointer : Ty → Ty;
  TypeString : Ty → string
}.

(** [analysis.Pass], restricted to what [run] reads: the file set, the
    types of the expressions and the files. *)
Record Pass (Ty : Type) := mkPass {
  Fset : Pos → Position;
  TypeOf : Node → Ty;
  Files : list Node
}.
Arguments Fset {Ty} _ _.
Arguments TypeOf {Ty} _ _.
Arguments Files {Ty} _.
Arguments mkPass {Ty} _ _ _.

(** ** Diagnostics and the state of one walk *)

(** What [pass.Reportf] records: a position and a message. *)
Record Diagnostic := mkDiagnostic { DPos : Pos; Message : string }.

#[global] Instance Diagnostic_eq_dec : EqDecision Diagnostic.
Proof. solve_decision. Defined.

(** The four messages of [run]. *)
Definition msg_param : string :=
  "crit.Section types cannot be passed to a function".
Definition msg_access : string := "access of crit.Section without Lease".
Definition msg_multiple : string :=
  "multiple instance of a crit.Section derived type".
Definition msg_assign : string := "assignment to crit.Section without Lease".

(** The variables the callback of [WithStack] closes over and updates: the
    maps [inspectedPos] and [critSecTypesUsed], which [run] uses as sets,
    and the diagnostics reported so far. *)
Record State := mkState {
  inspectedPos : gset Pos;
  critSecTypesUsed : gset string;
  reports : list Diagnostic
}.

Definition initial : State := mkState ∅ ∅ [].

Definition Reportf (pos : Pos) (msg : string) (st : State) : State :=
  mkState (inspectedPos st) (critSecTypesUsed st)
          (reports st ++ [mkDiagnostic pos msg]).

(** [nearestFunction]: the stack is searched from its last element. *)
Fixpoint nearest (rstack : list Node) : option Node :=
  match rstack with
  | [] => None
  | n :: below =>
      match n with
      | FuncDecl _ _ _ _ _ => Some n
      | FuncLit _ _ _ => Some n
      | _ => nearest below
      end
  end.

Definition nearestFunction (stack : list Node) : option Node :=
  nearest (rev stack).

(** The sentinel errors of [checkLease] and [isFunctionInGraph]. *)
Definition done_error : string := "done".
Definition functionFound : string := "functionFound".

(** The choices the Go runtime makes during one call of the callback: the
    order in which [range] yields the types of [critSecTypesByName], and
    the order in which [GraphVisitEdges] visits the edges, for the call in
    [isFunctionInGraph] and for the call in [checkLease]. *)
Record Choice (Ty : Type) := mkChoice {
  types_order : list Ty;
  live_order : list Edge;
  lease_order : list Edge
}.
Arguments types_order {Ty} _.
Arguments live_order {Ty} _.
Arguments lease_order {Ty} _.
Arguments mkChoice {Ty} _ _ _.

(** How the [switch] of the callback ends: with [return true], or with
    [msg] set for the check of the lease. *)
Inductive Outcome := Return (st : State) | Access (msg : string).

Section Analyzer.

Context {Ty : Type} `{!GoTypes Ty}.
Variable pass : Pass Ty.
Variable graph : Graph.

Definition positionCompare (a b : Pos) : bool :=
  let A := Fset pass a in
  let B := Fset pass b in
  bool_decide (Filename A = Filename B) && bool_decide (Line A = Line B).

(** [positionCompare(pass, nf.Pos(), e.Callee.Func.Pos())] *)
Definition calls (nf : Node) (e : Edge) : bool :=
  positionCompare (NodePos nf) (FPos (Func (node graph (Callee e)))).

Definition is_main (nf : Node) : bool :=
  match nf with
  | FuncDecl _ _ name _ _ => String.eqb name "main"
  | _ => false
  end.

Definition isFunctionInGraph (order : list Edge) (nf : Node) : bool :=
  if is_main nf then true
  else
    match GraphVisitEdges order
            (λ e, Some (if calls nf e then Some functionFound else None)) with
    | Some (Some _) => true
    | _ => false
    end.

Definition checkLease (fuel : nat) (order : list Edge) (nf : Node)
    : option bool :=
  match GraphVisitEdges order
          (λ e, if calls nf e then
                  b ← check fuel graph e;
                  Some (if b : bool then Some done_error else None)
                else Some None) with
  | None => None
  | Some (Some _) => Some true
  | Some None => Some false
  end.

(** *** The catalog of the crit.Section types of one file *)

(** A field without a name whose type is a selector expression of type
    [critName]. *)
Definition embeds_section (fld : Node) : bool :=
  match fld with
  | Field [] (SelectorExpr _ _ _ as s) =>
      String.eqb (TypeString (TypeOf pass s)) critName
  | _ => false
  end.

(** The function given to [ast.Inspect]; its state is [newCritSecType]
    and [critSecTypesByName]. *)
Definition identify (n : Node) (st : option Ty * gmap string Ty)
    : option Ty * gmap string Ty :=
  match n with
  | Ident _ name =>
      match st.1 with
      | None => st
      | Some t => (None, <["*" +:+ name := NewPointer t]> (<[name := t]> st.2))
      end
  | TypeSpec _ _ (StructType _ Fields as t) =>
      (if existsb embeds_section Fields then Some (TypeOf pass t) else st.1,
       st.2)
  | _ => st
  end.

(** [critSecTypesByName] after [ast.Inspect] has walked the file [f]. *)
Definition catalog (f : Node) : gmap string Ty :=
  (fold_left (λ st ev, if ev_push ev then identify (ev_node ev) st else st)
             (traverse [] f) (None, ∅)).2.

(** *** The callback of [WithStack] *)

Section Callback.

Variable critSecTypesByName : gmap string Ty.
Variable choice : Choice Ty.
Variable fuel : nat.

(** The loop over [critSecTypesByName] that sets [found]. *)
Definition found (ct : Ty) : bool :=
  existsb (ConvertibleTo ct) (types_order choice).

(** The loop over the parameters of a [FuncDecl]: [true] when it
    reaches [pass.Reportf]. *)
Fixpoint params_report (ps : list Node) : bool :=
  match ps with
  | [] => false
  | Field _ (StarExpr _ e) :: ps' =>
      match e with
      | Ident _ name =>
          if bool_decide (is_Some (critSecTypesByName !! name)) then true
          else params_report ps'
      | _ => false
      end
  | Field _ (Ident _ name) :: ps' =>
      if bool_decide (is_Some (critSecTypesByName !! name)) then true
      else params_report ps'
  | _ :: ps' => params_report ps'
  end.

(** The two places that handle the instantiation of the type [name]
    (a [ValueSpec] and a short variable declaration). *)
Definition instantiate (n : Node) (stack : list Node) (name : string)
    (st : State) : State :=
  if bool_decide (name ∈ critSecTypesUsed st) then
    match nearestFunction stack with
    | None => st
    | Some nf =>
        if isFunctionInGraph (live_order choice) nf
        then Reportf (NodePos n) msg_multiple st
        else st
    end
  else mkState (inspectedPos st) ({[name]} ∪ critSecTypesUsed st)
               (reports st).

(** The end of the callback, after the [switch] has set [msg]. *)
Definition check_access (n : Node) (stack : list Node) (msg : string)
    (st : State) : option State :=
  match nearestFunction stack with
  | None => Some st
  | Some nf =>
      if isFunctionInGraph (live_order choice) nf then
        ok ← checkLease fuel (lease_order choice) nf;
        Some (if ok : bool then st else Reportf (NodePos n) msg st)
      else Some st
  end.

(** The [switch] of the callback over the kind of the node: a case
    either returns from the callback ([Return], with the state it
    leaves) or sets [msg] and goes on to the end of the callback
    ([Access]). *)
Definition switch (n : Node) (stack : list Node) (st : State) : Outcome :=
  match n with
  | FuncDecl _ _ _ Params _ =>
      match Params with
      | None => Return st
      | Some ps =>
          if isFunctionInGraph (live_order choice) n then
            if params_report ps
            then Return (Reportf (NodePos n) msg_param st)
            else Return st
          else Return st
      end
  | SelectorExpr X _ sel =>
      if found (TypeOf pass X) then
        if String.eqb sel leaseFunction then Return st
        else Access msg_access
      else Return st
  | ValueSpec _ _ t _ =>
      match t with
      | Some (Ident _ name) => Return (instantiate n stack name st)
      | _ => Return st
      end
  | AssignStmt lhs0 LhsRest tok rhs0 _ =>
      if String.eqb tok ":=" then
        match rhs0 with
        | CompositeLit (Some (Ident _ name)) _ _ =>
            Return (instantiate n stack name st)
        | _ => Return st
        end
      else
        match last_lhs lhs0 LhsRest with
        | SelectorExpr X _ _ =>
            if found (TypeOf pass X) then Access msg_assign else Return st
        | _ => Return st
        end
  | _ => Return st
  end.

(** [inspectedPos[n.Pos()] = true] *)
Definition mark (pos : Pos) (st : State) : State :=
  mkState ({[pos]} ∪ inspectedPos st) (critSecTypesUsed st) (reports st).

(** The callback.  It returns [true] on every path, so the traversal
    always goes on below the node; [None] says that a call of [check]
    did not return within [fuel]. *)
Definition inspect (ev : Event) (st : State) : option State :=
  let n := ev_node ev in
  if bool_decide (NodePos n ∈ inspectedPos st) then Some st
  else
    match switch n (ev_stack ev) (mark (NodePos n) st) with
    | Return st' => Some st'
    | Access msg => check_access n (ev_stack ev) msg (mark (NodePos n) st)
    end.

(** The calls of the callback over a sequence of events, with the same
    choice and the same fuel in each. *)
Fixpoint walk (evs : list Event) (st : State) : option State :=
  match evs with
  | [] => Some st
  | ev :: evs' => st' ← inspect ev st; walk evs' st'
  end.

End Callback.

(** The choices the runtime may make. *)
Definition permitted (critSecTypesByName : gmap string Ty)
    (c : Choice Ty) : Prop :=
  (∀ t, t ∈ types_order c ↔ ∃ name, critSecTypesByName !! name = Some t) ∧
  visits graph (live_order c) ∧ visits graph (lease_order c).

(** The choice that follows the order of the model's own lists. *)
Definition plain (critSecTypesByName : gmap string Ty) : Choice Ty :=
  mkChoice (map snd (map_to_list critSecTypesByName))
           (all_edges graph) (all_edges graph).

(** One call of the callback that returns, under some permitted choice. *)
Definition inspects (critSecTypesByName : gmap string Ty) (ev : Event)
    (st st' : State) : Prop :=
  ∃ c fuel, permitted critSecTypesByName c ∧
            inspect critSecTypesByName c fuel ev st = Some st'.

(** A walk of [WithStack] over a sequence of events that returns: the
    runtime chooses anew in every call of the callback. *)
Inductive walks (critSecTypesByName : gmap string Ty)
    : list Event → State → State → Prop :=
| walks_nil st : walks critSecTypesByName [] st st
| walks_cons ev evs st st' st'' :
    inspects critSecTypesByName ev st st' →
    walks critSecTypesByName evs st' st'' →
    walks critSecTypesByName (ev :: evs) st st''.

(** The body of the loop of [run] over [pass.Files], for the file [f]:
    the catalog of [f] is built, and the inspector walks every file of
    the pass with fresh [inspectedPos] and [critSecTypesUsed]. *)
Definition analyses (f : Node) (ds : list Diagnostic) : Prop :=
  ∃ st, walks (catalog f) (events (Files pass)) initial st ∧ reports st = ds.

(** [run] returns, having reported [ds]. *)
Inductive runs_over : list Node → list Diagnostic → Prop :=
| runs_nil : runs_over [] []
| runs_cons f fs ds ds' :
    analyses f ds → runs_over fs ds' → runs_over (f :: fs) (ds ++ ds').

Definition runs (ds : list Diagnostic) : Prop := runs_over (Files pass) ds.

(** [run] computed with the plain choices and [fuel] for every call. *)
Definition run_file (fuel : nat) (f : Node) : option (list Diagnostic) :=
  st ← walk (catalog f) (plain (catalog f)) fuel (events (Files pass)) initial;
  Some (reports st).

Fixpoint run_over (fuel : nat) (fs : list Node) : option (list Diagnostic) :=
  match fs with
  | [] => Some []
  | f :: fs' =>
      ds ← run_file fuel f; ds' ← run_over fuel fs'; Some (ds ++ ds')
  end.

Definition run (fuel : nat) : option (list Diagnostic) :=
  run_over fuel (Files pass).

(** *** The notions the properties are stated with *)

(** The call graph has an edge into the function [nf]. *)
Definition called (nf : Node) : Prop :=
  ∃ e, e ∈ all_edges graph ∧ calls nf e = true.

(** The function [nf] is live: it is the entry point or it is called. *)
Definition live (nf : Node) : Prop := is_main nf = true ∨ called nf.

(** Some search that starts at an edge into [nf] reaches the lease. *)
Definition guarded (nf : Node) : Prop :=
  ∃ e, e ∈ all_edges graph ∧ calls nf e = true ∧ check_returns graph e true.

(** Every search that starts at an edge into [nf] returns. *)
Definition searches_return (nf : Node) : Prop :=
  ∀ e, e ∈ all_edges graph → calls nf e = true → ∃ b, check_returns graph e b.

(** The type [ct] converts to a type of the catalog. *)
Definition matched (critSecTypesByName : gmap string Ty) (ct : Ty) : Prop :=
  ∃ name t, critSecTypesByName !! name = Some t ∧ ConvertibleTo ct t = true.

(** The access sites: a field selection on a matched type other than the
    selection of the lease function is a read, with the message
    [msg_access]; an assignment other than a short variable declaration
    whose last target is a field selection on a matched type is a write,
    with the message [msg_assign]. *)
Inductive access_site (critSecTypesByName : gmap string Ty)
    : Node → string → Prop :=
| site_read X p sel :
    matched critSecTypesByName (TypeOf pass X) → sel ≠ leaseFunction →
    access_site critSecTypesByName (SelectorExpr X p sel) msg_access
| site_write lhs0 LhsRest tok rhs0 RhsRest X p sel :
    tok ≠ ":=" → last_lhs lhs0 LhsRest = SelectorExpr X p sel →
    matched critSecTypesByName (TypeOf pass X) →
    access_site critSecTypesByName
      (AssignStmt lhs0 LhsRest tok rhs0 RhsRest) msg_assign.

(** The instantiations of the type [name]: a variable declaration with
    that type, or a short variable declaration whose first value is a
    composite literal of that type. *)
Inductive instantiation : Node → string → Prop :=
| inst_var name0 Names p name Values :
    instantiation (ValueSpec name0 Names (Some (Ident p name)) Values) name
| inst_short lhs0 LhsRest p name lbrace Elts RhsRest :
    instantiation
      (AssignStmt lhs0 LhsRest ":="
         (CompositeLit (Some (Ident p name)) lbrace Elts) RhsRest) name.

(** A parameter whose type is a name of the catalog or a pointer to one. *)
Inductive guarded_param (critSecTypesByName : gmap string Ty) : Node → Prop :=
| param_value names p name :
    is_Some (critSecTypesByName !! name) →
    guarded_param critSecTypesByName (Field names (Ident p name))
| param_pointer names star p name :
    is_Some (critSecTypesByName !! name) →
    guarded_param critSecTypesByName (Field names (StarExpr star (Ident p name))).

End Analyzer.

(** A parameter whose type is a pointer to something that is not a name,
    as in [p *pkg.T] or [p *[]int]. *)
Definition pointer_to_other (fld : Node) : Prop :=
  ∃ names star x, fld = Field names (StarExpr star x) ∧ ∀ p name, x ≠ Ident p name.

(** In a call of the callback the stack ends with the node. *)
Definition node_on_top (ev : Event) : Prop :=
  ∃ below, ev_stack ev = below ++ [ev_node ev].


(** The events of a walk at which the callback goes past its test of
    [inspectedPos]: those whose position was not seen before. *)
Fixpoint inspected_events (seen : gset Pos) (evs : list Event) : list Event :=
  match evs with
  | [] => []
  | ev :: evs' =>
      if bool_decide (NodePos (ev_node ev) ∈ seen) then inspected_events seen evs'
      else ev :: inspected_events ({[NodePos (ev_node ev)]} ∪ seen) evs'
  end.

(** The diagnostics of a list that lie at the position [p]. *)
Definition reports_at (p : Pos) (ds : list Diagnostic) : list Diagnostic :=
  filter (λ d, DPos d = p) ds.

(** The messages of the analyzer, and the messages as the specification
    words them. *)
Definition messages : list string :=
  [msg_param; msg_assign; msg_access; msg_multiple].

Definition spec_messages : list string :=
  ["guarded-section types cannot be passed to a function";
   "assignment to guarded-section without lease";
   "access of guarded-section without lease";
   "multiple instance of a guarded-section derived type"].

(** ** Notions of the further properties *)

(** The nodes [nearestFunction] stops at. *)
Definition is_function (n : Node) : bool :=
  match n with
  | FuncDecl _ _ _ _ _ | FuncLit _ _ _ => true
  | _ => false
  end.

(** A call path: every edge but the last one ends at the node the next one
    starts from. *)
Fixpoint call_path (path : list Edge) : Prop :=
  match path with
  | e1 :: rest =>
      match rest with
      | e2 :: _ => Callee e1 = Caller e2 ∧ call_path rest
      | [] => True
      end
  | [] => True
  end.

(** The incoming edges of every node end at that node. *)
Definition linked (g : Graph) : Prop :=
  ∀ r e, e ∈ In (node g r) → Callee e = r.

(** The walk of [check] from [e] stays among the nodes of the graph: the
    caller of [e] is one of them, and so is the caller of every incoming
    edge of every one of them. *)
Definition callers_known (g : Graph) (e : Edge) : Prop :=
  Caller e ∈ Nodes g ∧
  ∀ r inn, r ∈ Nodes g → inn ∈ In (node g r) → Caller inn ∈ Nodes g.

(** The type name a node instantiates, if it is an instantiation. *)
Definition instantiated (n : Node) : option string :=
  match n with
  | ValueSpec _ _ (Some (Ident _ name)) _ => Some name
  | AssignStmt _ _ tok (CompositeLit (Some (Ident _ name)) _ _) _ =>
      if String.eqb tok ":=" then Some name else None
  | _ => None
  end.

Section Declarations.

Context {Ty : Type} `{!GoTypes Ty}.
Variable pass : Pass Ty.

(** The struct type declarations below a node that have a field embedding
    the section, each with its name and its struct type, in the order of
    the traversal. *)
Fixpoint declared (n : Node) : list (string * Node) :=
  let below := flat_map declared in
  match n with
  | Ident _ _ => []
  | StarExpr _ X => declared X
  | SelectorExpr X _ _ => declared X
  | CompositeLit t _ Elts =>
      match t with Some t => declared t | None => [] end ++ below Elts
  | FuncLit _ Params Body => below Params ++ below Body
  | FuncDecl _ _ _ Params Body =>
      match Params with Some ps => below ps | None => [] end ++ below Body
  | Field Names t => below Names ++ declared t
  | ValueSpec name Names t Values =>
      declared name ++ below Names ++
      match t with Some t => declared t | None => [] end ++ below Values
  | AssignStmt lhs0 LhsRest _ rhs0 RhsRest =>
      declared lhs0 ++ below LhsRest ++ declared rhs0 ++ below RhsRest
  | TypeSpec _ s t =>
      match t with
      | StructType _ Fields =>
          if existsb (embeds_section pass) Fields then [(s, t)] else []
      | _ => []
      end ++ declared t
  | StructType _ Fields => below Fields
  | Other _ children => below children
  end.

(** The two entries [identify] writes for a declaration. *)
Definition register (m : gmap string Ty) (d : string * Node) : gmap string Ty :=
  <["*" +:+ d.1 := NewPointer (TypeOf pass d.2)]> (<[d.1 := TypeOf pass d.2]> m).

(** The event enters the declaration of the struct type [t] with the name
    [s], and [t] has a field embedding the section. *)
Definition declares (ev : Event) (s : string) (t : Node) : Prop :=
  ev_push ev = true ∧
  ∃ p q flds, ev_node ev = TypeSpec p s t ∧ t = StructType q flds ∧
              existsb (embeds_section pass) flds = true.

(** The declarations [ds] are those the events [evs] enter. *)
Definition agree (evs : list Event) (ds : list (string * Node)) : Prop :=
  ∀ s t, (s, t) ∈ ds ↔ ∃ ev, ev ∈ evs ∧ declares ev s t.

(** The walk of [ast.Inspect] over a sequence of events: [identify] is
    called when a node is entered. *)
Definition identifies (evs : list Event) (st : option Ty * gmap string Ty)
    : option Ty * gmap string Ty :=
  fold_left (λ st ev, if ev_push ev then identify pass (ev_node ev) st else st)
    evs st.

(** The entries of a sequence of declarations, written in their order. *)
Definition registers (ds : list (string * Node)) (m : gmap string Ty)
    : gmap string Ty :=
  fold_left register ds m.

End Declarations.

Section Reasons.

Context {Ty : Type} `{!GoTypes Ty}.
Variable pass : Pass Ty.
Variable graph : Graph.

(** What stands behind a diagnostic with the message [msg] at the node [n]
    whose nearest function is [nf]: [n] is a function declaration whose
    parameters reach the report; or [n] is an access site and no search from
    an edge into [nf] reaches the lease; or [n] instantiates a type name. *)
Inductive justified (critSecTypesByName : gmap string Ty)
    : Node → Node → string → Prop :=
| by_parameter p np name ps body :
    params_report critSecTypesByName ps = true →
    justified critSecTypesByName
      (FuncDecl p np name (Some ps) body) (FuncDecl p np name (Some ps) body)
      msg_param
| by_access n nf msg :
    access_site pass critSecTypesByName n msg → ¬ guarded pass graph nf →
    justified critSecTypesByName n nf msg
| by_instance n nf name :
    instantiated n = Some name →
    justified critSecTypesByName n nf msg_multiple.

End Reasons.

(** The diagnostics of a list that report a second instance. *)
Definition multiples (ds : list Diagnostic) : list Diagnostic :=
  filter (λ d, Message d = msg_multiple) ds.

(** The events of a sequence that the callback inspects are all entries,
    whatever was inspected before. *)
Definition entered (evs : list Event) : Prop :=
  ∀ seen, Forall (λ ev, ev_push ev = true) (inspected_events seen evs).

(** ** Package crit: the section and its lease *)

Module crit.

Section Lease.

Variables D E : Type.

(** A struct that embeds [Section]: the mutex [lock] of the section, which
    is locked or not, and the fields of the struct. *)
Record Guarded := mkGuarded { lock : bool; fields : D }.

(** What a callback given to [Lease] does, step by step: it returns an
    error; it reads or writes the fields and goes on; it panics; or it
    calls [Lease] on the same section with a callback [f] and goes on with
    the error that call returns.  The field [lock] is not exported: a
    callback reaches the mutex through [Lease] only. *)
Inductive Code :=
| Return (err : E)
| Touch (a : D → D) (k : Code)
| Panic
| Call (f : Code) (k : E → Code).

(** A goroutine that called [Lease]: it is at [crit.lock.Lock()] with the
    callback [f]; it runs the callback; it has returned from its outermost
    call with an error; it panics, with the deferred calls of the enclosing
    calls of [Lease] still to run; or the runtime has stopped it with a
    fatal error.  [ks] are the callbacks of the enclosing calls of [Lease],
    innermost first, each waiting for the error of the call it made. *)
Inductive Goroutine :=
| Calling (f : Code) (ks : list (E → Code))
| Running (c : Code) (ks : list (E → Code))
| Returned (err : E)
| Panicking (ks : list (E → Code))
| Fatal.

(** [sync.Mutex.Lock]: [None] while the mutex is locked (the caller
    waits). *)
Definition Lock (s : Guarded) : option Guarded :=
  if lock s then None else Some (mkGuarded true (fields s)).

(** [sync.Mutex.Unlock]: [None] is the fatal error of unlocking a mutex
    that is not locked. *)
Definition Unlock (s : Guarded) : option Guarded :=
  if lock s then Some (mkGuarded false (fields s)) else None.

(** The call [crit.Lease(f)]. *)
Definition Lease (f : Code) : Goroutine := Calling f [].

(** One step of a goroutine inside [Lease]: [crit.lock.Lock()]; a step of
    [f()]; the deferred [crit.lock.Unlock()] when [f] returns, after which
    [Lease] returns the error of [f] to its caller, or when [f] panics,
    after which the panic goes on to the enclosing call.  [None]: the
    goroutine waits for the mutex, or has come to its end. *)
Definition exec (s : Guarded) (g : Goroutine) : option (Guarded * Goroutine) :=
  match g with
  | Calling f ks => s' ← Lock s; Some (s', Running f ks)
  | Running (Touch a k) ks => Some (mkGuarded (lock s) (a (fields s)), Running k ks)
  | Running (Call f k) ks => Some (s, Calling f (k :: ks))
  | Running (Return err) ks =>
      match Unlock s with
      | None => Some (s, Fatal)
      | Some s' =>
          Some (s', match ks with
                    | [] => Returned err
                    | k :: ks' => Running (k err) ks'
                    end)
      end
  | Running Panic ks =>
      match Unlock s with
      | None => Some (s, Fatal)
      | Some s' => Some (s', Panicking ks)
      end
  | Panicking (_ :: ks) =>
      match Unlock s with
      | None => Some (s, Fatal)
      | Some s' => Some (s', Panicking ks)
      end
  | Panicking [] | Returned _ | Fatal => None
  end.

(** A step of a program of goroutines that share the struct: one of them
    makes a step. *)
Definition step (p q : Guarded * list Goroutine) : Prop :=
  ∃ i g g', p.2 !! i = Some g ∧ exec p.1 g = Some (q.1, g') ∧
            q.2 = <[i:=g']> p.2.

(** The step of the goroutine [i], and the steps of the goroutines of a
    schedule, one after the other; [None] when a goroutine of the schedule
    cannot make its step. *)
Definition step_at (i : nat) (p : Guarded * list Goroutine)
    : option (Guarded * list Goroutine) :=
  g ← p.2 !! i; r ← exec p.1 g; Some (r.1, <[i:=r.2]> p.2).

Fixpoint schedule (turns : list nat) (p : Guarded * list Goroutine)
    : option (Guarded * list Goroutine) :=
  match turns with
  | [] => Some p
  | i :: turns' => q ← step_at i p; schedule turns' q
  end.

(** The goroutines call [Lease] with the callbacks [fs], the mutex being
    unlocked. *)
Definition start (d : D) (fs : list Code) : Guarded * list Goroutine :=
  (mkGuarded false d, map Lease fs).

(** The goroutine is inside a callback. *)
Definition holds (g : Goroutine) : bool :=
  match g with
  | Running _ _ | Calling _ (_ :: _) => true
  | _ => false
  end.

(** The goroutine has left [Lease], by a return or by a panic. *)
Definition finished (g : Goroutine) : bool :=
  match g with
  | Returned _ | Panicking [] => true
  | _ => false
  end.

(** The goroutine waits inside a callback for the mutex. *)
Definition nested (g : Goroutine) : bool :=
  match g with
  | Calling _ (_ :: _) => true
  | _ => false
  end.

(** What a callback that runs alone, holding the mutex, does to the
    fields. *)
Fixpoint effect (c : Code) (d : D) : D :=
  match c with
  | Touch a k => effect k (a d)
  | Return _ | Panic | Call _ _ => d
  end.

(** How a callback that runs alone ends: it returns an error ([Some (Some
    err)]), it panics ([Some None]), or it waits in a call of [Lease] for
    the mutex it holds ([None]). *)
Fixpoint outcome (c : Code) : option (option E) :=
  match c with
  | Return err => Some (Some err)
  | Touch _ k => outcome k
  | Panic => Some None
  | Call _ _ => None
  end.

(** The fields after the callbacks of the goroutines [order] have run one
    after the other. *)
Definition in_turn (fs : list Code) (order : list nat) (d : D) : D :=
  fold_left (λ d i, match fs !! i with Some f => effect f d | None => d end)
    order d.

End Lease.

Arguments mkGuarded {D} _ _.
Arguments lock {D} _.
Arguments fields {D} _.
Arguments Return {D E} _.
Arguments Touch {D E} _ _.
Arguments Panic {D E}.
Arguments Call {D E} _ _.
Arguments Calling {D E} _ _.
Arguments Running {D E} _ _.
Arguments Returned {D E} _.
Arguments Panicking {D E} _.
Arguments Fatal {D E}.
Arguments Lock {D} _.
Arguments Unlock {D} _.
Arguments Lease {D E} _.
Arguments exec {D E} _ _.
Arguments step {D E} _ _.
Arguments step_at {D E} _ _.
Arguments schedule {D E} _ _.
Arguments start {D E} _ _.
Arguments holds {D E} _.
Arguments finished {D E} _.
Arguments nested {D E} _.
Arguments effect {D E} _ _.
Arguments outcome {D E} _.
Arguments in_turn {D E} _ _ _.

End crit.

Section LeaseInvariants.

Context {D E : Type}.

(** The calls of [Lease] of a goroutine are nested one deep at most, and
    the goroutine has met no fatal error. *)
Definition well_nested (g : crit.Goroutine D E) : Prop :=
  match g with
  | crit.Running _ ks | crit.Panicking ks => ks = []
  | crit.Calling _ ks => length ks ≤ 1
  | crit.Returned _ => True
  | crit.Fatal => False
  end.

(** The mutex is locked exactly when a goroutine is inside a callback, and
    one goroutine at most is. *)
Definition exclusive (p : crit.Guarded D * list (crit.Goroutine D E)) : Prop :=
  (∀ g, g ∈ p.2 → well_nested g) ∧
  (crit.lock p.1 = true ↔ ∃ g, g ∈ p.2 ∧ crit.holds g = true) ∧
  (∀ i j gi gj, p.2 !! i = Some gi → p.2 !! j = Some gj →
                crit.holds gi = true → crit.holds gj = true → i = j).

(** The callbacks of the goroutines [done] have run one after the other,
    and the callback that runs now, if one does, continues that. *)
Definition serial (fs : list (crit.Code D E)) (d0 : D)
    (p : crit.Guarded D * list (crit.Goroutine D E)) : Prop :=
  ∃ done,
    NoDup done ∧ length p.2 = length fs ∧
    (∀ i, i ∈ done ↔ ∃ g, p.2 !! i = Some g ∧ crit.finished g = true) ∧
    (∀ i g, p.2 !! i = Some g →
       ∃ f, fs !! i = Some f ∧
            match g with
            | crit.Calling f' [] => f' = f
            | crit.Running c _ =>
                crit.effect c (crit.fields p.1) =
                crit.effect f (crit.in_turn fs done d0)
            | crit.Calling _ (_ :: _) =>
                crit.fields p.1 = crit.effect f (crit.in_turn fs done d0)
            | _ => True
            end) ∧
    ((∀ g, g ∈ p.2 → crit.holds g = false) →
     crit.fields p.1 = crit.in_turn fs done d0).

(** Every goroutine is where its own callback has brought it. *)
Definition faithful (fs : list (crit.Code D E))
    (p : crit.Guarded D * list (crit.Goroutine D E)) : Prop :=
  ∀ i g, p.2 !! i = Some g →
    ∃ f, fs !! i = Some f ∧
         match g with
         | crit.Calling f' [] => f' = f
         | crit.Running c [] => crit.outcome c = crit.outcome f
         | crit.Returned err => crit.outcome f = Some (Some err)
         | crit.Panicking [] => crit.outcome f = Some None
         | _ => True
         end.

End LeaseInvariants.

(** * Example inputs *)

(** ** A small model of Go types *)

(** Enough of [go/types] for example programs: basic types, struct types
    (told apart by their text), declared types and pointers.  Two types
    convert to one another when their underlying types are the same, or
    when they are pointers to types whose underlying types are the same. *)
Inductive ty : Type :=
| Basic (name : string)
| Struct (text : string)
| Named (name : string) (underlying : ty)
| Pointer (elem : ty).

#[global] Instance ty_eq_dec : EqDecision ty.
Proof. solve_decision. Defined.

Definition underlying_of (t : ty) : ty :=
  match t with Named _ u => u | _ => t end.

Fixpoint ty_string (t : ty) : string :=
  match t with
  | Basic name => name
  | Struct text => text
  | Named name _ => name
  | Pointer elem => "*" +:+ ty_string elem
  end.

Definition ty_convertible (a b : ty) : bool :=
  bool_decide (underlying_of a = underlying_of b) ||
  match a, b with
  | Pointer x, Pointer y => bool_decide (underlying_of x = underlying_of y)
  | _, _ => false
  end.

#[global] Instance ty_GoTypes : GoTypes ty :=
  {| ConvertibleTo := ty_convertible; NewPointer := Pointer; TypeString := ty_string |}.

(** The type [crit.Section] and a type that embeds it. *)
Definition section_ty : ty := Named critName (Struct "struct{lock sync.Mutex}").
Definition guarded_struct : ty := Struct "struct{crit.Section; value int}".
Definition plain_struct : ty := Struct "struct{value int}".

(** Positions of the examples: line and column packed in one number. *)
Definition at_ (line col : Z) : Pos := (line * 100 + col)%Z.

(** ** The program example/example.go *)

Module example.

Definition critSectionExample : ty :=
  Named "example.critSectionExample" guarded_struct.
Definition nonCriticalExample : ty :=
  Named "example.nonCriticalExample" plain_struct.

Definition id (line col : Z) (name : string) : Node := Ident (at_ line col) name.
Definition sel (line col : Z) (x : string) (col' : Z) (s : string) : Node :=
  SelectorExpr (id line col x) (at_ line col') s.
Definition lit (line col : Z) : Node := Other (at_ line col) [].
Definition var (line : Z) (name type : string) : Node :=
  Other (at_ line 2)
    [Other (at_ line 2)
       [ValueSpec (id line 6 name) [] (Some (id line 8 type)) []]].
(** [for i := 0; i < 1000; i++ { body }] with [for] at column [c] *)
Definition for_loop (line c : Z) (body : list Node) : Node :=
  Other (at_ line c)
    ([AssignStmt (id line (c + 4) "i") [] ":=" (lit line (c + 9)) [];
      Other (at_ line (c + 12)) [id line (c + 12) "i"; lit line (c + 16)];
      Other (at_ line (c + 22)) [id line (c + 22) "i"]] ++ body).
(** [x.Lease(func() error { body })] as a statement *)
Definition lease_call (line c : Z) (x : string) (body : list Node) : Node :=
  Other (at_ line c)
    [Other (at_ line c)
       [sel line c x (c + 2) "Lease"; FuncLit (at_ line (c + 8)) [] body]].
Definition go_func (line : Z) (body : list Node) : Node :=
  Other (at_ line 2) [Other (at_ line 5) [FuncLit (at_ line 5) [] body]].
Definition ret_nil (line c : Z) : Node :=
  Other (at_ line c) [id line (c + 7) "nil"].

Definition type_decls : list Node :=
  [Other (at_ 9 1)
     [TypeSpec (at_ 9 6) "critSectionExample"
        (StructType (at_ 9 25)
           [Field [] (sel 10 2 "crit" 7 "Section");
            Field [id 11 2 "value"] (id 11 8 "int")])];
   Other (at_ 15 1)
     [TypeSpec (at_ 15 6) "nonCriticalExample"
        (StructType (at_ 15 25) [Field [id 16 2 "value"] (id 16 8 "int")])]].

Definition unused : Node :=
  FuncDecl (at_ 21 1) (at_ 21 6) "unused"
    (Some [Field [id 21 13 "c"] (StarExpr (at_ 21 15) (id 21 16 "critSectionExample"))])
    [AssignStmt (sel 22 2 "c" 4 "value") [] "=" (Other (at_ 22 12) [lit 22 13]) []].

Definition used : Node :=
  FuncDecl (at_ 27 1) (at_ 27 6) "used"
    (Some [Field [id 27 11 "c"] (StarExpr (at_ 27 13) (id 27 14 "critSectionExample"))])
    [AssignStmt (sel 28 2 "c" 4 "value") [] "=" (Other (at_ 28 12) [lit 28 13]) []].

Definition main : Node :=
  FuncDecl (at_ 31 1) (at_ 31 6) "main" (Some [])
    [var 32 "C" "critSectionExample";
     var 33 "N" "nonCriticalExample";
     go_func 35
       [lease_call 36 3 "C"
          [for_loop 37 4
             [AssignStmt (sel 38 5 "C" 7 "value") [] "=" (lit 38 15) [];
              AssignStmt (id 39 5 "_") [] "=" (sel 39 9 "C" 11 "value") []];
           ret_nil 41 4]];
     go_func 45
       [for_loop 46 3
          [AssignStmt (sel 47 4 "C" 6 "value") [] "=" (lit 47 14) []]];
     AssignStmt (sel 52 2 "N" 4 "value") [] "=" (lit 52 12) [];
     AssignStmt (sel 55 2 "C" 4 "value") [] "=" (lit 55 12) [];
     AssignStmt (id 56 2 "_") [] "=" (sel 56 6 "C" 8 "value") [];
     Other (at_ 59 2)
       [Other (at_ 59 2) [id 59 2 "used"; Other (at_ 59 7) [id 59 8 "C"]]];
     Other (at_ 62 2) [Other (at_ 62 2) [id 62 2 "subtask"]]].

Definition subtask : Node :=
  FuncDecl (at_ 66 1) (at_ 66 6) "subtask" (Some [])
    [var 67 "D" "critSectionExample";
     lease_call 69 2 "D"
       [AssignStmt (sel 70 3 "D" 5 "value") [] "=" (lit 70 13) [];
        ret_nil 71 3]].

Definition unusedSubtask : Node :=
  FuncDecl (at_ 77 1) (at_ 77 6) "unusedSubtask" (Some [])
    [var 78 "E" "critSectionExample";
     lease_call 80 2 "E"
       [AssignStmt (sel 81 3 "E" 5 "value") [] "=" (lit 81 13) [];
        ret_nil 82 3]].

Definition file : Node :=
  Other (at_ 1 1)
    (id 1 9 "main" :: Other (at_ 3 1) [] :: type_decls ++
     [unused; used; main; subtask; unusedSubtask]).

(** Positions from 100000 on lie in crit/crit.go. *)
Definition fset (p : Pos) : Position :=
  if bool_decide (p < 100000)%Z then mkPosition "example.go" (p / 100)
  else mkPosition "crit.go" ((p - 100000) / 100).

Definition type_of (n : Node) : ty :=
  match n with
  | Ident _ name =>
      if bool_decide (name ∈ ["C"; "D"; "E"]) then critSectionExample
      else if bool_decide (name = "c") then Pointer critSectionExample
      else if bool_decide (name = "N") then nonCriticalExample
      else Basic "int"
  | SelectorExpr (Ident _ "crit") _ "Section" => section_ty
  | StructType p _ =>
      if bool_decide (p = at_ 9 25) then guarded_struct else plain_struct
  | _ => Basic "int"
  end.

Definition pass : Pass ty := mkPass fset type_of [file].

(** The call graph: node, function and position of the function. *)
Definition n_main := 0.
Definition n_unused := 1.
Definition n_used := 2.
Definition n_subtask := 3.
Definition n_unusedSubtask := 4.
Definition n_main1 := 5.          (* the literal of line 35 *)
Definition n_main1_1 := 6.        (* the literal of line 36 *)
Definition n_main2 := 7.          (* the literal of line 45 *)
Definition n_subtask1 := 8.       (* the literal of line 69 *)
Definition n_unusedSubtask1 := 9. (* the literal of line 80 *)
Definition n_Lease := 10.

Definition edge (a b : nat) : Edge := mkEdge a b.

Definition nodes : list callgraph.Node :=
  [ mkNode (mkFunction "main" (at_ 31 6)) []
      [edge n_main n_main1; edge n_main n_main2; edge n_main n_used;
       edge n_main n_subtask];
    mkNode (mkFunction "unused" (at_ 21 6)) [] [];
    mkNode (mkFunction "used" (at_ 27 6)) [edge n_main n_used] [];
    mkNode (mkFunction "subtask" (at_ 66 6)) [edge n_main n_subtask]
      [edge n_subtask n_Lease];
    mkNode (mkFunction "unusedSubtask" (at_ 77 6)) []
      [edge n_unusedSubtask n_Lease];
    mkNode (mkFunction "main$1" (at_ 35 5)) [edge n_main n_main1]
      [edge n_main1 n_Lease];
    mkNode (mkFunction "main$1$1" (at_ 36 11)) [edge n_Lease n_main1_1] [];
    mkNode (mkFunction "main$2" (at_ 45 5)) [edge n_main n_main2] [];
    mkNode (mkFunction "subtask$1" (at_ 69 10)) [edge n_Lease n_subtask1] [];
    mkNode (mkFunction "unusedSubtask$1" (at_ 80 10))
      [edge n_Lease n_unusedSubtask1] [];
    mkNode (mkFunction "Lease" (100000 + at_ 15 22)%Z)
      [edge n_main1 n_Lease; edge n_subtask n_Lease;
       edge n_unusedSubtask n_Lease]
      [edge n_Lease n_main1_1; edge n_Lease n_subtask1;
       edge n_Lease n_unusedSubtask1] ].

Definition graph : Graph :=
  mkGraph (λ r, nth r nodes (mkNode (mkFunction "" NoPos) [] []))
          (seq 0 (length nodes)).

(** The events of the assignments of line 55, in [main], and of line 22,
    in [unused]. *)
Definition write_in_main : Event :=
  mkEvent (AssignStmt (sel 55 2 "C" 4 "value") [] "=" (lit 55 12) []) true
    [file; main; AssignStmt (sel 55 2 "C" 4 "value") [] "=" (lit 55 12) []].

Definition write_in_unused : Event :=
  mkEvent (AssignStmt (sel 22 2 "c" 4 "value") [] "=" (Other (at_ 22 12) [lit 22 13]) [])
    true
    [file; unused;
     AssignStmt (sel 22 2 "c" 4 "value") [] "=" (Other (at_ 22 12) [lit 22 13]) []].

End example.

(** ** Shared pieces of the small programs below *)

Module small.

Definition id (line col : Z) (name : string) : Node := Ident (at_ line col) name.
Definition sel (line col : Z) (x : string) (col' : Z) (s : string) : Node :=
  SelectorExpr (id line col x) (at_ line col') s.
Definition lit (line col : Z) : Node := Other (at_ line col) [].

(** [type name struct { crit.Section; field ftype }] over four lines *)
Definition guarded_type (line : Z) (name field ftype : string) : Node :=
  Other (at_ line 1)
    [TypeSpec (at_ line 6) name
       (StructType (at_ line 8)
          [Field [] (sel (line + 1) 2 "crit" 7 "Section");
           Field [id (line + 2) 2 field] (id (line + 2) 8 ftype)])].

(** [var name type] at the level of the package *)
Definition package_var (line : Z) (name type : string) : Node :=
  Other (at_ line 1) [ValueSpec (id line 5 name) [] (Some (id line 7 type)) []].

(** [var name type] as a statement *)
Definition local_var (line : Z) (name type : string) : Node :=
  Other (at_ line 2)
    [Other (at_ line 2) [ValueSpec (id line 6 name) [] (Some (id line 8 type)) []]].

Definition fset (p : Pos) : Position := mkPosition "main.go" (p / 100).

Definition G : ty := Named "main.G" guarded_struct.

(** The variables [g], [a] and [b] have the type [G]. *)
Definition type_of (n : Node) : ty :=
  match n with
  | Ident _ name =>
      if bool_decide (name ∈ ["g"; "a"; "b"]) then G else Basic "int"
  | SelectorExpr (Ident _ "crit") _ "Section" => section_ty
  | StructType _ _ => guarded_struct
  | _ => Basic "int"
  end.

Definition no_node : callgraph.Node := mkNode (mkFunction "" NoPos) [] [].

Definition graph_of (nodes : list callgraph.Node) : Graph :=
  mkGraph (λ r, nth r nodes no_node) (seq 0 (length nodes)).

End small.

(** ** A function that calls itself

<<
 1  package main
 3  type G struct {
 4      crit.Section
 5      value int
 6  }
 8  var g G
10  func count(n int) {
11      if n > 0 {
12          g.value = n
13          count(n - 1)
14      }
15  }
17  func main() {
18      println("done")
19  }
>>
*)
Module recursion.
Import small.

Definition if_positive : Node :=
  Other (at_ 11 2)
    [Other (at_ 11 5) [id 11 5 "n"; lit 11 9];
     AssignStmt (sel 12 3 "g" 5 "value") [] "=" (id 12 13 "n") [];
     Other (at_ 13 3)
       [Other (at_ 13 3)
          [id 13 3 "count"; Other (at_ 13 9) [id 13 9 "n"; lit 13 13]]]].

Definition count : Node :=
  FuncDecl (at_ 10 1) (at_ 10 6) "count"
    (Some [Field [id 10 12 "n"] (id 10 14 "int")]) [if_positive].

Definition main : Node :=
  FuncDecl (at_ 17 1) (at_ 17 6) "main" (Some [])
    [Other (at_ 18 2) [Other (at_ 18 2) [id 18 2 "println"; lit 18 10]]].

Definition file : Node :=
  Other (at_ 1 1)
    [id 1 9 "main"; guarded_type 3 "G" "value" "int"; package_var 8 "g" "G";
     count; main].

Definition pass : Pass ty := mkPass fset type_of [file].

Definition n_main := 0.
Definition n_count := 1.
Definition call_from_main : Edge := mkEdge n_main n_count.
Definition call_from_count : Edge := mkEdge n_count n_count.

(** The call graph of the program: the only call is that of [count] in its
    own body. *)
Definition graph : Graph :=
  graph_of
    [ mkNode (mkFunction "main" (at_ 17 6)) [] [];
      mkNode (mkFunction "count" (at_ 10 6)) [call_from_count] [call_from_count] ].

(** The call graph of the program with [count(3)] for the body of [main],
    when the call of [count] in its own body is the first incoming edge of
    [count]. *)
Definition graph_called : Graph :=
  graph_of
    [ mkNode (mkFunction "main" (at_ 17 6)) [] [call_from_main];
      mkNode (mkFunction "count" (at_ 10 6))
        [call_from_count; call_from_main] [call_from_count] ].

(** The event of the assignment of line 12. *)
Definition assignment : Event :=
  mkEvent (AssignStmt (sel 12 3 "g" 5 "value") [] "=" (id 12 13 "n") []) true
    [file; count; if_positive;
     AssignStmt (sel 12 3 "g" 5 "value") [] "=" (id 12 13 "n") []].

End recursion.

(** ** A function with two callers, one of them the lease function

    [worker] is called by [main] and by [Lease], [helper] by [worker].  The
    two graphs differ in the order of the incoming edges of [worker]. *)
Module two_callers.
Import small.

Definition n_main := 0.
Definition n_Lease := 1.
Definition n_worker := 2.
Definition n_helper := 3.

Definition nodes (worker_in : list Edge) : list callgraph.Node :=
  [ mkNode (mkFunction "main" (at_ 20 6)) []
      [mkEdge n_main n_worker; mkEdge n_main n_Lease];
    mkNode (mkFunction "Lease" (at_ 900 22)) [mkEdge n_main n_Lease]
      [mkEdge n_Lease n_worker];
    mkNode (mkFunction "worker" (at_ 10 6)) worker_in [mkEdge n_worker n_helper];
    mkNode (mkFunction "helper" (at_ 15 6)) [mkEdge n_worker n_helper] [] ].

Definition main_first : Graph :=
  graph_of (nodes [mkEdge n_main n_worker; mkEdge n_Lease n_worker]).

Definition lease_first : Graph :=
  graph_of (nodes [mkEdge n_Lease n_worker; mkEdge n_main n_worker]).

End two_callers.

(** ** A leased function that a looping function calls too

<<
 1  package main
 3  type G struct {
 4      crit.Section
 5      value int
 6  }
 8  var g G
10  func worker() error {
11      g.value = 1
12      return nil
13  }
15  func loop(n int) {
16      if n > 0 {
17          loop(n - 1)
18      }
19      worker()
20  }
22  func main() {
23      g.Lease(worker)
24      g.value = 2
25  }
>>
*)
Module looping.
Import small.

Definition worker : Node :=
  FuncDecl (at_ 10 1) (at_ 10 6) "worker" (Some [])
    [AssignStmt (sel 11 2 "g" 4 "value") [] "=" (lit 11 12) [];
     Other (at_ 12 2) [id 12 9 "nil"]].

Definition loop : Node :=
  FuncDecl (at_ 15 1) (at_ 15 6) "loop"
    (Some [Field [id 15 11 "n"] (id 15 13 "int")])
    [Other (at_ 16 2)
       [Other (at_ 16 5) [id 16 5 "n"; lit 16 9];
        Other (at_ 17 3)
          [Other (at_ 17 3)
             [id 17 3 "loop"; Other (at_ 17 8) [id 17 8 "n"; lit 17 12]]]];
     Other (at_ 19 2) [Other (at_ 19 2) [id 19 2 "worker"]]].

Definition main : Node :=
  FuncDecl (at_ 22 1) (at_ 22 6) "main" (Some [])
    [Other (at_ 23 2)
       [Other (at_ 23 2) [sel 23 2 "g" 4 "Lease"; id 23 10 "worker"]];
     AssignStmt (sel 24 2 "g" 4 "value") [] "=" (lit 24 12) []].

Definition file : Node :=
  Other (at_ 1 1)
    [id 1 9 "main"; guarded_type 3 "G" "value" "int"; package_var 8 "g" "G";
     worker; loop; main].

Definition pass : Pass ty := mkPass fset type_of [file].

Definition n_main := 0.
Definition n_Lease := 1.
Definition n_loop := 2.
Definition n_worker := 3.
Definition main_leases : Edge := mkEdge n_main n_Lease.
Definition lease_calls : Edge := mkEdge n_Lease n_worker.
Definition loop_loops : Edge := mkEdge n_loop n_loop.
Definition loop_calls : Edge := mkEdge n_loop n_worker.

Definition graph : Graph :=
  graph_of
    [ mkNode (mkFunction "main" (at_ 22 6)) [] [main_leases];
      mkNode (mkFunction "Lease" (at_ 900 22)) [main_leases] [lease_calls];
      mkNode (mkFunction "loop" (at_ 15 6)) [loop_loops] [loop_loops; loop_calls];
      mkNode (mkFunction "worker" (at_ 10 6)) [lease_calls; loop_calls] [] ].

(** The edges in the order of the depth-first visit of [GraphVisitEdges]
    when the iteration over [g.Nodes] starts at [main], and when it starts
    at [loop]. *)
Definition visit_from_main : list Edge :=
  [lease_calls; main_leases; loop_loops; loop_calls].
Definition visit_from_loop : list Edge :=
  [loop_loops; loop_calls; lease_calls; main_leases].

(** The choices of two runs that differ in the order of the visit in
    [checkLease] only. *)
Definition choice_of (order : list Edge) : Choice ty :=
  mkChoice (map snd (map_to_list (catalog pass file))) (all_edges graph) order.

(** The event of the assignment of line 11. *)
Definition assignment : Event :=
  mkEvent (AssignStmt (sel 11 2 "g" 4 "value") [] "=" (lit 11 12) []) true
    [file; worker; AssignStmt (sel 11 2 "g" 4 "value") [] "=" (lit 11 12) []].

End looping.

(** ** A first instantiation in a function that is never called

<<
 1  package main
 3  type G struct {
 4      crit.Section
 5      value int
 6  }
 8  func helper() {
 9      var a G
10      _ = a
11  }
13  func main() {
14      var b G
15      _ = b
16  }
>>
*)
Module dead_first.
Import small.

Definition helper : Node :=
  FuncDecl (at_ 8 1) (at_ 8 6) "helper" (Some [])
    [local_var 9 "a" "G";
     AssignStmt (id 10 2 "_") [] "=" (id 10 6 "a") []].

Definition main : Node :=
  FuncDecl (at_ 13 1) (at_ 13 6) "main" (Some [])
    [local_var 14 "b" "G";
     AssignStmt (id 15 2 "_") [] "=" (id 15 6 "b") []].

Definition file : Node :=
  Other (at_ 1 1) [id 1 9 "main"; guarded_type 3 "G" "value" "int"; helper; main].

Definition pass : Pass ty := mkPass fset type_of [file].

Definition graph : Graph :=
  graph_of [ mkNode (mkFunction "main" (at_ 13 6)) [] [];
             mkNode (mkFunction "helper" (at_ 8 6)) [] [] ].

(** The event of the declaration of [b] in [main]. *)
Definition declaration_of_b : Event :=
  mkEvent (ValueSpec (id 14 6 "b") [] (Some (id 14 8 "G")) []) true
    [file; main; local_var 14 "b" "G";
     Other (at_ 14 2) [ValueSpec (id 14 6 "b") [] (Some (id 14 8 "G")) []];
     ValueSpec (id 14 6 "b") [] (Some (id 14 8 "G")) []].

End dead_first.

(** ** Assignments with two targets, and a field named Lease

<<
 1  package main
 3  type G struct {
 4      crit.Section
 5      value int
 6  }
 8  type H struct {
 9      crit.Section
10      Lease func() error
11  }
13  var g G
14  var h H
16  func main() {
17      var x int
18      x, g.value = 1, 2
19      g.value, x = 3, 4
20      h.Lease = nil
21      _ = x
22  }
>>
*)
Module targets.
Import small.

Definition x_then_field : Node :=
  AssignStmt (id 18 2 "x") [sel 18 5 "g" 7 "value"] "=" (lit 18 15) [lit 18 18].
Definition field_then_x : Node :=
  AssignStmt (sel 19 2 "g" 4 "value") [id 19 11 "x"] "=" (lit 19 15) [lit 19 18].
Definition lease_field : Node :=
  AssignStmt (sel 20 2 "h" 4 "Lease") [] "=" (id 20 12 "nil") [].

Definition main : Node :=
  FuncDecl (at_ 16 1) (at_ 16 6) "main" (Some [])
    [local_var 17 "x" "int"; x_then_field; field_then_x; lease_field;
     AssignStmt (id 21 2 "_") [] "=" (id 21 6 "x") []].

Definition file : Node :=
  Other (at_ 1 1)
    [id 1 9 "main"; guarded_type 3 "G" "value" "int";
     guarded_type 8 "H" "Lease" "func() error";
     package_var 13 "g" "G"; package_var 14 "h" "H"; main].

Definition H : ty := Named "main.H" (Struct "struct{crit.Section; Lease func() error}").

Definition type_of (n : Node) : ty :=
  match n with
  | Ident _ "h" => H
  | StructType p _ =>
      if bool_decide (p = at_ 8 8)
      then Struct "struct{crit.Section; Lease func() error}"
      else guarded_struct
  | _ => small.type_of n
  end.

Definition pass : Pass ty := mkPass fset type_of [file].

Definition graph : Graph := graph_of [ mkNode (mkFunction "main" (at_ 16 6)) [] [] ].

End targets.

(** ** Field selections at the start of a larger expression

<<
 1  package main
 3  type G struct {
 4      crit.Section
 5      value int
 6  }
 8  var g G
10  func main() {
11      g.value++
12      if g.value > 0 {
13          println("positive")
14      }
15  }
>>
*)
Module shared_position.
Import small.

(** [g.value++]: the statement starts where its operand starts *)
Definition increment : Node := Other (at_ 11 2) [sel 11 2 "g" 4 "value"].

(** [g.value > 0]: the comparison starts where its left operand starts *)
Definition comparison : Node := Other (at_ 12 5) [sel 12 5 "g" 7 "value"; lit 12 15].

Definition main : Node :=
  FuncDecl (at_ 10 1) (at_ 10 6) "main" (Some [])
    [increment;
     Other (at_ 12 2)
       [comparison;
        Other (at_ 13 3) [Other (at_ 13 3) [id 13 3 "println"; lit 13 11]]]].

Definition file : Node :=
  Other (at_ 1 1)
    [id 1 9 "main"; guarded_type 3 "G" "value" "int"; package_var 8 "g" "G"; main].

Definition pass : Pass ty := mkPass fset type_of [file].

Definition graph : Graph := graph_of [ mkNode (mkFunction "main" (at_ 10 6)) [] [] ].

End shared_position.

(** ** Two variables of a type that is not in the catalog

<<
 1  package main
 3  func main() {
 4      var x int
 5      var y int
 6      _, _ = x, y
 7  }
>>
*)
Module plain_names.
Import small.

Definition main : Node :=
  FuncDecl (at_ 3 1) (at_ 3 6) "main" (Some [])
    [local_var 4 "x" "int"; local_var 5 "y" "int";
     AssignStmt (id 6 2 "_") [id 6 5 "_"] "=" (id 6 9 "x") [id 6 12 "y"]].

Definition file : Node := Other (at_ 1 1) [id 1 9 "main"; main].

Definition pass : Pass ty := mkPass fset type_of [file].

Definition graph : Graph := graph_of [ mkNode (mkFunction "main" (at_ 3 6)) [] [] ].

End plain_names.

(** ** A pass of two files

<<
 a.go                           b.go
 1  package main                1  package main
 3  type G struct {             3  func helper() {
 4      crit.Section            4      var z int
 5      value int               5  }
 6  }
 8  func main() {
 9      var x int
10      var y int
11  }
>>

    The positions of [b.go] follow those of [a.go] in the file set: its
    lines are counted from 100 on.  Nothing calls [helper]. *)
Module two_files.
Import small.

Definition main : Node :=
  FuncDecl (at_ 8 1) (at_ 8 6) "main" (Some [])
    [local_var 9 "x" "int"; local_var 10 "y" "int"].

Definition helper : Node :=
  FuncDecl (at_ 103 1) (at_ 103 6) "helper" (Some [])
    [local_var 104 "z" "int"].

Definition file_a : Node :=
  Other (at_ 1 1) [id 1 9 "main"; guarded_type 3 "G" "value" "int"; main].

Definition file_b : Node := Other (at_ 101 1) [id 101 9 "main"; helper].

Definition fset (p : Pos) : Position :=
  if bool_decide (p < 10000)%Z then mkPosition "a.go" (p / 100)
  else mkPosition "b.go" (p / 100 - 100).

Definition pass : Pass ty := mkPass fset type_of [file_a; file_b].

Definition graph : Graph :=
  graph_of [ mkNode (mkFunction "main" (at_ 8 6)) [] [];
             mkNode (mkFunction "helper" (at_ 103 6)) [] [] ].

End two_files.

(** ** A function literal in a function that is never called

<<
 1  package main
 3  type G struct {
 4      crit.Section
 5      value int
 6  }
 8  var g G
10  func dead() {
11      go func() {
12          g.value = 1
13          h := G{}
14      }()
15  }
17  func main() {
18  }
>>

    Nothing calls [dead]; the call graph has the edge from [dead] to its
    literal. *)
Module dead_literal.
Import small.

Definition assign : Node :=
  AssignStmt (sel 12 3 "g" 5 "value") [] "=" (lit 12 13) [].

Definition declare : Node :=
  AssignStmt (id 13 3 "h") [] ":="
    (CompositeLit (Some (id 13 8 "G")) (at_ 13 9) []) [].

Definition literal : Node := FuncLit (at_ 11 5) [] [assign; declare].

Definition dead : Node :=
  FuncDecl (at_ 10 1) (at_ 10 6) "dead" (Some [])
    [Other (at_ 11 2) [Other (at_ 11 5) [literal]]].

Definition main : Node := FuncDecl (at_ 17 1) (at_ 17 6) "main" (Some []) [].

Definition file : Node :=
  Other (at_ 1 1)
    [id 1 9 "main"; guarded_type 3 "G" "value" "int"; package_var 8 "g" "G";
     dead; main].

Definition pass : Pass ty := mkPass fset type_of [file].

Definition n_main := 0.
Definition n_dead := 1.
Definition n_literal := 2.

Definition graph : Graph :=
  graph_of
    [ mkNode (mkFunction "main" (at_ 17 6)) [] [];
      mkNode (mkFunction "dead" (at_ 10 6)) [] [mkEdge n_dead n_literal];
      mkNode (mkFunction "dead$1" (at_ 11 5)) [mkEdge n_dead n_literal] [] ].

(** The stack of the nodes around the statements of the literal. *)
Definition around : list Node :=
  [file; dead; Other (at_ 11 2) [Other (at_ 11 5) [literal]];
   Other (at_ 11 5) [literal]; literal].

(** The events of the assignment of line 12 and of the declaration of
    line 13. *)
Definition assignment : Event := mkEvent assign true (around ++ [assign]).
Definition declaration : Event := mkEvent declare true (around ++ [declare]).

End dead_literal.

(** ** The program of the function with two callers

<<
 1  package main
 3  type G struct {
 4      crit.Section
 5      value int
 6  }
 8  var g G
10  func worker() error {
11      helper()
12      return nil
13  }
15  func helper() {
16      g.value = 1
17  }
20  func main() {
21      g.Lease(worker)
22      worker()
23  }
>>

    Its call graphs are [two_callers.main_first] and
    [two_callers.lease_first]. *)
Module in_order.
Import small.

Definition worker : Node :=
  FuncDecl (at_ 10 1) (at_ 10 6) "worker" (Some [])
    [Other (at_ 11 2) [Other (at_ 11 2) [id 11 2 "helper"]];
     Other (at_ 12 2) [id 12 9 "nil"]].

Definition helper : Node :=
  FuncDecl (at_ 15 1) (at_ 15 6) "helper" (Some [])
    [AssignStmt (sel 16 2 "g" 4 "value") [] "=" (lit 16 12) []].

Definition main : Node :=
  FuncDecl (at_ 20 1) (at_ 20 6) "main" (Some [])
    [Other (at_ 21 2)
       [Other (at_ 21 2) [sel 21 2 "g" 4 "Lease"; id 21 10 "worker"]];
     Other (at_ 22 2) [Other (at_ 22 2) [id 22 2 "worker"]]].

Definition file : Node :=
  Other (at_ 1 1)
    [id 1 9 "main"; guarded_type 3 "G" "value" "int"; package_var 8 "g" "G";
     worker; helper; main].

Definition pass : Pass ty := mkPass fset type_of [file].

End in_order.

(** ** Goroutines that lease one section

    The struct has one field, a counter.  The first goroutine adds one to
    the counter and returns; the second doubles the counter and panics; the
    third calls [Lease] inside its callback. *)
Module leases.

Definition add_one : crit.Code nat string :=
  crit.Touch S (crit.Return "added").

Definition double_and_panic : crit.Code nat string :=
  crit.Touch (λ n, 2 * n) crit.Panic.

Definition lease_again : crit.Code nat string :=
  crit.Call add_one (λ err, crit.Return err).

Definition three : list (crit.Code nat string) :=
  [add_one; double_and_panic; lease_again].

Definition two : list (crit.Code nat string) := [add_one; double_and_panic].

(** The first goroutine has locked the mutex and added one. *)
Definition first_inside
    : crit.Guarded nat * list (crit.Goroutine nat string) :=
  (crit.mkGuarded true 6,
   [crit.Running (crit.Return "added") []; crit.Calling double_and_panic [];
    crit.Calling lease_again []]).

(** The third goroutine has locked the mutex and called [Lease] again. *)
Definition third_nested
    : crit.Guarded nat * list (crit.Goroutine nat string) :=
  (crit.mkGuarded true 5,
   [crit.Calling add_one []; crit.Calling double_and_panic [];
    crit.Calling add_one [λ err, crit.Return err]]).

(** The second goroutine has run its callback to its panic, and then the
    first one has run its callback to its return. *)
Definition second_then_first
    : crit.Guarded nat * list (crit.Goroutine nat string) :=
  (crit.mkGuarded false 11, [crit.Returned "added"; crit.Panicking []]).

End leases.
(** * Properties *)

(** ** The caller walk *)

Lemma check_more_fuel g e b fuel fuel' :
  check fuel g e = Some b → fuel ≤ fuel' → check fuel' g e = Some b.
Proof.
  revert e fuel'. induction fuel as [|fuel IH]; intros e fuel' Hc Hle; [done|].
  destruct fuel' as [|fuel']; [lia|]. simpl in *.
  destruct (names_lease g e); [done|].
  destruct (In (node g (Caller e))) as [|inn rest]; [done|].
  apply IH; [done|lia].
Qed.

Lemma check_returns_once g e b b' :
  check_returns g e b → check_returns g e b' → b = b'.
Proof.
  intros [f Hf] [f' Hf'].
  apply (check_more_fuel _ _ _ _ (f + f')) in Hf; [|lia].
  apply (check_more_fuel _ _ _ _ (f + f')) in Hf'; [|lia]. congruence.
Qed.

(** The three rules of the walk, read in both directions. *)
Lemma check_returns_step g e b :
  check_returns g e b ↔
    (names_lease g e = true ∧ b = true) ∨
    (names_lease g e = false ∧
     ((∃ inn rest, In (node g (Caller e)) = inn :: rest ∧ check_returns g inn b)
      ∨ (In (node g (Caller e)) = [] ∧ b = false))).
Proof.
  split.
  - intros [[|fuel] Hc]; [done|]. simpl in Hc.
    destruct (names_lease g e); [left; split; congruence|]. right. split; [done|].
    destruct (In (node g (Caller e))) as [|inn rest].
    + right. split; congruence.
    + left. exists inn, rest. split; [done|]. by exists fuel.
  - intros [[Hl ->]|[Hl [(inn & rest & Hin & [fuel Hc])|[Hin ->]]]].
    + exists 1. simpl. by rewrite Hl.
    + exists (S fuel). simpl. by rewrite Hl, Hin.
    + exists 1. simpl. by rewrite Hl, Hin.
Qed.

(** What the walk returns, in terms of the chain of first incoming edges. *)
Lemma check_returns_chain g e b :
  check_returns g e b ↔
    ∃ k ek, walk_edge g k e = Some ek ∧
            (∀ j ej, j < k → walk_edge g j e = Some ej → names_lease g ej = false) ∧
            (if b then names_lease g ek = true
             else names_lease g ek = false ∧ In (node g (Caller ek)) = []).
Proof.
  split.
  - intros [fuel Hc]. revert e Hc. induction fuel as [|fuel IH]; intros e Hc; [done|].
    simpl in Hc. destruct (names_lease g e) eqn:Hl.
    { injection Hc as <-. exists 0, e. simpl. split; [done|]. split; [|done].
      intros; lia. }
    destruct (In (node g (Caller e))) as [|inn rest] eqn:Hin.
    { injection Hc as <-. exists 0, e. simpl. split; [done|]. split; [|done].
      intros; lia. }
    destruct (IH _ Hc) as (k & ek & Hk & Hbefore & Hend).
    exists (S k), ek. simpl. rewrite Hin. split; [done|]. split; [|done].
    intros [|j] ej Hj Hw; simpl in Hw.
    + congruence.
    + rewrite Hin in Hw. apply (Hbefore j); [lia|done].
  - intros (k & ek & Hk & Hbefore & Hend). revert e Hk Hbefore.
    induction k as [|k IH]; intros e Hk Hbefore; simpl in Hk.
    + injection Hk as ->. apply check_returns_step. destruct b.
      * by left.
      * right. destruct Hend as [Hl Hin]. split; [done|]. by right.
    + destruct (In (node g (Caller e))) as [|inn rest] eqn:Hin; [done|].
      apply check_returns_step. right. split.
      { apply (Hbefore 0); [lia|done]. }
      left. exists inn, rest. split; [done|]. apply IH; [done|].
      intros j ej Hj Hw. apply (Hbefore (S j)); [lia|]. simpl. by rewrite Hin.
Qed.

(** A chain of first incoming edges that never ends and never meets the
    lease function keeps the walk from returning. *)
Lemma check_never_returns g e :
  (∀ k, ∃ ek, walk_edge g k e = Some ek ∧ names_lease g ek = false) →
  ∀ fuel, check fuel g e = None.
Proof.
  intros Hall fuel. revert e Hall. induction fuel as [|fuel IH]; intros e Hall; [done|].
  simpl. destruct (Hall 0) as (e0 & He0 & Hl). simpl in He0. injection He0 as <-.
  rewrite Hl. destruct (Hall 1) as (e1 & He1 & _). simpl in He1.
  destruct (In (node g (Caller e))) as [|inn rest] eqn:Hin; [done|].
  apply IH. intros k. destruct (Hall (S k)) as (ek & Hk & Hlk).
  simpl in Hk. rewrite Hin in Hk. by exists ek.
Qed.

(** The walk returns when the chain reaches, after [k] steps, the lease
    function or a caller that nothing calls. *)
Lemma check_returns_within g e k ek :
  walk_edge g k e = Some ek →
  names_lease g ek = true ∨ In (node g (Caller ek)) = [] →
  ∃ b, check (S k) g e = Some b.
Proof.
  revert e. induction k as [|k IH]; intros e Hk Hend; simpl in Hk.
  - injection Hk as ->. simpl. destruct (names_lease g ek); [by eexists|].
    destruct Hend as [? | ->]; [done|by eexists].
  - destruct (In (node g (Caller e))) as [|inn rest] eqn:Hin; [done|].
    destruct (IH _ Hk Hend) as [b Hb]. exists (if names_lease g e then true else b).
    change (check (S (S k)) g e) with
      (if names_lease g e then Some true
       else match In (node g (Caller e)) with
            | inn :: _ => check (S k) g inn
            | [] => Some false
            end).
    rewrite Hin. by destruct (names_lease g e).
Qed.

(** ** Lists read as sets *)

Lemma existsb_elem {A} (f : A → bool) (l : list A) :
  existsb f l = true ↔ ∃ x, x ∈ l ∧ f x = true.
Proof.
  rewrite existsb_exists. split; intros (x & Hx & Hf); exists x; split; try done;
    by apply list_elem_of_In.
Qed.

Lemma existsb_same_elems {A} (f : A → bool) (l1 l2 : list A) :
  (∀ x, x ∈ l1 ↔ x ∈ l2) → existsb f l1 = existsb f l2.
Proof.
  intros Hl. apply eq_true_iff_eq. rewrite !existsb_elem.
  split; intros (x & Hx & Hf); exists x; split; try done; by apply Hl.
Qed.

(** ** The visit of the edges *)

Section Visit.

Variable g : Graph.
Hypothesis Hwf : well_formed g.

Lemma NoDup_subseteq_length (l k : list NodeRef) :
  NoDup l → l ⊆ k → length l ≤ length k.
Proof. intros Hl Hlk. by apply submseteq_length, NoDup_submseteq. Qed.

Lemma out_edge_in_graph r e :
  r ∈ Nodes g → e ∈ Out (node g r) → e ∈ all_edges g.
Proof.
  intros Hr He. unfold all_edges. apply list_elem_of_In, in_flat_map.
  exists r. split; by apply list_elem_of_In.
Qed.

(** What a visit that starts with the marks [seen] leaves: more marks, all
    of them nodes of the graph, the visited node among them; edges of the
    graph only; and every outgoing edge of every newly marked node. *)
Definition visited (n : NodeRef) (seen : list NodeRef)
    (r : list NodeRef * list Edge) : Prop :=
  seen ⊆ r.1 ∧ r.1 ⊆ Nodes g ∧ NoDup r.1 ∧ n ∈ r.1 ∧
  (∀ e, e ∈ r.2 → e ∈ all_edges g) ∧
  (∀ m e, m ∈ r.1 → m ∉ seen → e ∈ Out (node g m) → e ∈ r.2).

Lemma visit_out_edges fuel es0 s acc :
  (∀ n seen, n ∈ Nodes g → seen ⊆ Nodes g → NoDup seen →
             length (Nodes g) < fuel + length seen →
             visited n seen (visit fuel g n seen)) →
  (∀ e, e ∈ es0 → e ∈ all_edges g ∧ Callee e ∈ Nodes g) →
  s ⊆ Nodes g → NoDup s → length (Nodes g) < fuel + length s →
  let r := fold_left
             (λ acc e,
                let r := visit fuel g (Callee e) acc.1 in
                (r.1, acc.2 ++ r.2 ++ [e]))
             es0 (s, acc) in
  s ⊆ r.1 ∧ r.1 ⊆ Nodes g ∧ NoDup r.1 ∧
  ∃ new, r.2 = acc ++ new ∧
         (∀ e, e ∈ new → e ∈ all_edges g) ∧
         (∀ e, e ∈ es0 → e ∈ new) ∧
         (∀ m e, m ∈ r.1 → m ∉ s → e ∈ Out (node g m) → e ∈ new).
Proof.
  clear Hwf. intros Hvisit. revert s acc.
  induction es0 as [|e es0 IH]; intros s acc Hes Hs Hnd Hfuel; simpl.
  { split; [done|]. split; [done|]. split; [done|]. exists [].
    rewrite app_nil_r. split; [done|]. split; [by intros e ?%elem_of_nil|].
    split; [by intros e ?%elem_of_nil|]. by intros m e ? ?. }
  destruct (Hes e) as [Hein Hcallee]; [left|].
  destruct (Hvisit (Callee e) s Hcallee Hs Hnd Hfuel)
    as (Hs1 & Hn1 & Hnd1 & _ & He1 & Hout1).
  destruct (IH (visit fuel g (Callee e) s).1
              (acc ++ (visit fuel g (Callee e) s).2 ++ [e]))
    as (Hs2 & Hn2 & Hnd2 & new2 & Hr2 & He2 & Hes2 & Hout2); try done.
  { intros e' He'. apply Hes. by right. }
  { pose proof (NoDup_subseteq_length _ _ Hnd Hs1). lia. }
  split; [set_solver|]. split; [done|]. split; [done|].
  exists ((visit fuel g (Callee e) s).2 ++ [e] ++ new2).
  split; [etrans; [exact Hr2|by rewrite <-!app_assoc]|]. split; [|split].
  - intros e' [?|[->%list_elem_of_singleton|?]%elem_of_app]%elem_of_app; auto.
  - intros e' [->|?]%elem_of_cons; set_solver.
  - intros m e' Hm Hms He'.
    destruct (decide (m ∈ (visit fuel g (Callee e) s).1)) as [Hm1|Hm1].
    + apply elem_of_app. left. by apply (Hout1 m).
    + apply elem_of_app. right. apply elem_of_app. right. by apply (Hout2 m).
Qed.

Lemma visit_visited fuel n seen :
  n ∈ Nodes g → seen ⊆ Nodes g → NoDup seen →
  length (Nodes g) < fuel + length seen →
  visited n seen (visit fuel g n seen).
Proof using Hwf.
  revert n seen. induction fuel as [|fuel IH]; intros n seen Hn Hs Hnd Hfuel.
  { pose proof (NoDup_subseteq_length _ _ Hnd Hs). simpl in Hfuel. lia. }
  simpl. case_bool_decide as Hseen.
  { split; [done|]. split; [done|]. split; [done|]. split; [done|].
    split; [by intros e ?%elem_of_nil|]. by intros m e ? ?. }
  destruct (visit_out_edges fuel (Out (node g n)) (n :: seen) [] IH)
    as (Hs1 & Hn1 & Hnd1 & new & Hr & He & Hes & Hout).
  - intros e He. split; [by apply (out_edge_in_graph n)|].
    by apply (proj2 Hwf n).
  - set_solver.
  - by constructor.
  - simpl. lia.
  - simpl in Hr. split; [set_solver|]. split; [done|]. split; [done|].
    split; [set_solver|]. rewrite Hr. split; [done|].
    intros m e Hm Hms Hem. destruct (decide (m = n)) as [->|Hmn].
    + by apply Hes.
    + apply (Hout m); [done|set_solver|done].
Qed.

(** For every order in which the iteration over [g.Nodes] yields the nodes
    of a well-formed graph, the visit calls the callback on every edge of
    the graph and on nothing else. *)
Lemma visit_order_visits roots :
  (∀ r, r ∈ roots ↔ r ∈ Nodes g) → visits g (visit_order g roots).
Proof using Hwf.
  intros Hroots. unfold visit_order.
  assert (∀ rs s acc,
            (∀ r, r ∈ rs → r ∈ Nodes g) → s ⊆ Nodes g → NoDup s →
            (∀ e, e ∈ acc → e ∈ all_edges g) →
            (∀ m e, m ∈ s → e ∈ Out (node g m) → e ∈ acc) →
            let r := fold_left
                       (λ acc n,
                          let r := visit (S (length (Nodes g))) g n acc.1 in
                          (r.1, acc.2 ++ r.2))
                       rs (s, acc) in
            (∀ e, e ∈ r.2 → e ∈ all_edges g) ∧
            (∀ m e, m ∈ s ∨ m ∈ rs → e ∈ Out (node g m) → e ∈ r.2)) as Hfold.
  { induction rs as [|n rs IH]; intros s acc Hrs Hs Hnd Hacc Hout; simpl.
    { split; [done|]. intros m e [?|?%elem_of_nil]; [by apply Hout|done]. }
    destruct (visit_visited (S (length (Nodes g))) n s)
      as (Hs1 & Hn1 & Hnd1 & Hin1 & He1 & Hout1); try done.
    { apply Hrs. left. } { lia. }
    destruct (IH (visit (S (length (Nodes g))) g n s).1
                (acc ++ (visit (S (length (Nodes g))) g n s).2))
      as [He2 Hout2]; try done.
    - intros r Hr. apply Hrs. by right.
    - intros e [?|?]%elem_of_app; auto.
    - intros m e Hm He. apply elem_of_app.
      destruct (decide (m ∈ s)); [left; by apply (Hout m)|right; by apply (Hout1 m)].
    - split; [done|]. intros m e [Hm|[->|Hm]%elem_of_cons] He.
      + apply (Hout2 m); [left; by apply Hs1|done].
      + apply (Hout2 n); [by left|done].
      + apply (Hout2 m); [by right|done]. }
  destruct (Hfold roots [] []) as [Hin Hall].
  - intros r. apply Hroots.
  - by intros r ?%elem_of_nil.
  - constructor.
  - by intros e ?%elem_of_nil.
  - by intros m e ?%elem_of_nil.
  - intros e. split; [apply Hin|]. unfold all_edges.
    intros (r & Hr & He)%list_elem_of_In%in_flat_map.
    apply (Hall r); [right; by apply Hroots, list_elem_of_In|by apply list_elem_of_In].
Qed.

End Visit.

(** ** Syntax trees and their traversal *)

(** Induction over a syntax tree, with the property known of every child. *)
Lemma Node_deep_ind (P : Node → Prop) :
  (∀ p s, P (Ident p s)) →
  (∀ p X, P X → P (StarExpr p X)) →
  (∀ X p s, P X → P (SelectorExpr X p s)) →
  (∀ t lb elts, from_option P True t → Forall P elts → P (CompositeLit t lb elts)) →
  (∀ p ps body, Forall P ps → Forall P body → P (FuncLit p ps body)) →
  (∀ p np name ps body, from_option (Forall P) True ps → Forall P body →
     P (FuncDecl p np name ps body)) →
  (∀ names t, Forall P names → P t → P (Field names t)) →
  (∀ n0 names t vals, P n0 → Forall P names → from_option P True t →
     Forall P vals → P (ValueSpec n0 names t vals)) →
  (∀ l0 lr tok r0 rr, P l0 → Forall P lr → P r0 → Forall P rr →
     P (AssignStmt l0 lr tok r0 rr)) →
  (∀ p name t, P t → P (TypeSpec p name t)) →
  (∀ p flds, Forall P flds → P (StructType p flds)) →
  (∀ p cs, Forall P cs → P (Other p cs)) →
  ∀ n, P n.
Proof.
  intros HIdent HStar HSel HComp HLit HDecl HField HSpec HAssign HType HStruct HOther.
  fix IH 1.
  assert (∀ l, Forall P l) as all.
  { fix IHl 1. intros [|x l]; constructor; [apply IH|apply IHl]. }
  intros [p s|p X|X sp sel|t lb elts|p ps body|p np name ps body|names t
         |n0 names t vals|l0 lr tok r0 rr|p name t|p flds|p cs].
  - apply HIdent.
  - apply HStar, IH.
  - apply HSel, IH.
  - apply HComp; [destruct t; simpl; [apply IH|exact I]|apply all].
  - apply HLit; apply all.
  - apply HDecl; [destruct ps; simpl; [apply all|exact I]|apply all].
  - apply HField; [apply all|apply IH].
  - apply HSpec; [apply IH|apply all|destruct t; simpl; [apply IH|exact I]|apply all].
  - apply HAssign; [apply IH|apply all|apply IH|apply all].
  - apply HType, IH.
  - apply HStruct, all.
  - apply HOther, all.
Qed.

(** In every call of the callback the stack ends with the node. *)
Lemma below_node_on_top l stack :
  Forall (λ n, ∀ stack, Forall node_on_top (traverse stack n)) l →
  Forall node_on_top (flat_map (traverse stack) l).
Proof.
  induction 1 as [|n l Hn _ IH]; simpl; [constructor|].
  apply Forall_app. split; [apply Hn|apply IH].
Qed.

Ltac on_top :=
  repeat match goal with
    | |- Forall _ [] => constructor
    | |- Forall _ (_ :: _) => apply Forall_cons; split; [by eexists|]
    | |- Forall _ (_ ++ _) => apply Forall_app; split
    | |- Forall _ (flat_map _ _) => by apply below_node_on_top
    | H : ∀ stack, Forall _ (traverse stack ?X) |- Forall _ (traverse _ ?X) =>
        apply H
    | H : from_option _ True ?t |- Forall _ (match ?t with _ => _ end) =>
        destruct t; simpl in H
    end.

Lemma traverse_node_on_top n :
  ∀ stack, Forall node_on_top (traverse stack n).
Proof.
  induction n using Node_deep_ind; intros stack; simpl; on_top.
Qed.

Lemma events_node_on_top files : Forall node_on_top (events files).
Proof.
  unfold events. induction files as [|f files IH]; simpl; [constructor|].
  apply Forall_app. split; [apply traverse_node_on_top|done].
Qed.

(** The nearest function of a function declaration on top of the stack is
    the declaration itself. *)
Lemma nearestFunction_top below p np name ps body :
  nearestFunction (below ++ [FuncDecl p np name ps body]) =
  Some (FuncDecl p np name ps body).
Proof. unfold nearestFunction. by rewrite rev_unit. Qed.

(** ** Positions are inspected once *)

Lemma inspected_events_fresh seen evs ev :
  ev ∈ inspected_events seen evs → NodePos (ev_node ev) ∉ seen.
Proof.
  revert seen. induction evs as [|ev' evs IH]; intros seen; simpl; [by intros ?%elem_of_nil|].
  case_bool_decide as Hs.
  - apply IH.
  - intros [->|Hin]%elem_of_cons; [done|]. apply IH in Hin. set_solver.
Qed.

Lemma inspected_events_NoDup seen evs :
  NoDup (map (λ ev, NodePos (ev_node ev)) (inspected_events seen evs)).
Proof.
  revert seen. induction evs as [|ev evs IH]; intros seen; simpl; [constructor|].
  case_bool_decide as Hs; [apply IH|]. simpl. constructor; [|apply IH].
  intros (ev' & Heq & Hin)%list_elem_of_fmap.
  apply inspected_events_fresh in Hin. set_solver.
Qed.

Section Properties.

Context {Ty : Type} `{!GoTypes Ty}.
Variable pass : Pass Ty.
Variable graph : Graph.

Abbreviation called := (called pass graph).
Abbreviation live := (live pass graph).
Abbreviation guarded := (guarded pass graph).
Abbreviation searches_return := (searches_return pass graph).

(** ** The liveness filter *)

Lemma visit_functionFound order nf :
  GraphVisitEdges order
    (λ e, Some (if calls pass graph nf e then Some functionFound else None)) =
  Some (if existsb (calls pass graph nf) order then Some functionFound else None).
Proof.
  induction order as [|e order IH]; [done|]. simpl.
  destruct (calls pass graph nf e); [done|]. by rewrite IH.
Qed.

Lemma isFunctionInGraph_existsb order nf :
  isFunctionInGraph pass graph order nf =
  is_main nf || existsb (calls pass graph nf) order.
Proof.
  unfold isFunctionInGraph. rewrite visit_functionFound.
  destruct (is_main nf); [done|]. by destruct (existsb _ order).
Qed.

Lemma isFunctionInGraph_any_order order nf :
  visits graph order →
  isFunctionInGraph pass graph order nf =
  isFunctionInGraph pass graph (all_edges graph) nf.
Proof.
  intros Hv. rewrite !isFunctionInGraph_existsb. f_equal.
  by apply existsb_same_elems.
Qed.

Lemma isFunctionInGraph_true order nf :
  visits graph order →
  isFunctionInGraph pass graph order nf = true ↔
  live nf.
Proof.
  intros Hv. rewrite isFunctionInGraph_existsb, orb_true_iff, existsb_elem.
  change (live nf) with
    (is_main nf = true ∨ ∃ e, e ∈ all_edges graph ∧ calls pass graph nf e = true).
  split; (intros [?|(e & He & Hc)]; [by left|right]);
    exists e; split; try done; by apply Hv.
Qed.

(** ** The check of the lease *)

Lemma checkLease_true fuel order nf :
  checkLease pass graph fuel order nf = Some true →
  ∃ e, e ∈ order ∧ calls pass graph nf e = true ∧ check fuel graph e = Some true.
Proof.
  unfold checkLease. induction order as [|e order IH]; [done|]. simpl.
  destruct (calls pass graph nf e) eqn:Hc.
  - destruct (check fuel graph e) as [[|]|] eqn:Hk; simpl; [| |done].
    + intros _. exists e. split; [left|done].
    + intros H. destruct (IH H) as (e' & ? & ?). exists e'. split; [by right|done].
  - intros H. destruct (IH H) as (e' & ? & ?). exists e'. split; [by right|done].
Qed.

Lemma checkLease_false fuel order nf :
  checkLease pass graph fuel order nf = Some false →
  ∀ e, e ∈ order → calls pass graph nf e = true → check fuel graph e = Some false.
Proof.
  unfold checkLease. induction order as [|e order IH]; [by intros _ e ?%elem_of_nil|].
  simpl. intros H e' He' Hc'. destruct (calls pass graph nf e) eqn:Hc.
  - destruct (check fuel graph e) as [[|]|] eqn:Hk; simpl in H; [done| |done].
    apply elem_of_cons in He' as [->|He']; [done|]. by apply IH.
  - apply elem_of_cons in He' as [->|He']; [congruence|]. by apply IH.
Qed.

Lemma checkLease_returns fuel order nf :
  (∀ e, e ∈ order → calls pass graph nf e = true → is_Some (check fuel graph e)) →
  is_Some (checkLease pass graph fuel order nf).
Proof.
  unfold checkLease. induction order as [|e order IH]; intros Hall; [by eexists|].
  simpl. destruct (calls pass graph nf e) eqn:Hc.
  - destruct (Hall e) as [b Hb]; [left|done|]. rewrite Hb. simpl.
    destruct b; [by eexists|]. apply IH. intros e' He'. apply Hall. by right.
  - apply IH. intros e' He'. apply Hall. by right.
Qed.

Lemma checkLease_more_fuel fuel fuel' order nf b :
  checkLease pass graph fuel order nf = Some b → fuel ≤ fuel' →
  checkLease pass graph fuel' order nf = Some b.
Proof.
  unfold checkLease. intros H Hle. induction order as [|e order IH]; [done|].
  simpl in *. destruct (calls pass graph nf e) eqn:Hc; [|by apply IH].
  destruct (check fuel graph e) as [bk|] eqn:Hk; [|done].
  rewrite (check_more_fuel _ _ _ _ _ Hk Hle). simpl in *.
  destruct bk; [done|]. by apply IH.
Qed.

(** What [checkLease] returns does not depend on the order of the visit. *)
Lemma checkLease_guarded fuel order nf b :
  visits graph order →
  checkLease pass graph fuel order nf = Some b →
  (b = true ↔ guarded nf).
Proof.
  intros Hv H. destruct b.
  - split; [intros _|done]. destruct (checkLease_true _ _ _ H) as (e & He & Hc & Hk).
    exists e. split; [by apply Hv|]. split; [done|]. by exists fuel.
  - split; [done|]. intros (e & He & Hc & Hk).
    assert (check_returns graph e false) as Hk'.
    { exists fuel. apply (checkLease_false _ _ _ H); [by apply Hv|done]. }
    by specialize (check_returns_once _ _ _ _ Hk Hk').
Qed.

Lemma checkLease_total order nf :
  visits graph order → searches_return nf →
  ∃ fuel b, ∀ fuel', fuel ≤ fuel' →
    checkLease pass graph fuel' order nf = Some b.
Proof.
  intros Hv Hs.
  assert (∃ fuel, ∀ e, e ∈ order → calls pass graph nf e = true →
                       is_Some (check fuel graph e)) as [fuel Hfuel].
  { assert (∀ e, e ∈ order → e ∈ all_edges graph) as Hin by (intros; by apply Hv).
    clear Hv. induction order as [|e order IH].
    - exists 0. by intros e ?%elem_of_nil.
    - destruct IH as [f1 Hf1]; [intros; apply Hin; by right|].
      destruct (calls pass graph nf e) eqn:Hc.
      + destruct (Hs e) as (b & f2 & Hf2); [apply Hin; left|done|].
        exists (f1 + f2). intros e' [->|He']%elem_of_cons Hc'.
        * exists b. apply (check_more_fuel _ _ _ _ _ Hf2). lia.
        * destruct (Hf1 e' He' Hc') as [b' Hb']. exists b'.
          apply (check_more_fuel _ _ _ _ _ Hb'). lia.
      + exists f1. intros e' [->|He']%elem_of_cons Hc'; [congruence|by apply Hf1]. }
  destruct (checkLease_returns fuel order nf Hfuel) as [b Hb].
  exists fuel, b. intros fuel' Hle. by apply (checkLease_more_fuel fuel).
Qed.


(** *** Liveness and guardedness by evaluation *)

Lemma visits_all_edges : visits graph (all_edges graph).
Proof. done. Qed.

Lemma live_evaluated nf :
  isFunctionInGraph pass graph (all_edges graph) nf = true ↔ live nf.
Proof. apply isFunctionInGraph_true, visits_all_edges. Qed.

Lemma dead_evaluated nf :
  isFunctionInGraph pass graph (all_edges graph) nf = false → ¬ live nf.
Proof. intros H Hl. apply live_evaluated in Hl. congruence. Qed.

Lemma unguarded_evaluated fuel nf :
  checkLease pass graph fuel (all_edges graph) nf = Some false → ¬ guarded nf.
Proof.
  intros H Hg. by apply (checkLease_guarded _ _ _ _ visits_all_edges H) in Hg.
Qed.

Lemma searches_return_evaluated fuel :
  forallb (λ e, bool_decide (is_Some (check fuel graph e))) (all_edges graph) = true →
  ∀ nf, searches_return nf.
Proof.
  rewrite forallb_forall. intros H nf e He _.
  apply list_elem_of_In, H, bool_decide_eq_true in He as [b Hb]. by exists b, fuel.
Qed.

(** ** The choices of the runtime *)

Section Choices.

Variable critSecTypesByName : gmap string Ty.

Abbreviation permitted := (permitted graph critSecTypesByName).

Lemma plain_permitted : permitted (plain graph critSecTypesByName).
Proof.
  split; [|done]. intros t. simpl. rewrite list_elem_of_fmap. split.
  - intros ([name t'] & -> & Hin). exists name. by apply elem_of_map_to_list.
  - intros [name Hn]. exists (name, t). split; [done|]. by apply elem_of_map_to_list.
Qed.

Lemma found_matched c ct :
  permitted c → found c ct = true ↔ matched critSecTypesByName ct.
Proof.
  intros (Ht & _ & _). unfold found, matched. rewrite existsb_elem. split.
  - intros (t & Hin & Hc). apply Ht in Hin as [name Hn]. eauto.
  - intros (name & t & Hl & Hc). exists t. split; [|done]. apply Ht. eauto.
Qed.

Lemma found_any_order c1 c2 ct :
  permitted c1 → permitted c2 → found c1 ct = found c2 ct.
Proof. intros H1 H2. apply eq_true_iff_eq. by rewrite !found_matched. Qed.

Lemma live_any_order c1 c2 nf :
  permitted c1 → permitted c2 →
  isFunctionInGraph pass graph (live_order c1) nf =
  isFunctionInGraph pass graph (live_order c2) nf.
Proof.
  intros (_ & H1 & _) (_ & H2 & _).
  by rewrite (isFunctionInGraph_any_order _ _ H1), (isFunctionInGraph_any_order _ _ H2).
Qed.

Lemma live_order_live c nf :
  permitted c → isFunctionInGraph pass graph (live_order c) nf = true ↔ live nf.
Proof. intros (_ & H & _). by apply isFunctionInGraph_true. Qed.

Lemma instantiate_any_order c1 c2 n stack name st :
  permitted c1 → permitted c2 →
  instantiate pass graph c1 n stack name st =
  instantiate pass graph c2 n stack name st.
Proof.
  intros H1 H2. unfold instantiate. case_bool_decide; [|done].
  destruct (nearestFunction stack) as [nf|]; [|done].
  by rewrite (live_any_order c1 c2).
Qed.

Lemma switch_any_order c1 c2 n stack st :
  permitted c1 → permitted c2 →
  switch pass graph critSecTypesByName c1 n stack st =
  switch pass graph critSecTypesByName c2 n stack st.
Proof.
  intros H1 H2.
  destruct n as [p s|p X|X sp sel|t lb elts|p ps body|p np name ps body|names t|n0 names t vals|l0 lr tok r0 rr|p name t|p flds|p cs]; simpl; try done.
  - by rewrite (found_any_order c1 c2).
  - destruct ps; [|done]. by rewrite (live_any_order c1 c2).
  - destruct t as [[]|]; try done. by rewrite (instantiate_any_order c1 c2).
  - destruct (String.eqb tok ":=").
    + destruct r0 as [| | |[[]|]| | | | | | | |]; try done.
      by rewrite (instantiate_any_order c1 c2).
    + destruct (last_lhs l0 lr); try done.
      by rewrite (found_any_order c1 c2).
Qed.

(** The outcome [Access] of the [switch] is the access site. *)
Lemma switch_access c n stack st msg :
  permitted c →
  switch pass graph critSecTypesByName c n stack st = Access msg ↔
  access_site pass critSecTypesByName n msg.
Proof.
  intros Hc. split.
  - destruct n as [p s|p X|X sp sel|t lb elts|p ps body|p np name ps body|names t|n0 names t vals|l0 lr tok r0 rr|p name t|p flds|p cs]; simpl; try done.
    + destruct (found c (TypeOf pass X)) eqn:Hf; [|done].
      destruct (String.eqb sel leaseFunction) eqn:Hs; [done|].
      intros [= <-]. constructor; [by apply (found_matched c)|].
      by apply String.eqb_neq.
    + destruct ps; [|done]. destruct (isFunctionInGraph _ _ _ _); [|done].
      by destruct (params_report _ _).
    + by destruct t as [[]|].
    + destruct (String.eqb tok ":=") eqn:Ht.
      * by destruct r0 as [| | |[[]|]| | | | | | | |].
      * destruct (last_lhs l0 lr) as [| |X sp sel| | | | | | | | |] eqn:Hl; try done.
        destruct (found c (TypeOf pass X)) eqn:Hf; [|done].
        intros [= <-]. econstructor; [by apply String.eqb_neq|done|].
        by apply (found_matched c).
  - intros [X p sel Hm Hs|lhs0 LhsRest tok rhs0 RhsRest X p sel Ht Hl Hm]; simpl.
    + apply (found_matched c) in Hm; [|done]. rewrite Hm.
      apply String.eqb_neq in Hs. by rewrite Hs.
    + apply String.eqb_neq in Ht. rewrite Ht, Hl.
      apply (found_matched c) in Hm; [|done]. by rewrite Hm.
Qed.

Lemma check_access_agree c1 c2 f1 f2 n stack msg st s1 s2 :
  permitted c1 → permitted c2 →
  check_access pass graph c1 f1 n stack msg st = Some s1 →
  check_access pass graph c2 f2 n stack msg st = Some s2 →
  s1 = s2.
Proof.
  intros H1 H2. unfold check_access.
  destruct (nearestFunction stack) as [nf|]; [|congruence].
  rewrite (live_any_order c1 c2 nf H1 H2).
  destruct (isFunctionInGraph _ _ _ nf); [|congruence].
  destruct (checkLease pass graph f1 _ nf) as [b1|] eqn:E1; [|done].
  destruct (checkLease pass graph f2 _ nf) as [b2|] eqn:E2; [|done].
  simpl. intros [= <-] [= <-].
  destruct H1 as (_ & _ & V1), H2 as (_ & _ & V2).
  pose proof (checkLease_guarded _ _ _ _ V1 E1) as G1.
  pose proof (checkLease_guarded _ _ _ _ V2 E2) as G2.
  assert (b1 = b2) as ->; [|done].
  destruct b1, b2; try done.
  - assert (true = true) as T by done. apply G1, G2 in T. done.
  - assert (true = true) as T by done. apply G2, G1 in T. done.
Qed.

(** Two calls of the callback on the same event in the same state that
    both return leave the same state. *)
Lemma inspects_once ev st s1 s2 :
  inspects pass graph critSecTypesByName ev st s1 →
  inspects pass graph critSecTypesByName ev st s2 →
  s1 = s2.
Proof.
  intros (c1 & f1 & P1 & I1) (c2 & f2 & P2 & I2). unfold inspect in *.
  case_bool_decide; [congruence|].
  rewrite (switch_any_order c1 c2) in I1 by done.
  destruct (switch _ _ _ c2 _ _ _); [congruence|].
  exact (check_access_agree c1 c2 f1 f2 _ _ _ _ _ _ P1 P2 I1 I2).
Qed.

Lemma walks_once evs st s1 s2 :
  walks pass graph critSecTypesByName evs st s1 →
  walks pass graph critSecTypesByName evs st s2 →
  s1 = s2.
Proof.
  intros W1. revert s2. induction W1 as [|ev evs st st' st'' I1 W1 IH]; intros s2 W2.
  - by inversion W2.
  - inversion W2 as [|? ? ? st2' ? I2 W2']; subst.
    assert (st' = st2') as <- by by eapply inspects_once.
    by apply IH.
Qed.

(** *** What one call changes *)

Lemma instantiate_effect c n stack name st :
  let st' := instantiate pass graph c n stack name st in
  inspectedPos st' = inspectedPos st ∧
  (reports st' = reports st ∨
   reports st' = reports st ++ [mkDiagnostic (NodePos n) msg_multiple]).
Proof.
  unfold instantiate. case_bool_decide; [|by split; [|left]].
  destruct (nearestFunction stack) as [nf|]; [|by split; [|left]].
  destruct (isFunctionInGraph _ _ _ nf); (split; [done|]); [by right|by left].
Qed.

Lemma switch_effect c n stack st st' :
  switch pass graph critSecTypesByName c n stack st = Return st' →
  inspectedPos st' = inspectedPos st ∧
  (reports st' = reports st ∨
   ∃ msg, msg ∈ messages ∧ reports st' = reports st ++ [mkDiagnostic (NodePos n) msg]).
Proof.
  assert (∀ name, Return (instantiate pass graph c n stack name st) = Return st' →
    inspectedPos st' = inspectedPos st ∧
    (reports st' = reports st ∨
     ∃ msg, msg ∈ messages ∧ reports st' = reports st ++ [mkDiagnostic (NodePos n) msg]))
    as Hinst.
  { intros name [= <-]. destruct (instantiate_effect c n stack name st) as [? [?|?]].
    - by split; [|left].
    - split; [done|]. right. exists msg_multiple. split; [|done].
      unfold messages. set_solver. }
  assert (Return st = Return st' →
    inspectedPos st' = inspectedPos st ∧
    (reports st' = reports st ∨
     ∃ msg, msg ∈ messages ∧ reports st' = reports st ++ [mkDiagnostic (NodePos n) msg]))
    as Hsame.
  { intros [= <-]. by split; [|left]. }
  destruct n as [p s|p X|X sp sel|t lb elts|p ps body|p np name ps body|names t|n0 names t vals|l0 lr tok r0 rr|p name t|p flds|p cs];
    simpl; try done.
  - destruct (found c _); [|done]. by destruct (String.eqb sel leaseFunction).
  - destruct ps as [ps|]; [|done]. destruct (isFunctionInGraph _ _ _ _); [|done].
    destruct (params_report _ _); [|done]. intros [= <-]. split; [done|]. right.
    exists msg_param. split; [|done]. unfold messages. set_solver.
  - destruct t as [[]|]; try done. apply Hinst.
  - destruct (String.eqb tok ":=").
    + destruct r0 as [| | |[[]|]| | | | | | | |]; try done. apply Hinst.
    + destruct (last_lhs l0 lr); try done. by destruct (found c _).
Qed.

Lemma check_access_effect c fuel n stack msg st st' :
  check_access pass graph c fuel n stack msg st = Some st' →
  inspectedPos st' = inspectedPos st ∧
  (reports st' = reports st ∨
   reports st' = reports st ++ [mkDiagnostic (NodePos n) msg]).
Proof.
  unfold check_access. destruct (nearestFunction stack) as [nf|].
  - destruct (isFunctionInGraph _ _ _ nf).
    + destruct (checkLease _ _ _ _ nf) as [[|]|]; simpl; [| |done];
        intros [= <-]; (split; [done|]); [by left|by right].
    + intros [= <-]. by split; [|left].
  - intros [= <-]. by split; [|left].
Qed.

(** One call of the callback marks the position of its node and reports
    nothing, or reports one diagnostic at that position, which was not
    marked before. *)
Lemma inspect_effect c fuel ev st st' :
  permitted c →
  inspect pass graph critSecTypesByName c fuel ev st = Some st' →
  inspectedPos st' = {[NodePos (ev_node ev)]} ∪ inspectedPos st ∧
  (reports st' = reports st ∨
   ((NodePos (ev_node ev) ∉ inspectedPos st) ∧
    ∃ msg, msg ∈ messages ∧
           reports st' = reports st ++ [mkDiagnostic (NodePos (ev_node ev)) msg])).
Proof.
  intros Hc. unfold inspect. case_bool_decide as Hseen.
  { intros [= <-]. simpl. split; [set_solver|by left]. }
  destruct (switch _ _ _ _ _ _ _) as [s|msg] eqn:Hsw.
  - intros [= <-]. destruct (switch_effect _ _ _ _ _ Hsw) as [Hi Hr].
    simpl in *. split; [done|]. destruct Hr as [?|?]; [by left|by right].
  - intros Hk. destruct (check_access_effect _ _ _ _ _ _ _ Hk) as [Hi Hr].
    simpl in *. split; [done|]. destruct Hr as [?|Hr]; [by left|]. right.
    split; [done|]. exists msg. split; [|done].
    apply (switch_access c) in Hsw; [|done]. unfold messages.
    destruct Hsw; set_solver.
Qed.

Lemma inspects_effect ev st st' :
  inspects pass graph critSecTypesByName ev st st' →
  inspectedPos st' = {[NodePos (ev_node ev)]} ∪ inspectedPos st ∧
  (reports st' = reports st ∨
   ((NodePos (ev_node ev) ∉ inspectedPos st) ∧
    ∃ msg, msg ∈ messages ∧
           reports st' = reports st ++ [mkDiagnostic (NodePos (ev_node ev)) msg])).
Proof. intros (c & fuel & Hc & Hi). by eapply inspect_effect. Qed.

(** *** What a walk changes *)

Lemma walks_app evs1 evs2 st st'' :
  walks pass graph critSecTypesByName (evs1 ++ evs2) st st'' ↔
  ∃ st', walks pass graph critSecTypesByName evs1 st st' ∧
         walks pass graph critSecTypesByName evs2 st' st''.
Proof.
  revert st. induction evs1 as [|ev evs1 IH]; intros st; simpl.
  - split.
    + intros W. exists st. split; [constructor|done].
    + intros (st' & W1 & W2). by inversion W1; subst.
  - split.
    + intros W. inversion W as [|? ? ? s ? I W']; subst.
      apply IH in W' as (st' & W1 & W2). exists st'. split; [|done].
      by econstructor.
    + intros (st' & W1 & W2). inversion W1 as [|? ? ? s ? I W1']; subst.
      econstructor; [done|]. apply IH. by exists st'.
Qed.

Lemma walks_inspected evs st st' :
  walks pass graph critSecTypesByName evs st st' →
  ∀ p, p ∈ inspectedPos st' ↔
       p ∈ inspectedPos st ∨ ∃ ev, ev ∈ evs ∧ NodePos (ev_node ev) = p.
Proof.
  induction 1 as [st|ev evs st st' st'' I W IH]; intros p.
  - split; [by left|]. by intros [?|(ev & ?%elem_of_nil & _)].
  - destruct (inspects_effect _ _ _ I) as [Hi _]. rewrite IH, Hi. split.
    + intros [[->%elem_of_singleton|?]%elem_of_union|(ev' & ? & ?)].
      * right. exists ev. split; [left|done].
      * by left.
      * right. exists ev'. split; [by right|done].
    + intros [?|(ev' & [->|?]%elem_of_cons & <-)].
      * left. set_solver.
      * left. set_solver.
      * right. by exists ev'.
Qed.

(** A walk reports nothing at a position that is marked before it. *)
Lemma walks_reports_seen evs st st' p :
  walks pass graph critSecTypesByName evs st st' →
  p ∈ inspectedPos st →
  reports_at p (reports st') = reports_at p (reports st).
Proof.
  induction 1 as [st|ev evs st st' st'' I W IH]; intros Hp; [done|].
  destruct (inspects_effect _ _ _ I) as [Hi Hr]. rewrite IH by set_solver.
  destruct Hr as [->|(Hn & msg & _ & ->)]; [done|].
  unfold reports_at. rewrite filter_app, filter_cons, filter_nil. simpl.
  case_decide; [|by rewrite app_nil_r]. congruence.
Qed.

(** A walk reports nothing at a position that none of its events has. *)
Lemma walks_reports_elsewhere evs st st' p :
  walks pass graph critSecTypesByName evs st st' →
  (∀ ev, ev ∈ evs → NodePos (ev_node ev) ≠ p) →
  reports_at p (reports st') = reports_at p (reports st).
Proof.
  induction 1 as [st|ev evs st st' st'' I W IH]; intros Hp; [done|].
  destruct (inspects_effect _ _ _ I) as [Hi Hr].
  rewrite IH by (intros; apply Hp; by right).
  destruct Hr as [->|(Hn & msg & _ & ->)]; [done|].
  unfold reports_at. rewrite filter_app, filter_cons, filter_nil. simpl.
  case_decide as Hd; [|by rewrite app_nil_r]. destruct (Hp ev); [left|done].
Qed.

(** The walk around the first event at a position. *)
Lemma walks_first_at before ev after st st'' :
  walks pass graph critSecTypesByName (before ++ ev :: after) st st'' →
  NodePos (ev_node ev) ∉ inspectedPos st →
  (∀ ev', ev' ∈ before → NodePos (ev_node ev') ≠ NodePos (ev_node ev)) →
  ∃ s1 s2,
    walks pass graph critSecTypesByName before st s1 ∧
    inspects pass graph critSecTypesByName ev s1 s2 ∧
    (NodePos (ev_node ev) ∉ inspectedPos s1) ∧
    reports_at (NodePos (ev_node ev)) (reports s1) =
      reports_at (NodePos (ev_node ev)) (reports st) ∧
    reports_at (NodePos (ev_node ev)) (reports st'') =
      reports_at (NodePos (ev_node ev)) (reports s2).
Proof.
  intros W Hp Hb. apply walks_app in W as (s1 & W1 & W2).
  inversion W2 as [|? ? ? s2 ? I W3]; subst. exists s1, s2.
  split; [done|]. split; [done|]. split; [|split].
  - rewrite (walks_inspected _ _ _ W1). intros [?|(ev' & ? & ?)]; [done|].
    by apply (Hb ev').
  - by apply (walks_reports_elsewhere before).
  - apply (walks_reports_seen _ _ _ _ W3).
    destruct (inspects_effect _ _ _ I) as [-> _]. set_solver.
Qed.

(** *** More fuel *)

Lemma check_access_more_fuel c fuel fuel' n stack msg st st' :
  check_access pass graph c fuel n stack msg st = Some st' → fuel ≤ fuel' →
  check_access pass graph c fuel' n stack msg st = Some st'.
Proof.
  unfold check_access. intros H Hle.
  destruct (nearestFunction stack) as [nf|]; [|done].
  destruct (isFunctionInGraph _ _ _ nf); [|done].
  destruct (checkLease pass graph fuel _ nf) as [b|] eqn:E; [|done].
  by rewrite (checkLease_more_fuel _ _ _ _ _ E Hle).
Qed.

Lemma inspect_more_fuel c fuel fuel' ev st st' :
  inspect pass graph critSecTypesByName c fuel ev st = Some st' → fuel ≤ fuel' →
  inspect pass graph critSecTypesByName c fuel' ev st = Some st'.
Proof.
  unfold inspect. intros H Hle. case_bool_decide; [done|].
  destruct (switch _ _ _ _ _ _ _); [done|]. by eapply check_access_more_fuel.
Qed.

Lemma walk_more_fuel c fuel fuel' evs st st' :
  walk pass graph critSecTypesByName c fuel evs st = Some st' → fuel ≤ fuel' →
  walk pass graph critSecTypesByName c fuel' evs st = Some st'.
Proof.
  intros H Hle. revert st H. induction evs as [|ev evs IH]; intros st H; [done|].
  simpl in *. destruct (inspect _ _ _ _ fuel ev st) as [s|] eqn:E; [|done].
  rewrite (inspect_more_fuel _ _ _ _ _ _ E Hle). simpl in *. by apply IH.
Qed.

Lemma walk_walks c fuel evs st st' :
  permitted c →
  walk pass graph critSecTypesByName c fuel evs st = Some st' →
  walks pass graph critSecTypesByName evs st st'.
Proof.
  intros Hc. revert st. induction evs as [|ev evs IH]; intros st H; simpl in H.
  - injection H as ->. constructor.
  - destruct (inspect _ _ _ _ fuel ev st) as [s|] eqn:E; [|done]. simpl in H.
    econstructor; [|by apply IH]. by exists c, fuel.
Qed.

(** *** Every call returns when the searches do *)

Lemma check_access_total c n stack msg st :
  permitted c → (∀ nf, nearestFunction stack = Some nf → searches_return nf) →
  ∃ fuel, is_Some (check_access pass graph c fuel n stack msg st).
Proof.
  intros (_ & _ & Hv) Hs. unfold check_access.
  destruct (nearestFunction stack) as [nf|]; [|by exists 0].
  destruct (isFunctionInGraph _ _ _ nf); [|by exists 0].
  destruct (checkLease_total (lease_order c) nf Hv (Hs nf eq_refl)) as (fuel & b & Hb).
  exists fuel. rewrite (Hb fuel) by lia. by eexists.
Qed.

Lemma inspect_total c ev st :
  permitted c → (∀ nf, searches_return nf) →
  ∃ fuel, is_Some (inspect pass graph critSecTypesByName c fuel ev st).
Proof.
  intros Hc Hs. unfold inspect. case_bool_decide; [by exists 0|].
  destruct (switch _ _ _ _ _ _ _); [by exists 0|]. apply check_access_total; auto.
Qed.

Lemma walk_total c evs st :
  permitted c → (∀ nf, searches_return nf) →
  ∃ fuel, is_Some (walk pass graph critSecTypesByName c fuel evs st).
Proof.
  intros Hc Hs. revert st. induction evs as [|ev evs IH]; intros st; [by exists 0|].
  destruct (inspect_total c ev st Hc Hs) as (f1 & s & E).
  destruct (IH s) as (f2 & s' & W). exists (f1 + f2). simpl.
  rewrite (inspect_more_fuel _ _ (f1 + f2) _ _ _ E) by lia. simpl.
  rewrite (walk_more_fuel _ _ (f1 + f2) _ _ _ W) by lia. by eexists.
Qed.


(** The diagnostics of a walk lie at positions its events inspect, in the
    order of the events, and carry the messages of the analyzer. *)
Lemma walks_new_reports evs st st' :
  walks pass graph critSecTypesByName evs st st' →
  ∃ new, reports st' = reports st ++ new ∧
         map DPos new `sublist_of`
           map (λ ev, NodePos (ev_node ev)) (inspected_events (inspectedPos st) evs) ∧
         ∀ d, d ∈ new → Message d ∈ messages.
Proof.
  induction 1 as [st|ev evs st st' st'' I W (new2 & Hr2 & Hs2 & Hm2)].
  { exists []. rewrite app_nil_r. split; [done|]. split; [constructor|].
    by intros d ?%elem_of_nil. }
  destruct (inspects_effect _ _ _ I) as [Hi Hr]. simpl.
  case_bool_decide as Hseen.
  - assert (inspectedPos st' = inspectedPos st) as Hsame by set_solver.
    destruct Hr as [Hr|[? _]]; [|done]. exists new2. rewrite Hr2, Hr.
    split; [done|]. split; [by rewrite <-Hsame|done].
  - rewrite Hi in Hs2. destruct Hr as [Hr|(_ & msg & Hmsg & Hr)].
    + exists new2. rewrite Hr2, Hr. split; [done|]. split; [|done].
      simpl. by apply sublist_cons.
    + exists (mkDiagnostic (NodePos (ev_node ev)) msg :: new2).
      rewrite Hr2, Hr, <-app_assoc. split; [done|]. split.
      * simpl. by apply sublist_skip.
      * intros d [->|?]%elem_of_cons; [done|by apply Hm2].
Qed.

(** *** A search that does not return *)

Lemma checkLease_never_returns order nf e :
  visits graph order →
  e ∈ all_edges graph → calls pass graph nf e = true →
  (∀ fuel, check fuel graph e = None) →
  ¬ guarded nf →
  ∀ fuel, checkLease pass graph fuel order nf = None.
Proof.
  intros Hv He Hc Hnone Hg fuel.
  destruct (checkLease pass graph fuel order nf) as [[|]|] eqn:Hk; [| |done].
  - destruct Hg. by apply (checkLease_guarded _ _ _ _ Hv Hk).
  - pose proof (checkLease_false _ _ _ Hk e) as Hf.
    rewrite Hnone in Hf. by specialize (Hf (proj2 (Hv e) He) Hc).
Qed.

Lemma inspect_never_returns c ev st msg nf e :
  permitted c →
  NodePos (ev_node ev) ∉ inspectedPos st →
  access_site pass critSecTypesByName (ev_node ev) msg →
  nearestFunction (ev_stack ev) = Some nf → live nf →
  e ∈ all_edges graph → calls pass graph nf e = true →
  (∀ fuel, check fuel graph e = None) →
  ¬ guarded nf →
  ∀ fuel, inspect pass graph critSecTypesByName c fuel ev st = None.
Proof.
  intros Hc Hp Hsite Hnf Hlive He Hcalls Hnone Hg fuel.
  unfold inspect, check_access. rewrite bool_decide_false by done.
  rewrite (proj2 (switch_access c _ _ _ msg Hc) Hsite), Hnf.
  rewrite (proj2 (live_order_live c nf Hc) Hlive).
  destruct Hc as (_ & _ & Hv).
  by rewrite (checkLease_never_returns _ nf e Hv He Hcalls Hnone Hg).
Qed.

Lemma walks_never_return before ev after st msg nf e :
  NodePos (ev_node ev) ∉ inspectedPos st →
  (∀ ev', ev' ∈ before → NodePos (ev_node ev') ≠ NodePos (ev_node ev)) →
  access_site pass critSecTypesByName (ev_node ev) msg →
  nearestFunction (ev_stack ev) = Some nf → live nf →
  e ∈ all_edges graph → calls pass graph nf e = true →
  (∀ fuel, check fuel graph e = None) →
  ¬ guarded nf →
  ∀ st', ¬ walks pass graph critSecTypesByName (before ++ ev :: after) st st'.
Proof.
  intros Hp Hbefore Hsite Hnf Hlive He Hcalls Hnone Hg st' W.
  destruct (walks_first_at _ _ _ _ _ W Hp Hbefore)
    as (s1 & s2 & _ & (c & fuel & Hc & I) & Hp1 & _).
  by rewrite (inspect_never_returns c ev s1 msg nf e) in I.
Qed.

(** *** A walk under one choice *)

Lemma walk_app c fuel evs1 evs2 st :
  walk pass graph critSecTypesByName c fuel (evs1 ++ evs2) st =
  (s ← walk pass graph critSecTypesByName c fuel evs1 st;
   walk pass graph critSecTypesByName c fuel evs2 s).
Proof.
  revert st. induction evs1 as [|ev evs1 IH]; intros st; [done|]. simpl.
  destruct (inspect _ _ _ _ _ ev st); [apply IH|done].
Qed.

Lemma inspect_stuck c fuel ev st msg nf :
  permitted c →
  NodePos (ev_node ev) ∉ inspectedPos st →
  access_site pass critSecTypesByName (ev_node ev) msg →
  nearestFunction (ev_stack ev) = Some nf → live nf →
  checkLease pass graph fuel (lease_order c) nf = None →
  inspect pass graph critSecTypesByName c fuel ev st = None.
Proof.
  intros Hc Hp Hsite Hnf Hlive Hk.
  unfold inspect, check_access. rewrite bool_decide_false by done.
  rewrite (proj2 (switch_access c _ _ _ msg Hc) Hsite), Hnf.
  by rewrite (proj2 (live_order_live c nf Hc) Hlive), Hk.
Qed.

Lemma walk_stuck c fuel before ev after st msg nf :
  permitted c →
  NodePos (ev_node ev) ∉ inspectedPos st →
  (∀ ev', ev' ∈ before → NodePos (ev_node ev') ≠ NodePos (ev_node ev)) →
  access_site pass critSecTypesByName (ev_node ev) msg →
  nearestFunction (ev_stack ev) = Some nf → live nf →
  checkLease pass graph fuel (lease_order c) nf = None →
  walk pass graph critSecTypesByName c fuel (before ++ ev :: after) st = None.
Proof.
  intros Hc Hp Hbefore Hsite Hnf Hlive Hk. rewrite walk_app.
  destruct (walk _ _ _ c fuel before st) as [s1|] eqn:W; [|done]. simpl.
  rewrite (inspect_stuck c fuel ev s1 msg nf); try done.
  rewrite (walks_inspected _ _ _ (walk_walks _ _ _ _ _ Hc W)).
  intros [?|(ev' & ? & ?)]; [done|]. by apply (Hbefore ev').
Qed.

End Choices.

(** ** Runs *)

Lemma analyses_once f ds1 ds2 :
  analyses pass graph f ds1 → analyses pass graph f ds2 → ds1 = ds2.
Proof.
  intros (s1 & W1 & <-) (s2 & W2 & <-). by rewrite (walks_once _ _ _ _ _ W1 W2).
Qed.

Lemma runs_over_once fs ds1 ds2 :
  runs_over pass graph fs ds1 → runs_over pass graph fs ds2 → ds1 = ds2.
Proof.
  intros R1. revert ds2. induction R1 as [|f fs ds ds' A R IH]; intros ds2 R2.
  - by inversion R2.
  - inversion R2 as [|? ? es es' A2 R2']; subst.
    by rewrite (analyses_once _ _ _ A A2), (IH _ R2').
Qed.

Lemma run_over_runs fuel fs ds :
  run_over pass graph fuel fs = Some ds → runs_over pass graph fs ds.
Proof.
  revert ds. induction fs as [|f fs IH]; intros ds; simpl.
  - intros [= <-]. constructor.
  - unfold run_file.
    destruct (walk _ _ _ _ _ _ _) as [st|] eqn:W; [|done]. simpl.
    destruct (run_over _ _ _ fs) as [ds'|]; [|done]. simpl. intros [= <-].
    constructor; [|by apply IH]. exists st. split; [|done].
    eapply walk_walks; [apply plain_permitted|done].
Qed.

Lemma run_over_more_fuel fuel fuel' fs ds :
  run_over pass graph fuel fs = Some ds → fuel ≤ fuel' →
  run_over pass graph fuel' fs = Some ds.
Proof.
  intros H Hle. revert ds H. induction fs as [|f fs IH]; intros ds; [done|].
  simpl. unfold run_file.
  destruct (walk _ _ _ _ fuel _ _) as [st|] eqn:W; [|done].
  rewrite (walk_more_fuel _ _ _ _ _ _ _ W Hle). simpl.
  destruct (run_over _ _ fuel fs) as [ds'|]; [|done].
  by rewrite (IH ds' eq_refl).
Qed.

Lemma run_over_total fs :
  (∀ nf, searches_return nf) → ∃ fuel, is_Some (run_over pass graph fuel fs).
Proof.
  intros Hs. induction fs as [|f fs (f2 & ds' & R)]; [by exists 0|].
  destruct (walk_total (catalog pass f) (plain graph (catalog pass f))
              (events (Files pass)) initial (plain_permitted _) Hs) as (f1 & st & W).
  exists (f1 + f2). simpl. unfold run_file.
  rewrite (walk_more_fuel _ _ _ (f1 + f2) _ _ _ W) by lia. simpl.
  rewrite (run_over_more_fuel _ (f1 + f2) _ _ R) by lia. by eexists.
Qed.

End Properties.

(** * The claims *)

Section Claims.

Context {Ty : Type} `{!GoTypes Ty}.
Variable pass : Pass Ty.
Variable graph : Graph.

Abbreviation live := (live pass graph).
Abbreviation guarded := (guarded pass graph).
Abbreviation searches_return := (searches_return pass graph).

(** ** The lease-reachability check *)

(** C1, as the analyzer has it: an access site that the walk inspects
    (no node visited before it starts at its position) and whose nearest function
    [nf] is live is guarded if and only if one of the searches that start at
    the edges of the call graph whose callee lies at the position of [nf]
    reaches the lease function.  A call of the callback that returns reports
    nothing when the site is guarded, and exactly one diagnostic, at the
    position of the site and with the message of its kind, when it is not.
    The call returns, for every order of the visit and every depth from some
    depth on, when the searches from these edges return. *)
Theorem lease_check_classifies cat c ev st msg nf :
  permitted graph cat c →
  NodePos (ev_node ev) ∉ inspectedPos st →
  access_site pass cat (ev_node ev) msg →
  nearestFunction (ev_stack ev) = Some nf →
  live nf →
  (∀ fuel st', inspect pass graph cat c fuel ev st = Some st' →
     (guarded nf ∧ reports st' = reports st) ∨
     (¬ guarded nf ∧
      reports st' = reports st ++ [mkDiagnostic (NodePos (ev_node ev)) msg])) ∧
  (searches_return nf →
   ∃ fuel st',
     (∀ fuel', fuel ≤ fuel' → inspect pass graph cat c fuel' ev st = Some st') ∧
     ((guarded nf ∧ reports st' = reports st) ∨
      (¬ guarded nf ∧
       reports st' = reports st ++ [mkDiagnostic (NodePos (ev_node ev)) msg]))).
Proof.
  intros Hc Hp Hsite Hnf Hlive.
  assert (Hsw : switch pass graph cat c (ev_node ev) (ev_stack ev)
                  (mark (NodePos (ev_node ev)) st) = Access msg)
    by by apply switch_access.
  apply (live_order_live pass graph cat c) in Hlive; [|done].
  unfold inspect, check_access. rewrite bool_decide_false by done.
  rewrite Hsw, Hnf, Hlive. destruct Hc as (_ & _ & Hv).
  assert (∀ fuel st',
            (ok ← checkLease pass graph fuel (lease_order c) nf;
             Some (if ok : bool then mark (NodePos (ev_node ev)) st
                   else Reportf (NodePos (ev_node ev)) msg
                          (mark (NodePos (ev_node ev)) st))) = Some st' →
            (guarded nf ∧ reports st' = reports st) ∨
            (¬ guarded nf ∧
             reports st' = reports st ++ [mkDiagnostic (NodePos (ev_node ev)) msg]))
    as Hpartial.
  { intros fuel st'.
    destruct (checkLease _ _ _ _ nf) as [b|] eqn:Hk; [|done]. simpl.
    pose proof (checkLease_guarded _ _ _ _ _ _ Hv Hk) as Hg.
    intros [= <-]. destruct b.
    - left. split; [by apply Hg|done].
    - right. split; [|done]. intros Hg'. by apply Hg in Hg'. }
  split; [done|]. intros Hs.
  destruct (checkLease_total pass graph _ nf Hv Hs) as (fuel & b & Hb).
  exists fuel. eexists. split.
  - intros fuel' Hle. rewrite (Hb fuel' Hle). simpl. reflexivity.
  - apply (Hpartial fuel). by rewrite (Hb fuel).
Qed.

(** C2: the search from an edge succeeds exactly when the caller of the
    edge is named like the lease function; otherwise it goes on from the
    first incoming edge of the caller, and from that edge only; and it fails
    when the caller has no incoming edge.  The other incoming edges play no
    part: two graphs with the same names and the same first incoming edges
    give the same result. *)
Theorem caller_walk_first_predecessor g e :
  (∀ b, check_returns g e b ↔
     (names_lease g e = true ∧ b = true) ∨
     (names_lease g e = false ∧
      ((∃ inn rest, In (node g (Caller e)) = inn :: rest ∧ check_returns g inn b)
       ∨ (In (node g (Caller e)) = [] ∧ b = false)))) ∧
  (∀ g',
     (∀ r, Name (Func (node g' r)) = Name (Func (node g r)) ∧
           head (In (node g' r)) = head (In (node g r))) →
     ∀ fuel, check fuel g' e = check fuel g e).
Proof.
  split; [intros b; apply check_returns_step|].
  intros g' Hsame fuel. revert e. induction fuel as [|fuel IH]; intros e; [done|].
  simpl. unfold names_lease. destruct (Hsame (Caller e)) as [-> Hhead].
  destruct (String.eqb _ leaseFunction); [done|].
  destruct (In (node g' (Caller e))) as [|i' r'], (In (node g (Caller e))) as [|i r];
    simpl in Hhead; try done.
  injection Hhead as ->. apply IH.
Qed.

(** ** The liveness filter *)

Lemma instantiate_nearest (c : Choice Ty) n stack stack' name st :
  nearestFunction stack = nearestFunction stack' →
  instantiate pass graph c n stack name st =
  instantiate pass graph c n stack' name st.
Proof. unfold instantiate. by intros ->. Qed.

(** The callback reads the stack through [nearestFunction] only. *)
Lemma inspect_nearest cat c fuel n push stack stack' st :
  nearestFunction stack = nearestFunction stack' →
  inspect pass graph cat c fuel (mkEvent n push stack) st =
  inspect pass graph cat c fuel (mkEvent n push stack') st.
Proof.
  intros Hnf. unfold inspect. simpl. case_bool_decide; [done|].
  assert (∀ s, switch pass graph cat c n stack s =
               switch pass graph cat c n stack' s) as ->.
  { intros s.
    destruct n as [p s0|p X|X sp sel|t lb elts|p ps body|p np name ps body
                  |names t|n0 names t vals|l0 lr tok r0 rr|p name t|p flds|p cs];
      simpl; try done.
    - destruct t as [[]|]; try done. by rewrite (instantiate_nearest _ _ _ stack').
    - destruct (String.eqb tok ":="); [|done].
      destruct r0 as [| | |[[]|]| | | | | | | |]; try done.
      by rewrite (instantiate_nearest _ _ _ stack'). }
  destruct (switch _ _ _ _ _ _ _); [done|].
  unfold check_access. by rewrite Hnf.
Qed.

(** C3, as the analyzer has it: [isFunctionInGraph] answers [true] exactly
    for a function declaration named main and for a function that some edge
    of the call graph has as its callee; in a walk of the files, a call of
    the callback whose nearest function, a declaration or a literal, is not
    live returns without a diagnostic, whatever the node is; and the
    callback reads the stack through [nearestFunction] only, so what
    encloses the nearest function, live or not, plays no part in what a
    call reports. *)
Theorem liveness_filter :
  (∀ order nf, visits graph order →
     (isFunctionInGraph pass graph order nf = true ↔
      is_main nf = true ∨ called pass graph nf)) ∧
  (∀ cat c fuel ev st nf,
     permitted graph cat c → ev ∈ events (Files pass) →
     nearestFunction (ev_stack ev) = Some nf → ¬ live nf →
     ∃ st', inspect pass graph cat c fuel ev st = Some st' ∧
            reports st' = reports st) ∧
  (∀ cat c fuel n push stack stack' st,
     nearestFunction stack = nearestFunction stack' →
     inspect pass graph cat c fuel (mkEvent n push stack) st =
     inspect pass graph cat c fuel (mkEvent n push stack') st).
Proof.
  split; [intros order nf Hv; by apply isFunctionInGraph_true|].
  split; [|apply inspect_nearest].
  intros cat c fuel ev st nf Hc Hev Hnf Hdead.
  assert (isFunctionInGraph pass graph (live_order c) nf = false) as Hl.
  { apply not_true_is_false. by rewrite (live_order_live pass graph cat c). }
  assert (node_on_top ev) as [below Htop].
  { pose proof (events_node_on_top (Files pass)) as Hall.
    rewrite Forall_forall in Hall. by apply Hall. }
  unfold inspect. case_bool_decide; [by eexists|].
  destruct ev as [n push stack]. simpl in *.
  destruct n as [p s|p X|X sp sel|t lb elts|p ps body|p np name ps body|names t
                |n0 names t vals|l0 lr tok r0 rr|p name t|p flds|p cs];
    simpl; try by eexists.
  - destruct (found c _); [|by eexists].
    destruct (String.eqb sel leaseFunction); [by eexists|].
    unfold check_access. rewrite Hnf, Hl. by eexists.
  - rewrite Htop, nearestFunction_top in Hnf. injection Hnf as <-.
    destruct ps; [|by eexists]. rewrite Hl. by eexists.
  - destruct t as [[]|]; try by eexists.
    unfold instantiate. case_bool_decide; [|by eexists].
    rewrite Hnf, Hl. by eexists.
  - destruct (String.eqb tok ":=").
    + destruct r0 as [| | |[[]|]| | | | | | | |]; try by eexists.
      unfold instantiate. case_bool_decide; [|by eexists].
      rewrite Hnf, Hl. by eexists.
    + destruct (last_lhs l0 lr); try by eexists.
      destruct (found c _); [|by eexists].
      unfold check_access. rewrite Hnf, Hl. by eexists.
Qed.

(** ** The scanner *)

Lemma params_report_guarded (cat : gmap string Ty) before param after :
  guarded_param cat param →
  Forall (λ q, ¬ pointer_to_other q) before →
  params_report cat (before ++ param :: after) = true.
Proof.
  intros Hparam Hbefore. induction Hbefore as [|q before Hq _ IH]; simpl.
  - destruct Hparam as [names p name Hin|names star p name Hin];
      by rewrite bool_decide_true.
  - destruct q as [| | | | | |names [| p [] | | | | | | | | | |]| | | | |];
      try done; try (by case_bool_decide);
      destruct Hq; eexists _, _, _; (split; [done|]); done.
Qed.

(** C4, as the analyzer has it: a live function declaration whose
    position the walk has not inspected and whose parameter list has a
    parameter of a cataloged type or of a pointer to one, after parameters
    none of which is a pointer to something else than a name, gets exactly
    one diagnostic at its position, with the message [msg_param], from the
    call of the callback on the declaration, whatever its body is.  The walk
    then goes on through the rest of the declaration, the body included, and
    leaves that diagnostic the only one at the position. *)
Theorem parameter_reported_once cat stack p np name before param after body st :
  guarded_param cat param →
  Forall (λ q, ¬ pointer_to_other q) before →
  live (FuncDecl p np name (Some (before ++ param :: after)) body) →
  p ∉ inspectedPos st →
  (∀ c fuel, permitted graph cat c →
     ∃ st',
       inspect pass graph cat c fuel
         (mkEvent (FuncDecl p np name (Some (before ++ param :: after)) body) true
            (stack ++ [FuncDecl p np name (Some (before ++ param :: after)) body]))
         st = Some st' ∧
       reports st' = reports st ++ [mkDiagnostic p msg_param]) ∧
  (∀ ev, ev ∈ flat_map
           (traverse (stack ++ [FuncDecl p np name
                                  (Some (before ++ param :: after)) body])) body →
         ev ∈ traverse stack
                (FuncDecl p np name (Some (before ++ param :: after)) body)) ∧
  (∀ st'',
     walks pass graph cat
       (traverse stack (FuncDecl p np name (Some (before ++ param :: after)) body))
       st st'' →
     reports_at p (reports st'') =
       reports_at p (reports st) ++ [mkDiagnostic p msg_param]).
Proof.
  intros Hparam Hbefore Hlive Hp.
  assert (∀ c fuel, permitted graph cat c →
     ∃ st',
       inspect pass graph cat c fuel
         (mkEvent (FuncDecl p np name (Some (before ++ param :: after)) body) true
            (stack ++ [FuncDecl p np name (Some (before ++ param :: after)) body]))
         st = Some st' ∧
       reports st' = reports st ++ [mkDiagnostic p msg_param]) as Hstep.
  { intros c fuel Hc. unfold inspect. simpl. rewrite bool_decide_false by done.
    apply (live_order_live pass graph cat c) in Hlive; [|done].
    rewrite Hlive, (params_report_guarded _ _ _ _ Hparam Hbefore). by eexists. }
  split; [done|]. split.
  - intros ev Hev. simpl. set_solver.
  - intros st'' W. simpl in W. inversion W as [|? ? ? st' ? I W']; subst.
    rewrite (walks_reports_seen pass graph cat _ _ _ p W').
    + destruct I as (c & fuel & Hc & I). destruct (Hstep c fuel Hc) as (s & Hs & Hr).
      rewrite Hs in I. injection I as <-. rewrite Hr. unfold reports_at.
      by rewrite filter_app, filter_cons, filter_nil, decide_True.
    + destruct (inspects_effect pass graph cat _ _ _ I) as [-> _]. set_solver.
Qed.

(** C5, as the analyzer has it: the instantiation of a cataloged type
    whose position the walk has not inspected is recorded under the name of
    the type, whether the code around it is live or not.  When the name is
    recorded already, exactly one diagnostic with the message
    [msg_multiple] is reported at the instantiation if its nearest function
    is live, and none if it is not live or if there is no such function;
    when the name is new, nothing is reported. *)
Theorem instantiation_recorded cat c fuel ev st name :
  permitted graph cat c →
  is_Some (cat !! name) →
  NodePos (ev_node ev) ∉ inspectedPos st →
  instantiation (ev_node ev) name →
  ∃ st',
    inspect pass graph cat c fuel ev st = Some st' ∧
    name ∈ critSecTypesUsed st' ∧
    (name ∉ critSecTypesUsed st → reports st' = reports st) ∧
    (name ∈ critSecTypesUsed st →
     (∃ nf, nearestFunction (ev_stack ev) = Some nf ∧ live nf) →
     reports st' =
       reports st ++ [mkDiagnostic (NodePos (ev_node ev)) msg_multiple]) ∧
    (name ∈ critSecTypesUsed st →
     ¬ (∃ nf, nearestFunction (ev_stack ev) = Some nf ∧ live nf) →
     reports st' = reports st).
Proof.
  intros Hc _ Hp Hinst.
  exists (instantiate pass graph c (ev_node ev) (ev_stack ev) name
            (mark (NodePos (ev_node ev)) st)).
  split.
  { unfold inspect. rewrite bool_decide_false by done.
    destruct Hinst; simpl; done. }
  unfold instantiate. simpl. case_bool_decide as Hused; simpl in Hused.
  - destruct (nearestFunction (ev_stack ev)) as [nf|] eqn:Hnf.
    + destruct (isFunctionInGraph _ _ _ nf) eqn:Hl; simpl.
      * repeat split; try done.
        intros _ []. exists nf. split; [done|].
        by apply (live_order_live pass graph cat c).
      * repeat split; try done.
        intros _ (nf' & [= <-] & Hl').
        apply (live_order_live pass graph cat c) in Hl'; [congruence|done].
    + repeat split; try done. by intros _ (nf' & ? & _).
  - simpl. split; [set_solver|]. repeat split; done.
Qed.

(** C6, as the analyzer has it: an assignment is a write access exactly
    when it is not a short variable declaration and its last target is a
    field selection on a matched type, whatever the name of the field; the
    other targets play no part. *)
Theorem write_site_is_last_target cat c l0 lr tok r0 rr stack st :
  permitted graph cat c →
  (switch pass graph cat c (AssignStmt l0 lr tok r0 rr) stack st = Access msg_assign ↔
   tok ≠ ":=" ∧
   ∃ X p sel, last_lhs l0 lr = SelectorExpr X p sel ∧ matched cat (TypeOf pass X)) ∧
  (∀ msg, switch pass graph cat c (AssignStmt l0 lr tok r0 rr) stack st = Access msg →
          msg = msg_assign).
Proof.
  intros Hc. split.
  - rewrite (switch_access pass graph cat c) by done. split.
    + intros Hs. inversion Hs; subst. split; [done|]. eauto.
    + intros (Ht & X & p & sel & Hl & Hm). by econstructor.
  - intros msg Hs. apply (switch_access pass graph cat c) in Hs; [|done].
    by inversion Hs.
Qed.

(** C7, as the analyzer has it: in one walk the callback goes past its
    test of [inspectedPos] at most once for each position, whether the
    events that share the position belong to one node or to several; the
    diagnostics of the walk lie at positions inspected in it, so that each
    position has at most one.  An access site that is the first event of
    the walk at its position, whose nearest function is live and which is
    not guarded has exactly one diagnostic, with the message of its kind. *)
Theorem positions_inspected_once cat evs st st' :
  walks pass graph cat evs st st' →
  NoDup (map (λ ev, NodePos (ev_node ev)) (inspected_events (inspectedPos st) evs)) ∧
  ∃ new,
    reports st' = reports st ++ new ∧
    map DPos new `sublist_of`
      map (λ ev, NodePos (ev_node ev)) (inspected_events (inspectedPos st) evs) ∧
    NoDup (map DPos new) ∧
    (∀ before ev after msg nf,
       evs = before ++ ev :: after →
       NodePos (ev_node ev) ∉ inspectedPos st →
       (∀ ev', ev' ∈ before → NodePos (ev_node ev') ≠ NodePos (ev_node ev)) →
       access_site pass cat (ev_node ev) msg →
       nearestFunction (ev_stack ev) = Some nf → live nf → ¬ guarded nf →
       reports_at (NodePos (ev_node ev)) new =
         [mkDiagnostic (NodePos (ev_node ev)) msg]).
Proof.
  intros W. split; [apply inspected_events_NoDup|].
  destruct (walks_new_reports pass graph cat _ _ _ W) as (new & Hr & Hsub & _).
  exists new. split; [done|]. split; [done|]. split.
  { eapply sublist_NoDup; [apply inspected_events_NoDup|exact Hsub]. }
  intros before ev after msg nf -> Hp Hbefore Hsite Hnf Hlive Hg.
  destruct (walks_first_at pass graph cat _ _ _ _ _ W Hp Hbefore)
    as (s1 & s2 & W1 & I & Hp1 & Hr1 & Hr2).
  assert (reports s2 = reports s1 ++ [mkDiagnostic (NodePos (ev_node ev)) msg]) as Hs2.
  { destruct I as (c & fuel & Hc & I).
    assert (Hsw : switch pass graph cat c (ev_node ev) (ev_stack ev)
                    (mark (NodePos (ev_node ev)) s1) = Access msg)
      by by apply switch_access.
    apply (live_order_live pass graph cat c) in Hlive; [|done].
    unfold inspect, check_access in I. rewrite bool_decide_false in I by done.
    rewrite Hsw, Hnf, Hlive in I. destruct Hc as (_ & _ & Hv).
    destruct (checkLease _ _ _ _ nf) as [b|] eqn:Hk; [|done]. simpl in I.
    injection I as <-. destruct b; [|done].
    destruct Hg. by apply (checkLease_guarded _ _ _ _ _ _ Hv Hk). }
  rewrite Hr, Hs2 in Hr2. unfold reports_at in *.
  rewrite !filter_app, Hr1, filter_cons, filter_nil, decide_True in Hr2 by done.
  by apply app_inv_head in Hr2.
Qed.

(** ** The diagnostics *)

(** C8, as the analyzer has it: every diagnostic of a run carries one of
    the four messages of the analyzer, which name [crit.Section] and
    [Lease]; the four are different from one another. *)
Theorem diagnostics_carry_the_messages ds :
  runs pass graph ds →
  (∀ d, d ∈ ds → Message d ∈ messages) ∧ NoDup messages.
Proof.
  intros R. split; [|compute_done].
  unfold runs in R. induction R as [|f fs ds ds' (st & W & <-) R IH].
  - by intros d ?%elem_of_nil.
  - destruct (walks_new_reports pass graph _ _ _ _ W) as (new & Hr & _ & Hm).
    rewrite Hr. simpl. intros d [?|?]%elem_of_app; auto.
Qed.

(** From the call graph on, the analyzer is determined: on the same files
    and types and the same call graph, the same down to the order of the
    incoming edges of every node, two walks of the loop over the files that
    return report the same diagnostics in the same order, whatever orders the
    runtime chooses for its iterations over the maps.  When every search
    returns, every call of the callback returns under every choice of the
    runtime, and so does the loop.  The analyzer builds the call graph anew
    in every run; what two builds may differ in is outside this. *)
Theorem run_is_determined_by_the_call_graph :
  (∀ ds1 ds2, runs pass graph ds1 → runs pass graph ds2 → ds1 = ds2) ∧
  ((∀ nf, searches_return nf) →
   (∀ cat c ev st, permitted graph cat c →
      ∃ fuel st', inspect pass graph cat c fuel ev st = Some st') ∧
   (∃ fuel ds, runs pass graph ds ∧
               ∀ fuel', fuel ≤ fuel' → run pass graph fuel' = Some ds)).
Proof.
  split; [apply runs_over_once|]. intros Hs. split.
  - intros cat c ev st Hc.
    destruct (inspect_total pass graph cat c ev st Hc Hs) as (fuel & st' & Hi).
    by exists fuel, st'.
  - destruct (run_over_total pass graph (Files pass) Hs) as (fuel & ds & R).
    exists fuel, ds. split; [by eapply run_over_runs|].
    intros fuel' Hle. by apply (run_over_more_fuel pass graph fuel).
Qed.

End Claims.

(** * The claims on the example programs *)

(** ** The program of the repository *)

(** The analyzer reports on example/example.go what the README of the
    repository shows: the parameter of [used], the assignment in its body,
    the assignment in the second goroutine, the two accesses in [main] and
    the second instance in [subtask]. *)
Lemma example_run :
  run example.pass example.graph 3 =
  Some [mkDiagnostic (at_ 27 1) msg_param;
        mkDiagnostic (at_ 28 2) msg_assign;
        mkDiagnostic (at_ 47 4) msg_assign;
        mkDiagnostic (at_ 55 2) msg_assign;
        mkDiagnostic (at_ 56 6) msg_access;
        mkDiagnostic (at_ 67 6) msg_multiple].
Proof. by vm_compute. Qed.

Lemma example_catalog :
  catalog example.pass example.file !! "critSectionExample" = Some guarded_struct.
Proof. by vm_compute. Qed.

Lemma example_walk :
  ∃ st, walks example.pass example.graph (catalog example.pass example.file)
          (events [example.file]) initial st.
Proof.
  eexists. eapply (walk_walks _ _ _ _ 3); [apply plain_permitted|].
  vm_compute. reflexivity.
Qed.

Lemma example_write_is_site :
  access_site example.pass (catalog example.pass example.file)
    (ev_node example.write_in_main) msg_assign.
Proof.
  eapply site_write; [done|reflexivity|].
  exists "critSectionExample", guarded_struct. split; [apply example_catalog|done].
Qed.

Lemma example_searches_return nf :
  searches_return example.pass example.graph nf.
Proof. by apply (searches_return_evaluated _ _ 3). Qed.

(** The check of the lease at the assignment of line 55. *)
Lemma lease_check_witness :
  (∀ fuel st',
     inspect example.pass example.graph (catalog example.pass example.file)
       (plain example.graph (catalog example.pass example.file)) fuel
       example.write_in_main initial = Some st' →
     (guarded example.pass example.graph example.main ∧
      reports st' = reports initial) ∨
     (¬ guarded example.pass example.graph example.main ∧
      reports st' = reports initial ++ [mkDiagnostic (at_ 55 2) msg_assign])) ∧
  (searches_return example.pass example.graph example.main →
   ∃ fuel st',
     (∀ fuel', fuel ≤ fuel' →
        inspect example.pass example.graph (catalog example.pass example.file)
          (plain example.graph (catalog example.pass example.file)) fuel'
          example.write_in_main initial = Some st') ∧
     ((guarded example.pass example.graph example.main ∧
       reports st' = reports initial) ∨
      (¬ guarded example.pass example.graph example.main ∧
       reports st' = reports initial ++ [mkDiagnostic (at_ 55 2) msg_assign]))).
Proof.
  apply (lease_check_classifies example.pass example.graph _ _
           example.write_in_main initial msg_assign example.main).
  - apply plain_permitted.
  - apply not_elem_of_empty.
  - apply example_write_is_site.
  - reflexivity.
  - left. reflexivity.
Defined.

(** ** The caller walk *)

(** In [two_callers.main_first] the search from the call of [helper] fails,
    although [Lease] calls [worker]: the first incoming edge of [worker]
    comes from [main].  With the incoming edges in the other order the
    search succeeds. *)
Lemma first_predecessor_decides :
  check 3 two_callers.main_first
    (mkEdge two_callers.n_worker two_callers.n_helper) = Some false ∧
  check 3 two_callers.lease_first
    (mkEdge two_callers.n_worker two_callers.n_helper) = Some true.
Proof. by vm_compute. Qed.

Lemma caller_walk_witness :
  check_returns two_callers.main_first
    (mkEdge two_callers.n_main two_callers.n_worker) false.
Proof.
  apply (proj1 (caller_walk_first_predecessor two_callers.main_first
                  (mkEdge two_callers.n_main two_callers.n_worker))).
  right. split; [reflexivity|]. right. split; reflexivity.
Defined.

Lemma recursion_chain k :
  walk_edge recursion.graph k recursion.call_from_count =
  Some recursion.call_from_count.
Proof. induction k as [|k IH]; [done|]. exact IH. Qed.

Lemma recursion_check_never_returns fuel :
  check fuel recursion.graph recursion.call_from_count = None.
Proof.
  apply check_never_returns. intros k. exists recursion.call_from_count.
  split; [apply recursion_chain|reflexivity].
Qed.

(** The same when [main] calls [count] and the call of [count] in its own
    body comes first among the incoming edges of [count]. *)
Lemma recursion_called_never_returns fuel :
  check fuel recursion.graph_called recursion.call_from_count = None.
Proof.
  apply check_never_returns. intros k. exists recursion.call_from_count.
  split; [|reflexivity]. induction k as [|k IH]; [done|]. exact IH.
Qed.

Lemma recursion_catalog :
  catalog recursion.pass recursion.file !! "G" = Some guarded_struct.
Proof. by vm_compute. Qed.

Lemma recursion_site :
  access_site recursion.pass (catalog recursion.pass recursion.file)
    (ev_node recursion.assignment) msg_assign.
Proof.
  eapply site_write; [done|reflexivity|].
  exists "G", guarded_struct. split; [apply recursion_catalog|done].
Qed.

Lemma recursion_live : live recursion.pass recursion.graph recursion.count.
Proof. apply live_evaluated. by vm_compute. Qed.

Lemma recursion_unguarded :
  ¬ guarded recursion.pass recursion.graph recursion.count.
Proof.
  intros (e & He & Hc & [fuel Hr]).
  change (all_edges recursion.graph) with [recursion.call_from_count] in He.
  apply list_elem_of_singleton in He as ->.
  by rewrite recursion_check_never_returns in Hr.
Qed.

Lemma recursion_edge : recursion.call_from_count ∈ all_edges recursion.graph.
Proof.
  change (all_edges recursion.graph) with [recursion.call_from_count]. set_solver.
Qed.

(** On a function that calls itself the check of the lease does not
    return: the assignment of line 12 is an access site, its nearest function
    [count] is live, and no search from an edge into [count] reaches the
    lease function, so that one diagnostic is due at the assignment; but the
    call of the callback on it does not return, whatever the choices of the
    runtime and the depth given to the caller walk, and nothing is
    reported. *)
Lemma lease_check_never_returns_on_recursion :
  access_site recursion.pass (catalog recursion.pass recursion.file)
    (ev_node recursion.assignment) msg_assign ∧
  nearestFunction (ev_stack recursion.assignment) = Some recursion.count ∧
  live recursion.pass recursion.graph recursion.count ∧
  ¬ guarded recursion.pass recursion.graph recursion.count ∧
  (∀ c fuel st,
     permitted recursion.graph (catalog recursion.pass recursion.file) c →
     NodePos (ev_node recursion.assignment) ∉ inspectedPos st →
     inspect recursion.pass recursion.graph
       (catalog recursion.pass recursion.file) c fuel recursion.assignment st = None).
Proof.
  split; [apply recursion_site|]. split; [done|]. split; [apply recursion_live|].
  split; [apply recursion_unguarded|]. intros c fuel st Hc Hp.
  apply (inspect_never_returns _ _ _ c _ st msg_assign recursion.count
           recursion.call_from_count); try done.
  - apply recursion_site.
  - apply recursion_live.
  - apply recursion_edge.
  - apply recursion_check_never_returns.
  - apply recursion_unguarded.
Qed.

(** C10: on the call graph of a function that calls itself, where that
    call is the first incoming edge of the function, the caller walk does
    not return, whatever depth it is given, be the function called by
    nothing else or by [main] as well; and no run of the analyzer on the
    program returns. *)
Theorem caller_walk_never_returns_on_recursion :
  (∀ fuel, check fuel recursion.graph recursion.call_from_count = None) ∧
  (∀ fuel, check fuel recursion.graph_called recursion.call_from_count = None) ∧
  (∀ ds, ¬ runs recursion.pass recursion.graph ds).
Proof.
  split; [apply recursion_check_never_returns|].
  split; [apply recursion_called_never_returns|].
  intros ds R. inversion R as [|f fs ds1 ds2 (st & W & _) _]; subst.
  change (events (Files recursion.pass))
    with (take 49 (events [recursion.file]) ++ recursion.assignment ::
          drop 50 (events [recursion.file])) in W.
  revert W. eapply (walks_never_return _ _ _ _ _ _ _ msg_assign recursion.count
                      recursion.call_from_count); try done.
  - intros ev' Hev'.
    assert (Forall (λ ev, NodePos (ev_node ev) ≠ NodePos (ev_node recursion.assignment))
              (take 49 (events [recursion.file]))) as Hall by compute_done.
    rewrite Forall_forall in Hall. by apply Hall.
  - apply recursion_site.
  - apply recursion_live.
  - apply recursion_edge.
  - apply recursion_check_never_returns.
  - apply recursion_unguarded.
Qed.

(** ** The liveness filter *)

(** The assignment in [unused], which nothing calls, is not reported. *)
Lemma liveness_witness :
  ∃ st',
    inspect example.pass example.graph (catalog example.pass example.file)
      (plain example.graph (catalog example.pass example.file)) 3
      example.write_in_unused initial = Some st' ∧
    reports st' = reports initial.
Proof.
  apply (proj1 (proj2 (liveness_filter example.pass example.graph)) _ _ 3
           example.write_in_unused initial example.unused).
  - apply plain_permitted.
  - apply (list_elem_of_lookup_2 _ 52). reflexivity.
  - reflexivity.
  - apply dead_evaluated. reflexivity.
Defined.

(** C3 does not hold of the analyzer: nothing calls [dead], so [dead] is
    not live; its function literal is the callee of the edge from [dead],
    so the literal is live, and it is the nearest function of the
    statements of lines 12 and 13.  The run reports both statements, which
    lie inside the declaration of [dead]. *)
Lemma dead_declaration_live_literal :
  ¬ live dead_literal.pass dead_literal.graph dead_literal.dead ∧
  live dead_literal.pass dead_literal.graph dead_literal.literal ∧
  traverse [dead_literal.file] dead_literal.dead !! 6 =
    Some dead_literal.assignment ∧
  traverse [dead_literal.file] dead_literal.dead !! 16 =
    Some dead_literal.declaration ∧
  nearestFunction (ev_stack dead_literal.assignment) =
    Some dead_literal.literal ∧
  nearestFunction (ev_stack dead_literal.declaration) =
    Some dead_literal.literal ∧
  run dead_literal.pass dead_literal.graph 1 =
    Some [mkDiagnostic (at_ 12 3) msg_assign;
          mkDiagnostic (at_ 13 3) msg_multiple].
Proof.
  split; [by apply dead_evaluated|].
  split; [by apply live_evaluated|].
  repeat split; by vm_compute.
Qed.

(** ** Parameters of a cataloged type *)

Lemma used_walk :
  ∃ st, walks example.pass example.graph (catalog example.pass example.file)
          (traverse [example.file] example.used) initial st.
Proof.
  eexists. eapply (walk_walks _ _ _ _ 3); [apply plain_permitted|].
  vm_compute. reflexivity.
Qed.

Lemma used_param :
  guarded_param (catalog example.pass example.file)
    (Field [example.id 27 11 "c"]
       (StarExpr (at_ 27 13) (example.id 27 14 "critSectionExample"))).
Proof. apply param_pointer. rewrite example_catalog. by eexists. Qed.

(** C4 does not hold of the analyzer: in example/example.go the function
    [used] is live and has a parameter of type [*critSectionExample]; the
    walk of its declaration reports the parameter and then, in the body,
    the assignment to the field [value] of that parameter. *)
Lemma parameter_body_is_analysed :
  live example.pass example.graph example.used ∧
  guarded_param (catalog example.pass example.file)
    (Field [example.id 27 11 "c"]
       (StarExpr (at_ 27 13) (example.id 27 14 "critSectionExample"))) ∧
  ∃ st,
    walk example.pass example.graph (catalog example.pass example.file)
      (plain example.graph (catalog example.pass example.file)) 3
      (traverse [example.file] example.used) initial = Some st ∧
    reports st = [mkDiagnostic (at_ 27 1) msg_param;
                  mkDiagnostic (at_ 28 2) msg_assign].
Proof.
  split; [by apply live_evaluated|]. split; [apply used_param|].
  eexists. split; [vm_compute; reflexivity|by vm_compute].
Qed.

Lemma parameter_witness :
  ∃ st'',
    reports_at (at_ 27 1) (reports st'') =
    reports_at (at_ 27 1) (reports initial) ++ [mkDiagnostic (at_ 27 1) msg_param].
Proof.
  destruct used_walk as [st'' W]. exists st''.
  refine (proj2 (proj2
    (parameter_reported_once example.pass example.graph
       (catalog example.pass example.file) [example.file]
       (at_ 27 1) (at_ 27 6) "used" []
       (Field [example.id 27 11 "c"]
          (StarExpr (at_ 27 13) (example.id 27 14 "critSectionExample")))
       []
       [AssignStmt (example.sel 28 2 "c" 4 "value") [] "="
          (Other (at_ 28 12) [example.lit 28 13]) []]
       initial _ _ _ _)) st'' W).
  - apply used_param.
  - constructor.
  - apply live_evaluated. reflexivity.
  - apply not_elem_of_empty.
Defined.

(** ** Instantiations *)

(** C5 does not hold of the analyzer: [helper] is not live, yet the walk
    of its declaration records [G]; so the only instantiation of [G] in live
    code, in [main], is reported as a second instance. *)
Lemma dead_instantiation_is_recorded :
  ¬ live dead_first.pass dead_first.graph dead_first.helper ∧
  (∃ st,
     walk dead_first.pass dead_first.graph (catalog dead_first.pass dead_first.file)
       (plain dead_first.graph (catalog dead_first.pass dead_first.file)) 1
       (traverse [dead_first.file] dead_first.helper) initial = Some st ∧
     "G" ∈ critSecTypesUsed st ∧ reports st = []) ∧
  run dead_first.pass dead_first.graph 1 =
    Some [mkDiagnostic (at_ 14 6) msg_multiple].
Proof.
  split; [by apply dead_evaluated|]. split; [|by vm_compute].
  eexists. split; [vm_compute; reflexivity|]. split; [|by vm_compute].
  compute_done.
Qed.

(** The names are recorded whether they are in the catalog or not: the
    second variable of type [int] in a live function is reported too. *)
Lemma other_names_are_recorded :
  catalog plain_names.pass plain_names.file = ∅ ∧
  run plain_names.pass plain_names.graph 1 =
    Some [mkDiagnostic (at_ 5 6) msg_multiple].
Proof. split; [|by vm_compute]. apply map_eq. intros k. by vm_compute. Qed.

Lemma dead_first_catalog :
  catalog dead_first.pass dead_first.file !! "G" = Some guarded_struct.
Proof. by vm_compute. Qed.

Lemma instantiation_witness :
  ∃ st',
    inspect dead_first.pass dead_first.graph
      (catalog dead_first.pass dead_first.file)
      (plain dead_first.graph (catalog dead_first.pass dead_first.file)) 0
      dead_first.declaration_of_b (mkState ∅ {["G"]} []) = Some st' ∧
    "G" ∈ critSecTypesUsed st' ∧
    ("G" ∉ critSecTypesUsed (mkState ∅ {["G"]} []) →
     reports st' = reports (mkState ∅ {["G"]} [])) ∧
    ("G" ∈ critSecTypesUsed (mkState ∅ {["G"]} []) →
     (∃ nf, nearestFunction (ev_stack dead_first.declaration_of_b) = Some nf ∧
            live dead_first.pass dead_first.graph nf) →
     reports st' =
       reports (mkState ∅ {["G"]} []) ++
       [mkDiagnostic (NodePos (ev_node dead_first.declaration_of_b)) msg_multiple]) ∧
    ("G" ∈ critSecTypesUsed (mkState ∅ {["G"]} []) →
     ¬ (∃ nf, nearestFunction (ev_stack dead_first.declaration_of_b) = Some nf ∧
              live dead_first.pass dead_first.graph nf) →
     reports st' = reports (mkState ∅ {["G"]} [])).
Proof.
  apply (instantiation_recorded dead_first.pass dead_first.graph).
  - apply plain_permitted.
  - rewrite dead_first_catalog. by eexists.
  - apply not_elem_of_empty.
  - apply inst_var.
Defined.

(** ** Assignments *)

Lemma targets_run :
  run targets.pass targets.graph 1 =
  Some [mkDiagnostic (at_ 18 2) msg_assign;
        mkDiagnostic (at_ 18 5) msg_access;
        mkDiagnostic (at_ 20 2) msg_assign].
Proof. by vm_compute. Qed.

(** C6 does not hold of the analyzer: [x, g.value = 1, 2], whose first
    target is a variable, is a write access; [g.value, x = 3, 4], whose
    first target is a field of a matched type, is not; and the assignment
    to a field named Lease of a matched type is one. *)
Lemma last_target_decides :
  switch targets.pass targets.graph (catalog targets.pass targets.file)
    (plain targets.graph (catalog targets.pass targets.file))
    targets.x_then_field [] initial = Access msg_assign ∧
  switch targets.pass targets.graph (catalog targets.pass targets.file)
    (plain targets.graph (catalog targets.pass targets.file))
    targets.field_then_x [] initial = Return initial ∧
  switch targets.pass targets.graph (catalog targets.pass targets.file)
    (plain targets.graph (catalog targets.pass targets.file))
    targets.lease_field [] initial = Access msg_assign ∧
  run targets.pass targets.graph 1 =
    Some [mkDiagnostic (at_ 18 2) msg_assign;
          mkDiagnostic (at_ 18 5) msg_access;
          mkDiagnostic (at_ 20 2) msg_assign].
Proof. repeat split; by vm_compute. Qed.

Lemma write_site_witness :
  (switch targets.pass targets.graph (catalog targets.pass targets.file)
     (plain targets.graph (catalog targets.pass targets.file))
     targets.x_then_field [] initial = Access msg_assign ↔
   "=" ≠ ":=" ∧
   ∃ X p sel,
     last_lhs (small.id 18 2 "x") [small.sel 18 5 "g" 7 "value"] =
       SelectorExpr X p sel ∧
     matched (catalog targets.pass targets.file) (TypeOf targets.pass X)) ∧
  (∀ msg,
     switch targets.pass targets.graph (catalog targets.pass targets.file)
       (plain targets.graph (catalog targets.pass targets.file))
       targets.x_then_field [] initial = Access msg →
     msg = msg_assign).
Proof.
  apply (write_site_is_last_target targets.pass targets.graph).
  apply plain_permitted.
Defined.

(** ** Positions *)

(** C7 does not hold of the analyzer: in [g.value++] the field selection
    is an access site in [main], which is live, and nothing guards it; it
    starts where the statement starts, the statement is inspected first, and
    the run reports nothing (the same holds of [g.value > 0]). *)
Lemma shared_position_hides_access :
  access_site shared_position.pass
    (catalog shared_position.pass shared_position.file)
    (small.sel 11 2 "g" 4 "value") msg_access ∧
  nearestFunction
    [shared_position.file; shared_position.main; shared_position.increment;
     small.sel 11 2 "g" 4 "value"] = Some shared_position.main ∧
  live shared_position.pass shared_position.graph shared_position.main ∧
  ¬ guarded shared_position.pass shared_position.graph shared_position.main ∧
  run shared_position.pass shared_position.graph 1 = Some [].
Proof.
  split; [|split; [done|split; [by left|split; [|by vm_compute]]]].
  - apply site_read; [|done].
    exists "G", guarded_struct. split; by vm_compute.
  - by apply (unguarded_evaluated _ _ 1).
Qed.

(** C1 does not hold of the analyzer: in [if g.value > 0] the field
    selection is an access site in [main], which is live, and no search
    reaches the lease function, there being no edge into [main]; but the
    comparison starts at the same position and is inspected first, the
    selection is never checked, and the run reports nothing. *)
Lemma hidden_site_is_not_checked :
  access_site shared_position.pass
    (catalog shared_position.pass shared_position.file)
    (small.sel 12 5 "g" 7 "value") msg_access ∧
  NodePos shared_position.comparison = NodePos (small.sel 12 5 "g" 7 "value") ∧
  nearestFunction
    [shared_position.file; shared_position.main;
     Other (at_ 12 2)
       [shared_position.comparison;
        Other (at_ 13 3)
          [Other (at_ 13 3) [small.id 13 3 "println"; small.lit 13 11]]];
     shared_position.comparison;
     small.sel 12 5 "g" 7 "value"] = Some shared_position.main ∧
  live shared_position.pass shared_position.graph shared_position.main ∧
  ¬ guarded shared_position.pass shared_position.graph shared_position.main ∧
  run shared_position.pass shared_position.graph 1 = Some [].
Proof.
  split; [|split; [done|split; [done|split; [by left|split; [|by vm_compute]]]]].
  - apply site_read; [|done].
    exists "G", guarded_struct. split; by vm_compute.
  - by apply (unguarded_evaluated _ _ 1).
Qed.

Lemma positions_witness :
  NoDup (map (λ ev, NodePos (ev_node ev))
           (inspected_events (inspectedPos initial) (events [example.file]))).
Proof.
  destruct example_walk as [st W].
  exact (proj1 (positions_inspected_once example.pass example.graph _ _ _ _ W)).
Defined.

(** ** Messages *)

(** C8 does not hold of the analyzer: none of the six diagnostics of the
    run on example/example.go carries a message of the specification. *)
Lemma messages_differ_from_specification :
  ∃ ds, run example.pass example.graph 3 = Some ds ∧ ds ≠ [] ∧
        Forall (λ d, Message d ∉ spec_messages) ds.
Proof.
  eexists. split; [apply example_run|]. split; [done|].
  compute_done.
Qed.

Lemma messages_witness :
  (∀ d, d ∈ [mkDiagnostic (at_ 27 1) msg_param;
             mkDiagnostic (at_ 28 2) msg_assign;
             mkDiagnostic (at_ 47 4) msg_assign;
             mkDiagnostic (at_ 55 2) msg_assign;
             mkDiagnostic (at_ 56 6) msg_access;
             mkDiagnostic (at_ 67 6) msg_multiple] →
        Message d ∈ messages) ∧
  NoDup messages.
Proof.
  apply (diagnostics_carry_the_messages example.pass example.graph).
  apply (run_over_runs _ _ 3). apply example_run.
Defined.

(** ** The order of the incoming edges *)

(** The two call graphs of the program of [in_order] have the same nodes
    and the same edges and differ in the order of the incoming edges of
    [worker]: with the call from [main] first the assignment in [helper] is
    reported, with the call from [Lease] first it is not.  Both runs
    return. *)
Lemma run_depends_on_the_order_of_incoming_edges :
  Nodes two_callers.main_first = Nodes two_callers.lease_first ∧
  all_edges two_callers.main_first = all_edges two_callers.lease_first ∧
  (∀ e, e ∈ In (node two_callers.main_first two_callers.n_worker) ↔
        e ∈ In (node two_callers.lease_first two_callers.n_worker)) ∧
  run in_order.pass two_callers.main_first 3 =
    Some [mkDiagnostic (at_ 16 2) msg_assign] ∧
  run in_order.pass two_callers.lease_first 3 = Some [].
Proof.
  split; [done|]. split; [done|]. split; [|split; by vm_compute].
  intros e. simpl. set_solver.
Qed.

(** ** Determinism *)

Lemma determinism_of_example :
  (∀ cat c ev st, permitted example.graph cat c →
     ∃ fuel st', inspect example.pass example.graph cat c fuel ev st = Some st') ∧
  (∃ fuel ds,
     runs example.pass example.graph ds ∧
     ∀ fuel', fuel ≤ fuel' → run example.pass example.graph fuel' = Some ds).
Proof.
  apply (proj2 (run_is_determined_by_the_call_graph example.pass example.graph)).
  apply example_searches_return.
Defined.

Lemma looping_catalog :
  catalog looping.pass looping.file !! "G" = Some guarded_struct.
Proof. by vm_compute. Qed.

Lemma looping_permitted order :
  visits looping.graph order →
  permitted looping.graph (catalog looping.pass looping.file)
    (looping.choice_of order).
Proof.
  intros Hv. destruct (plain_permitted looping.graph
                         (catalog looping.pass looping.file)) as (Ht & Hl & _).
  by split; [|split].
Qed.

Lemma looping_visits :
  visits looping.graph looping.visit_from_main ∧
  visits looping.graph looping.visit_from_loop.
Proof.
  assert (all_edges looping.graph =
          [looping.main_leases; looping.lease_calls; looping.loop_loops;
           looping.loop_calls]) as Hall by done.
  split; intros e; rewrite Hall.
  - unfold looping.visit_from_main. set_solver.
  - unfold looping.visit_from_loop. set_solver.
Qed.

Lemma looping_check_never_returns fuel :
  check fuel looping.graph looping.loop_calls = None.
Proof.
  apply check_never_returns. intros k.
  exists (if k is 0 then looping.loop_calls else looping.loop_loops).
  split; [|by destruct k]. destruct k as [|k]; [done|]. simpl.
  induction k as [|k IH]; [done|]. exact IH.
Qed.

(** C9 fails where a search does not return: [worker] is called by
    [Lease] and by [loop], whose first incoming edge is its call of itself.
    When [GraphVisitEdges] comes to the edge from [Lease] first, the run
    returns and reports the assignment in [main]; when it comes to the edge
    from [loop] first, the run does not return.  Both orders are orders of
    the depth-first visit, for two orders of the iteration over [g.Nodes],
    and the two runs differ in nothing else. *)
Theorem run_depends_on_the_visit_order :
  visit_order looping.graph
    [looping.n_main; looping.n_Lease; looping.n_loop; looping.n_worker] =
    looping.visit_from_main ∧
  visit_order looping.graph
    [looping.n_loop; looping.n_main; looping.n_Lease; looping.n_worker] =
    looping.visit_from_loop ∧
  permitted looping.graph (catalog looping.pass looping.file)
    (looping.choice_of looping.visit_from_main) ∧
  permitted looping.graph (catalog looping.pass looping.file)
    (looping.choice_of looping.visit_from_loop) ∧
  (∃ st,
     walk looping.pass looping.graph (catalog looping.pass looping.file)
       (looping.choice_of looping.visit_from_main) 2
       (events [looping.file]) initial = Some st ∧
     reports st = [mkDiagnostic (at_ 24 2) msg_assign]) ∧
  (∀ fuel,
     walk looping.pass looping.graph (catalog looping.pass looping.file)
       (looping.choice_of looping.visit_from_loop) fuel
       (events [looping.file]) initial = None).
Proof.
  destruct looping_visits as [Hmain Hloop].
  split; [by vm_compute|]. split; [by vm_compute|].
  split; [by apply looping_permitted|]. split; [by apply looping_permitted|].
  split.
  { eexists. split; [vm_compute; reflexivity|by vm_compute]. }
  intros fuel.
  change (events [looping.file])
    with (take 36 (events [looping.file]) ++ looping.assignment ::
          drop 37 (events [looping.file])).
  apply (walk_stuck _ _ _ _ _ _ _ _ _ msg_assign looping.worker).
  - by apply looping_permitted.
  - apply not_elem_of_empty.
  - intros ev' Hev'.
    assert (Forall (λ ev, NodePos (ev_node ev) ≠ NodePos (ev_node looping.assignment))
              (take 36 (events [looping.file]))) as Hall by compute_done.
    rewrite Forall_forall in Hall. by apply Hall.
  - eapply site_write; [done|reflexivity|].
    exists "G", guarded_struct. split; [apply looping_catalog|done].
  - reflexivity.
  - apply live_evaluated. by vm_compute.
  - unfold checkLease. simpl. by rewrite looping_check_never_returns.
Qed.

(** * Further properties of the analyzer *)

(** ** The nearest function *)

Lemma nearest_skips above rest :
  Forall (λ n, is_function n = false) above →
  nearest (above ++ rest) = nearest rest.
Proof.
  induction 1 as [|n above Hn _ IH]; [done|]. simpl. rewrite IH.
  by destruct n.
Qed.

Lemma nearest_found rstack nf :
  nearest rstack = Some nf →
  ∃ above below, rstack = above ++ nf :: below ∧ is_function nf = true ∧
                 Forall (λ n, is_function n = false) above.
Proof.
  induction rstack as [|n rstack IH]; [done|]. simpl. intros Hn.
  destruct (is_function n) eqn:Hf.
  - exists [], rstack. by destruct n; simplify_eq/=.
  - destruct IH as (above & below & -> & Hnf & Habove); [by destruct n|].
    exists (n :: above), below. split; [done|]. split; [done|]. by constructor.
Qed.

Lemma nearest_none rstack :
  nearest rstack = None ↔ Forall (λ n, is_function n = false) rstack.
Proof.
  split.
  - induction rstack as [|n rstack IH]; [constructor|]. simpl. intros Hn.
    destruct (is_function n) eqn:Hf; [by destruct n|].
    constructor; [done|]. apply IH. by destruct n.
  - intros Hall. rewrite <-(app_nil_r rstack). by rewrite nearest_skips.
Qed.

(** [nearestFunction] returns the innermost function declaration or
    function literal of the stack: the last node of the stack that is one,
    whatever lies outside it.  It finds nothing exactly when the stack
    holds no function declaration and no function literal. *)
Theorem nearestFunction_innermost stack :
  (∀ nf, nearestFunction stack = Some nf ↔
         ∃ outer inner, stack = outer ++ nf :: inner ∧ is_function nf = true ∧
                        Forall (λ n, is_function n = false) inner) ∧
  (nearestFunction stack = None ↔ Forall (λ n, is_function n = false) stack).
Proof.
  unfold nearestFunction. split.
  - intros nf. split.
    + intros (above & below & Hr & Hnf & Habove)%nearest_found.
      exists (rev below), (rev above). split; [|split; [done|]].
      * rewrite <-(rev_involutive stack), Hr, rev_app_distr. simpl.
        by rewrite <-app_assoc.
      * by apply List.Forall_rev.
    + intros (outer & inner & -> & Hnf & Hinner).
      rewrite rev_app_distr. simpl. rewrite <-app_assoc, nearest_skips.
      * simpl. by destruct nf.
      * by apply List.Forall_rev.
  - rewrite nearest_none. split; intros Hall; [|by apply List.Forall_rev].
    rewrite <-(rev_involutive stack). by apply List.Forall_rev.
Qed.

(** ** The caller walk *)

Lemma check_same_caller g e e' fuel :
  Caller e = Caller e' → check fuel g e = check fuel g e'.
Proof.
  intros Hc. destruct fuel as [|fuel]; [done|]. simpl.
  unfold names_lease. by rewrite Hc.
Qed.

Lemma call_path_snoc path e e' :
  call_path path → last path = Some e → Callee e = Caller e' →
  call_path (path ++ [e']).
Proof.
  induction path as [|e1 [|e2 path] IH]; intros Hp Hl Hc; [done| |].
  - simpl in *. by simplify_eq.
  - destruct Hp as [H12 Hp]. split; [done|]. by apply IH.
Qed.

Lemma check_call_path g e fuel :
  linked g → check fuel g e = Some true →
  ∃ path e0, last path = Some e ∧ head path = Some e0 ∧
             names_lease g e0 = true ∧ call_path path ∧ length path ≤ fuel.
Proof.
  intros Hlinked. revert e. induction fuel as [|fuel IH]; intros e Hc; [done|].
  simpl in Hc. destruct (names_lease g e) eqn:Hl.
  { exists [e], e. simpl. repeat split; [done|lia]. }
  destruct (In (node g (Caller e))) as [|inn rest] eqn:Hin; [done|].
  destruct (IH _ Hc) as (path & e0 & Hlast & Hhead & H0 & Hpath & Hlen).
  exists (path ++ [e]), e0. split; [by rewrite last_snoc|].
  split; [by destruct path|]. split; [done|]. split.
  - apply (call_path_snoc _ inn); [done..|].
    apply Hlinked. rewrite Hin. left.
  - rewrite length_app. simpl. lia.
Qed.

Lemma check_least_fuel g e fuel b :
  check fuel g e = Some b →
  ∃ f, f < fuel ∧ check (S f) g e = Some b ∧ check f g e = None.
Proof.
  induction fuel as [|fuel IH]; [done|]. intros Hc.
  destruct (check fuel g e) as [b'|] eqn:Hf.
  - assert (b' = b) as ->.
    { apply (check_more_fuel _ _ _ _ (S fuel)) in Hf; [congruence|lia]. }
    destruct IH as (f & Hlt & Hs & Hn); [done|]. exists f. split; [lia|done].
  - exists fuel. split; [lia|done].
Qed.

(** The callers a walk that returns after [S f] calls goes through are
    [S f] different nodes. *)
Lemma check_chain_callers g e f b :
  callers_known g e →
  check (S f) g e = Some b → check f g e = None →
  ∃ cs, length cs = S f ∧ NoDup cs ∧ cs ⊆ Nodes g ∧
        ∀ c, c ∈ cs →
             ∃ e' i, Caller e' = c ∧ i ≤ f ∧
                     is_Some (check (S i) g e') ∧ check i g e' = None.
Proof.
  intros [Hin Hclosed]. revert e Hin.
  induction f as [|f IH]; intros e Hin Hs Hn.
  { exists [Caller e]. split; [done|]. split; [apply NoDup_singleton|].
    split; [by intros c ->%list_elem_of_singleton|].
    intros c ->%list_elem_of_singleton. exists e, 0. by rewrite Hs. }
  pose proof Hs as Hs'. pose proof Hn as Hn'.
  simpl in Hs', Hn'. destruct (names_lease g e); [done|].
  destruct (In (node g (Caller e))) as [|inn rest] eqn:Hinn; [done|].
  destruct (IH inn) as (cs & Hlen & Hnd & Hsub & Hcs); [|done..|].
  { apply (Hclosed (Caller e)); [done|]. rewrite Hinn. left. }
  exists (Caller e :: cs). split; [simpl; lia|]. split; [|split].
  - constructor; [|done]. intros (e' & i & Hc & Hi & [b' Hb'] & _)%Hcs.
    rewrite (check_same_caller g e' e) in Hb' by done.
    apply (check_more_fuel _ _ _ _ (S f)) in Hb'; [congruence|lia].
  - intros c [->|?]%elem_of_cons; auto.
  - intros c [->|(e' & i & ? & ? & ? & ?)%Hcs]%elem_of_cons.
    + exists e, (S f). by rewrite Hs.
    + exists e', i. split; [done|]. split; [lia|done].
Qed.

(** The walk of [check] returns within as many calls as the graph has
    nodes, or it never returns: a walk that is still going after that many
    calls has come back to a caller it went through before.  So whether
    [check] returns is decided by running it to that depth. *)
Theorem caller_walk_bounded_by_nodes g e :
  callers_known g e →
  (∀ b, check_returns g e b ↔ check (length (Nodes g)) g e = Some b) ∧
  (check (length (Nodes g)) g e = None → ∀ fuel, check fuel g e = None).
Proof.
  intros Hknown.
  assert (∀ fuel b, check fuel g e = Some b →
                    check (length (Nodes g)) g e = Some b) as Hbound.
  { intros fuel b (f & _ & Hs & Hn)%check_least_fuel.
    destruct (check_chain_callers g e f b Hknown Hs Hn)
      as (cs & Hlen & Hnd & Hsub & _).
    pose proof (NoDup_subseteq_length cs (Nodes g) Hnd Hsub).
    apply (check_more_fuel _ _ _ (S f)); [done|lia]. }
  split.
  - intros b. split; [intros [fuel Hc]; by apply (Hbound fuel)|].
    intros Hc. by eexists.
  - intros Hnone fuel. destruct (check fuel g e) as [b|] eqn:Hc; [|done].
    apply Hbound in Hc. congruence.
Qed.

(** ** The events the callback inspects *)

Lemma inspected_events_app seen evs1 evs2 :
  inspected_events seen (evs1 ++ evs2) =
  inspected_events seen evs1 ++
  inspected_events
    (seen ∪ list_to_set (map (λ ev, NodePos (ev_node ev)) evs1)) evs2.
Proof.
  revert seen. induction evs1 as [|ev evs1 IH]; intros seen; simpl.
  { by rewrite (right_id_L ∅ (∪)). }
  set (pos := NodePos (ev_node ev)).
  set (rest := list_to_set (map (λ ev, NodePos (ev_node ev)) evs1) : gset Pos).
  case_bool_decide as Hseen; rewrite IH; fold rest.
  - by assert (seen ∪ ({[pos]} ∪ rest) = seen ∪ rest) as -> by set_solver.
  - by assert (seen ∪ ({[pos]} ∪ rest) = {[pos]} ∪ seen ∪ rest) as ->
      by set_solver.
Qed.

Lemma inspected_events_seen seen evs :
  (∀ ev, ev ∈ evs → NodePos (ev_node ev) ∈ seen) →
  inspected_events seen evs = [].
Proof.
  induction evs as [|ev evs IH]; [done|]. intros Hall. simpl.
  rewrite bool_decide_true by (apply Hall; left).
  apply IH. intros ev' Hev'. apply Hall. by right.
Qed.

Lemma entered_nil : entered [].
Proof. intros seen. constructor. Qed.

Lemma entered_app evs1 evs2 : entered evs1 → entered evs2 → entered (evs1 ++ evs2).
Proof.
  intros H1 H2 seen. rewrite inspected_events_app. apply Forall_app.
  split; [apply H1|apply H2].
Qed.

Lemma entered_below (f : Node → list Event) l :
  Forall (λ n, entered (f n)) l → entered (flat_map f l).
Proof.
  induction 1 as [|n l Hn _ IH]; [apply entered_nil|]. simpl.
  by apply entered_app.
Qed.

Lemma entered_node n stack evs :
  entered evs → entered (mkEvent n true stack :: evs ++ [mkEvent n false stack]).
Proof.
  intros Hevs seen.
  change (mkEvent n true stack :: evs ++ [mkEvent n false stack])
    with ([mkEvent n true stack] ++ evs ++ [mkEvent n false stack]).
  rewrite !inspected_events_app. apply Forall_app. split; [|apply Forall_app; split].
  - simpl. case_bool_decide; by repeat constructor.
  - apply Hevs.
  - simpl. rewrite bool_decide_true; [constructor|]. set_solver.
Qed.

Lemma entered_ident p s stack :
  entered [mkEvent (Ident p s) true stack; mkEvent (Ident p s) false stack].
Proof. apply (entered_node _ _ []), entered_nil. Qed.

Ltac entering :=
  repeat match goal with
    | |- entered [] => apply entered_nil
    | |- entered (_ :: _ ++ [_]) => apply entered_node
    | |- entered [_; _] => apply entered_ident
    | |- entered (_ ++ _) => apply entered_app
    | |- entered (flat_map _ _) => apply entered_below
    | H : Forall (λ n, ∀ stack, entered (traverse stack n)) ?l
      |- Forall (λ n, entered (traverse _ n)) ?l =>
        apply (Forall_impl _ _ _ H); intros ? Hn; apply Hn
    | H : ∀ stack, entered (traverse stack ?X) |- entered (traverse _ ?X) =>
        apply H
    | H : from_option _ True ?t |- entered (match ?t with _ => _ end) =>
        destruct t; simpl in H
    end.

Lemma traverse_entered n : ∀ stack, entered (traverse stack n).
Proof.
  induction n using Node_deep_ind; intros stack; cbn [traverse]; entering.
Qed.

(** In the traversal of the files the callback goes past its test of
    [inspectedPos] only when a node is entered: when the traversal leaves a
    node, the position of the node has been inspected, and the call
    returns at once. *)
Theorem only_entries_are_inspected files seen :
  Forall (λ ev, ev_push ev = true) (inspected_events seen (events files)).
Proof.
  revert seen. change (entered (events files)). unfold events.
  apply entered_below, Forall_forall. intros n _. apply traverse_entered.
Qed.

Section Further.

Context {Ty : Type} `{!GoTypes Ty}.
Variable pass : Pass Ty.
Variable graph : Graph.

Abbreviation live := (live pass graph).
Abbreviation guarded := (guarded pass graph).

(** ** Positions as identities *)

(** [positionCompare] is an equivalence on positions: two positions are
    the same identity when they lie in the same file on the same line. *)
Theorem positionCompare_equivalence :
  Equivalence (λ a b, positionCompare pass a b = true).
Proof.
  unfold positionCompare. split.
  - intros a. by rewrite !bool_decide_true.
  - intros a b [H1 H2]%andb_prop.
    apply bool_decide_eq_true in H1, H2. by rewrite !bool_decide_true.
  - intros a b c [H1 H2]%andb_prop [H3 H4]%andb_prop.
    apply bool_decide_eq_true in H1, H2, H3, H4.
    rewrite !bool_decide_true; [done|congruence..].
Qed.

Lemma calls_same_line nf nf' e :
  positionCompare pass (NodePos nf) (NodePos nf') = true →
  calls pass graph nf e = calls pass graph nf' e.
Proof.
  unfold calls, positionCompare. intros [H1 H2]%andb_prop.
  apply bool_decide_eq_true in H1, H2. by rewrite H1, H2.
Qed.

Lemma GraphVisitEdges_ext {E} order (f f' : Edge → option (option E)) :
  (∀ e, f e = f' e) → GraphVisitEdges order f = GraphVisitEdges order f'.
Proof.
  intros Hf. induction order as [|e order IH]; [done|]. simpl.
  by rewrite Hf, IH.
Qed.

(** Two functions that start on the same line of the same file are one
    function for the call graph: the check of the lease gives the same
    answer for both, and so does the liveness filter unless one of them is
    the declaration of [main]. *)
Theorem same_line_same_verdict fuel order nf nf' :
  positionCompare pass (NodePos nf) (NodePos nf') = true →
  checkLease pass graph fuel order nf = checkLease pass graph fuel order nf' ∧
  (is_main nf = is_main nf' →
   isFunctionInGraph pass graph order nf = isFunctionInGraph pass graph order nf').
Proof.
  intros Hpos. split.
  - unfold checkLease. f_equal.
    rewrite (GraphVisitEdges_ext order _
               (λ e, if calls pass graph nf' e then
                       b ← check fuel graph e;
                       Some (if b : bool then Some done_error else None)
                     else Some None)); [done|].
    intros e. by rewrite (calls_same_line nf nf').
  - intros Hmain. rewrite !isFunctionInGraph_existsb, Hmain. f_equal.
    induction order as [|e order IH]; [done|]. simpl.
    by rewrite IH, (calls_same_line nf nf').
Qed.

(** ** Functions without a call *)

(** For a function that no visited edge leads into, [isFunctionInGraph]
    answers [true] only for the declaration of [main], and [checkLease]
    answers [false] without starting a search: it returns whatever the
    depth allowed to [check].  An access in [main] itself is therefore never
    guarded unless some edge leads to the line of [main]. *)
Theorem uncalled_function_is_unguarded fuel order nf :
  (∀ e, e ∈ order → calls pass graph nf e = false) →
  isFunctionInGraph pass graph order nf = is_main nf ∧
  checkLease pass graph fuel order nf = Some false.
Proof.
  intros Hno. split.
  - rewrite isFunctionInGraph_existsb.
    destruct (existsb (calls pass graph nf) order) eqn:Hex.
    + apply existsb_elem in Hex as (e & He & Hc). rewrite Hno in Hc; done.
    + by rewrite orb_false_r.
  - unfold checkLease. induction order as [|e order IH]; [done|]. simpl.
    rewrite (Hno e) by left. apply IH. intros e' He'. apply Hno. by right.
Qed.

(** ** The witness of a guarded verdict *)

(** When the incoming edges of the call graph end at their nodes, a
    verdict [true] of [checkLease] has a witness: a call path that starts
    with a call made by a function named [Lease] and ends with a call of
    the function [nf], no longer than the depth of the search. *)
Theorem guarded_has_call_path fuel order nf :
  linked graph →
  checkLease pass graph fuel order nf = Some true →
  ∃ path e e0,
    e ∈ order ∧ calls pass graph nf e = true ∧ last path = Some e ∧
    head path = Some e0 ∧ names_lease graph e0 = true ∧
    call_path path ∧ length path ≤ fuel.
Proof.
  intros Hlinked (e & He & Hcalls & Hcheck)%checkLease_true.
  destruct (check_call_path _ _ _ Hlinked Hcheck)
    as (path & e0 & Hlast & Hhead & H0 & Hpath & Hlen).
  by exists path, e, e0.
Qed.

(** ** The parameters of a function declaration *)

(** The loop over the parameters of a declaration reaches its report
    exactly when some parameter has a type of the catalog, or a pointer to
    one, and no parameter before it is a pointer to something that is not a
    plain name: at such a parameter the callback returns without a report,
    whatever parameters follow. *)
Theorem params_report_first_guarded (cat : gmap string Ty) ps :
  params_report cat ps = true ↔
  ∃ before param after,
    ps = before ++ param :: after ∧ guarded_param cat param ∧
    Forall (λ q, ¬ pointer_to_other q) before.
Proof.
  split.
  - induction ps as [|q ps IH]; [done|].
    assert (params_report cat ps = true → ¬ pointer_to_other q →
            ∃ before param after,
              q :: ps = before ++ param :: after ∧ guarded_param cat param ∧
              Forall (λ q, ¬ pointer_to_other q) before) as Hnext.
    { intros (before & param & after & -> & Hg & Hb)%IH Hq.
      exists (q :: before), param, after. split; [done|]. split; [done|].
      by constructor. }
    assert (∀ param, q = param → guarded_param cat param →
            ∃ before param after,
              q :: ps = before ++ param :: after ∧ guarded_param cat param ∧
              Forall (λ q, ¬ pointer_to_other q) before) as Hhere.
    { intros param -> Hg. by exists [], param, ps. }
    simpl.
    destruct q as [p s|p X|X sp sel|t lb elts|p qs body|p np name qs body|names t
                  |n0 names t vals|l0 lr tok r0 rr|p name t|p flds|p cs];
      try (intros Hr; apply Hnext; [done|];
           by intros (? & ? & ? & ? & _)).
    destruct t as [p s|p X|X sp sel|t lb elts|p qs body|p np name qs body|names' t
                  |n0 names' t vals|l0 lr tok r0 rr|p name t|p flds|p cs];
      try (intros Hr; apply Hnext; [done|];
           by intros (? & ? & ? & ? & _)).
    + case_bool_decide as Hcat.
      * intros _. eapply Hhere; [done|]. by constructor.
      * intros Hr. apply Hnext; [done|]. by intros (? & ? & ? & ? & _).
    + destruct X as [p' s|p' X|X sp sel|t lb elts|p' qs body|p' np name qs body
                    |names' t|n0 names' t vals|l0 lr tok r0 rr|p' name t
                    |p' flds|p' cs]; try done.
      case_bool_decide as Hcat.
      * intros _. eapply Hhere; [done|]. by constructor.
      * intros Hr. apply Hnext; [done|].
        intros (? & ? & ? & ? & Hx). simplify_eq. by eapply Hx.
  - intros (before & param & after & -> & Hg & Hb).
    by apply params_report_guarded.
Qed.

(** ** The catalog of a file *)

Lemma identifies_app evs1 evs2 st :
  identifies pass (evs1 ++ evs2) st = identifies pass evs2 (identifies pass evs1 st).
Proof. apply fold_left_app. Qed.

Lemma registers_app ds1 ds2 m :
  registers pass (ds1 ++ ds2) m = registers pass ds2 (registers pass ds1 m).
Proof. apply fold_left_app. Qed.

Lemma identifies_below l stack m :
  Forall (λ n, ∀ stack m,
            identifies pass (traverse stack n) (None, m) =
            (None, registers pass (declared pass n) m)) l →
  identifies pass (flat_map (traverse stack) l) (None, m) =
  (None, registers pass (flat_map (declared pass) l) m).
Proof.
  intros Hl. revert m. induction Hl as [|n l Hn _ IH]; intros m; [done|].
  simpl. by rewrite identifies_app, registers_app, Hn, IH.
Qed.

Lemma identifies_push n stack evs st :
  identifies pass (mkEvent n true stack :: evs) st = identifies pass evs (identify pass n st).
Proof. done. Qed.

Lemma identifies_pop n stack evs st :
  identifies pass (mkEvent n false stack :: evs) st = identifies pass evs st.
Proof. done. Qed.

Lemma identifies_nil st : identifies pass [] st = st.
Proof. done. Qed.

Lemma registers_nil m : registers pass [] m = m.
Proof. done. Qed.

Ltac identified :=
  repeat match goal with
    | |- context [identifies pass (_ ++ _) _] => rewrite identifies_app
    | |- context [identifies pass (mkEvent _ true _ :: _) _] => rewrite identifies_push
    | |- context [identifies pass (mkEvent _ false _ :: _) _] => rewrite identifies_pop
    | |- context [identifies pass [] _] => rewrite identifies_nil
    | |- context [registers pass (_ ++ _) _] => rewrite registers_app
    | |- context [registers pass [] _] => rewrite registers_nil
    | |- context [identify _ _ (None, _)] => progress cbn [identify fst snd]
    | H : ∀ stack m, identifies pass (traverse stack ?X) (None, m) = _
      |- context [identifies pass (traverse _ ?X) (None, _)] => rewrite H
    | H : Forall _ ?l
      |- context [identifies pass (flat_map (traverse _) ?l) (None, _)] =>
        rewrite (identifies_below l) by exact H
    | H : from_option _ True ?t |- context [match ?t with _ => _ end] =>
        destruct t; simpl in H
    end.

Lemma identifies_traverse n :
  ∀ stack m, identifies pass (traverse stack n) (None, m) =
             (None, registers pass (declared pass n) m).
Proof.
  induction n using Node_deep_ind; intros stack m.
  all: cbn [traverse declared].
  all: identified.
  all: try done.
  assert (∀ d, identifies pass (traverse (stack ++ [TypeSpec p name n]) n) (None, d) =
               (None, registers pass (declared pass n) d)) as IH by (intros; apply IHn).
  clear IHn. destruct n; try apply IH.
  destruct (existsb (embeds_section pass) Fields); apply IH.
Qed.

(** The catalog of a file holds the declarations of the file that embed the
    section, registered in the order of the traversal. *)
Lemma catalog_registers f :
  catalog pass f = registers pass (declared pass f) ∅.
Proof.
  unfold catalog. change (fold_left _ (traverse [] f) (None, ∅))
    with (identifies pass (traverse [] f) (None, ∅)).
  by rewrite identifies_traverse.
Qed.

Lemma registers_lookup ds m k ty :
  registers pass ds m !! k = Some ty →
  m !! k = Some ty ∨
  ∃ s t, (s, t) ∈ ds ∧
         ((k = s ∧ ty = TypeOf pass t) ∨
          (k = "*" +:+ s ∧ ty = NewPointer (TypeOf pass t))).
Proof.
  revert m. induction ds as [|[s t] ds IH]; intros m; [by left|].
  simpl. intros [Hm|(s' & t' & Hin & Hk)]%IH.
  - unfold register in Hm. simpl in Hm.
    apply lookup_insert_Some in Hm as [[<- <-]|[_ Hm]].
    { right. exists s, t. split; [left|]. by right. }
    apply lookup_insert_Some in Hm as [[<- <-]|[_ Hm]].
    { right. exists s, t. split; [left|]. by left. }
    by left.
  - right. exists s', t'. split; [by right|done].
Qed.

Lemma registers_keeps ds m k :
  is_Some (m !! k) → is_Some (registers pass ds m !! k).
Proof.
  revert m. induction ds as [|[s t] ds IH]; intros m Hm; [done|].
  simpl. apply IH. unfold register. simpl.
  rewrite !lookup_insert_is_Some'. auto.
Qed.

Lemma registers_has ds m s t :
  (s, t) ∈ ds →
  is_Some (registers pass ds m !! s) ∧ is_Some (registers pass ds m !! ("*" +:+ s)).
Proof.
  revert m. induction ds as [|d ds IH]; intros m; [by intros ?%elem_of_nil|].
  intros [<-|Hin]%elem_of_cons; [|by apply IH].
  simpl. split; apply registers_keeps; unfold register; simpl;
    rewrite !lookup_insert_is_Some'; auto.
Qed.


Lemma agree_nil : agree pass [] [].
Proof. intros s t. split; [by intros ?%elem_of_nil|]. by intros (? & ?%elem_of_nil & _). Qed.

Lemma agree_app evs1 evs2 ds1 ds2 :
  agree pass evs1 ds1 → agree pass evs2 ds2 → agree pass (evs1 ++ evs2) (ds1 ++ ds2).
Proof.
  intros H1 H2 s t. rewrite elem_of_app, (H1 s t), (H2 s t). split.
  - intros [(ev & ? & ?)|(ev & ? & ?)]; exists ev; rewrite elem_of_app; auto.
  - intros (ev & [?|?]%elem_of_app & ?); [left|right]; by exists ev.
Qed.

Lemma agree_below (f : Node → list Event) (g : Node → list (string * Node)) l :
  Forall (λ n, agree pass (f n) (g n)) l → agree pass (flat_map f l) (flat_map g l).
Proof.
  induction 1 as [|n l Hn _ IH]; [apply agree_nil|]. simpl. by apply agree_app.
Qed.

Lemma agree_node n stack evs ds :
  (∀ s t, ¬ declares pass (mkEvent n true stack) s t) →
  agree pass evs ds →
  agree pass (mkEvent n true stack :: evs ++ [mkEvent n false stack]) ds.
Proof.
  intros Hn Hevs s t. rewrite (Hevs s t). split.
  - intros (ev & ? & ?). exists ev. split; [|done]. right. apply elem_of_app. by left.
  - intros (ev & [->|[?|Hpop%list_elem_of_singleton]%elem_of_app]%elem_of_cons & Hd).
    + by apply Hn in Hd.
    + by exists ev.
    + subst ev. by destruct Hd as [? _].
Qed.

Lemma agree_ident p s stack :
  agree pass [mkEvent (Ident p s) true stack; mkEvent (Ident p s) false stack] [].
Proof.
  apply (agree_node _ _ [] []); [|apply agree_nil].
  by intros s' t (_ & ? & ? & ? & ? & _).
Qed.

Lemma agree_app_l evs1 evs2 ds :
  agree pass evs1 [] → agree pass evs2 ds → agree pass (evs1 ++ evs2) ds.
Proof. intros H1 H2. by apply (agree_app evs1 evs2 [] ds). Qed.

Lemma agree_app_r evs1 evs2 ds :
  agree pass evs1 ds → agree pass evs2 [] → agree pass (evs1 ++ evs2) ds.
Proof.
  intros H1 H2. rewrite <-(app_nil_r ds). by apply agree_app.
Qed.

Lemma agree_typespec p name n stack evs :
  agree pass evs (declared pass n) →
  agree pass (mkEvent (TypeSpec p name n) true stack :: evs ++
         [mkEvent (TypeSpec p name n) false stack])
    (match n with
     | StructType _ Fields =>
         if existsb (embeds_section pass) Fields then [(name, n)] else []
     | _ => []
     end ++ declared pass n).
Proof.
  intros Hevs s t. rewrite elem_of_app, (Hevs s t). split.
  - intros [Hx|(ev & ? & ?)].
    + exists (mkEvent (TypeSpec p name n) true stack). split; [left|].
      split; [done|].
      destruct n; try by apply elem_of_nil in Hx.
      destruct (existsb _ _) eqn:Hemb; [|by apply elem_of_nil in Hx].
      apply list_elem_of_singleton in Hx as [= -> ->]. by eexists _, _, _.
    + exists ev. split; [|done]. right. apply elem_of_app. by left.
  - intros (ev & [->|[?|Hpop%list_elem_of_singleton]%elem_of_app]%elem_of_cons & Hd).
    + left. destruct Hd as (_ & p' & q & flds & [= <- <- <-] & Hn & Hemb).
      rewrite Hn, Hemb. rewrite <-Hn. left.
    + right. by exists ev.
    + subst ev. by destruct Hd as [? _].
Qed.

Ltac agreeing :=
  repeat match goal with
    | |- agree pass [] [] => apply agree_nil
    | |- agree pass (_ :: _ ++ [_]) _ =>
        apply agree_node; [by intros ? ? (_ & ? & ? & ? & ? & _)|]
    | |- agree pass [_; _] [] => apply agree_ident
    | |- agree pass ([_; _] ++ _) _ => apply agree_app_l
    | |- agree pass (_ ++ [_; _]) _ => apply agree_app_r
    | |- agree pass (_ ++ _) (_ ++ _) => apply agree_app
    | |- agree pass (flat_map _ _) (flat_map _ _) => apply agree_below
    | H : Forall (λ n, ∀ stack, agree pass (traverse stack n) _) ?l
      |- Forall (λ n, agree pass (traverse _ n) _) ?l =>
        apply (Forall_impl _ _ _ H); intros ? Hn; apply Hn
    | H : ∀ stack, agree pass (traverse stack ?X) _ |- agree pass (traverse _ ?X) _ =>
        apply H
    | H : from_option _ True ?t |- agree pass (match ?t with _ => _ end) _ =>
        destruct t; simpl in H
    end.

Lemma traverse_agree n :
  ∀ stack, agree pass (traverse stack n) (declared pass n).
Proof.
  induction n using Node_deep_ind; intros stack; cbn [traverse declared];
    try (apply agree_typespec; agreeing); agreeing.
Qed.

(** The catalog of a file holds exactly the struct type declarations of the
    file that have a field embedding the section, which are the
    declarations the traversal enters: each is registered under its name
    with its struct type and under its name behind a star with the pointer
    to it, a later declaration of a name replacing an earlier one.  The
    pending type that [identify] keeps is always taken by the name of its
    own declaration, so no other identifier enters the catalog. *)
Theorem catalog_holds_the_declarations f :
  (∀ s t, (s, t) ∈ declared pass f ↔
          ∃ ev, ev ∈ traverse [] f ∧ declares pass ev s t) ∧
  catalog pass f = fold_left (register pass) (declared pass f) ∅ ∧
  (∀ s t, (s, t) ∈ declared pass f →
          is_Some (catalog pass f !! s) ∧
          is_Some (catalog pass f !! ("*" +:+ s))) ∧
  (∀ k ty, catalog pass f !! k = Some ty →
           ∃ s t, (s, t) ∈ declared pass f ∧
                  ((k = s ∧ ty = TypeOf pass t) ∨
                   (k = "*" +:+ s ∧ ty = NewPointer (TypeOf pass t)))).
Proof.
  split; [apply traverse_agree|].
  split; [apply catalog_registers|]. rewrite catalog_registers. split.
  - intros s t. apply registers_has.
  - intros k ty [Hk|?]%registers_lookup; [|done].
    by rewrite lookup_empty in Hk.
Qed.

Lemma star_not_same s : "*" +:+ s ≠ s.
Proof.
  intros Hs. apply (f_equal String.length) in Hs.
  change (String.length ("*" +:+ s)) with (S (String.length s)) in Hs. lia.
Qed.

Lemma registers_snoc ds d m :
  registers pass (ds ++ [d]) m = register pass (registers pass ds m) d.
Proof. unfold registers. by rewrite fold_left_app. Qed.

Lemma registers_once ds m s t :
  (s, t) ∈ ds →
  (∀ t', (s, t') ∈ ds → TypeOf pass t' = TypeOf pass t) →
  (∀ s' t' r, (s', t') ∈ ds → s' ≠ "*" +:+ r) →
  registers pass ds m !! s = Some (TypeOf pass t) ∧
  registers pass ds m !! ("*" +:+ s) = Some (NewPointer (TypeOf pass t)).
Proof.
  induction ds as [|[s0 t0] ds IH] using rev_ind; [by intros ?%elem_of_nil|].
  intros Hin Hsame Hplain. rewrite registers_snoc. unfold register. simpl.
  destruct (decide (s0 = s)) as [->|Hne].
  - rewrite (Hsame t0) by (apply elem_of_app; right; left).
    rewrite lookup_insert_ne by apply star_not_same.
    by rewrite !lookup_insert_eq.
  - apply elem_of_app in Hin as [Hin|[=]%list_elem_of_singleton]; [|done].
    destruct IH as [IH1 IH2]; [done|..].
    { intros t' Ht'. apply Hsame, elem_of_app. by left. }
    { intros s' t' r Hs'. apply (Hplain s' t'), elem_of_app. by left. }
    assert (s0 ≠ "*" +:+ s) as H1
      by (apply (Hplain s0 t0 s), elem_of_app; right; left).
    assert (s ≠ "*" +:+ s0) as H2
      by (apply (Hplain s t s0), elem_of_app; by left).
    assert ("*" +:+ s0 ≠ "*" +:+ s) as H3
      by by intros Hs%(inj (String.append "*")).
    by rewrite !lookup_insert_ne by congruence.
Qed.

(** A struct type that embeds the section and whose name is declared with
    one type only is in the catalog under its name, and the pointer to it
    under its name behind a star, provided no declared name begins with a
    star, as no identifier of Go does.  So every expression of a type that
    converts to the struct type or to its pointer is matched. *)
Theorem declared_once_is_cataloged f s t :
  (s, t) ∈ declared pass f →
  (∀ t', (s, t') ∈ declared pass f → TypeOf pass t' = TypeOf pass t) →
  (∀ s' t' r, (s', t') ∈ declared pass f → s' ≠ "*" +:+ r) →
  catalog pass f !! s = Some (TypeOf pass t) ∧
  catalog pass f !! ("*" +:+ s) = Some (NewPointer (TypeOf pass t)) ∧
  ∀ ct, ConvertibleTo ct (TypeOf pass t) = true ∨
        ConvertibleTo ct (NewPointer (TypeOf pass t)) = true →
        matched (catalog pass f) ct.
Proof.
  intros Hin Hsame Hplain. rewrite catalog_registers.
  destruct (registers_once _ ∅ s t Hin Hsame Hplain) as [Hs Hp].
  split; [done|]. split; [done|]. intros ct [Hct|Hct].
  - by exists s, (TypeOf pass t).
  - by exists ("*" +:+ s), (NewPointer (TypeOf pass t)).
Qed.

(** ** One call of the callback in detail *)

Section Walks.

Variable critSecTypesByName : gmap string Ty.

Abbreviation permitted := (permitted graph critSecTypesByName).

Lemma instantiate_detail c n stack name st :
  let st' := instantiate pass graph c n stack name st in
  inspectedPos st' = inspectedPos st ∧
  critSecTypesUsed st' = {[name]} ∪ critSecTypesUsed st ∧
  (reports st' = reports st ∨
   ∃ nf, nearestFunction stack = Some nf ∧
         isFunctionInGraph pass graph (live_order c) nf = true ∧
         name ∈ critSecTypesUsed st ∧
         reports st' = reports st ++ [mkDiagnostic (NodePos n) msg_multiple]).
Proof.
  unfold instantiate. case_bool_decide as Hused; simpl.
  - assert (critSecTypesUsed st = {[name]} ∪ critSecTypesUsed st) as Hsame
      by set_solver.
    destruct (nearestFunction stack) as [nf|]; [|by split; [|split; [|left]]].
    destruct (isFunctionInGraph _ _ _ nf) eqn:Hlive;
      [|by split; [|split; [|left]]].
    split; [done|]. split; [done|]. right. by exists nf.
  - by split; [|split; [|left]].
Qed.

(** A call of the callback at a position not inspected before: the
    position is marked; a node that instantiates a type name is handled by
    [instantiate], whatever the catalog holds; any other node leaves the
    names used as they are, and reports nothing or one diagnostic that is
    justified and is not the report of a second instance. *)
Lemma inspect_detail c fuel ev st st' :
  permitted c → node_on_top ev →
  NodePos (ev_node ev) ∉ inspectedPos st →
  inspect pass graph critSecTypesByName c fuel ev st = Some st' →
  inspectedPos st' = {[NodePos (ev_node ev)]} ∪ inspectedPos st ∧
  match instantiated (ev_node ev) with
  | Some name =>
      st' = instantiate pass graph c (ev_node ev) (ev_stack ev) name
              (mark (NodePos (ev_node ev)) st)
  | None =>
      critSecTypesUsed st' = critSecTypesUsed st ∧
      (reports st' = reports st ∨
       ∃ msg nf,
         msg ≠ msg_multiple ∧
         reports st' = reports st ++ [mkDiagnostic (NodePos (ev_node ev)) msg] ∧
         nearestFunction (ev_stack ev) = Some nf ∧ live nf ∧
         justified pass graph critSecTypesByName (ev_node ev) nf msg)
  end.
Proof.
  intros Hc [below Htop] Hfresh. unfold inspect.
  rewrite bool_decide_false by done.
  destruct ev as [n push stack]. simpl in *.
  set (st0 := mark (NodePos n) st).
  assert (∀ name, instantiated n = Some name →
            inspectedPos (instantiate pass graph c n stack name st0) =
            {[NodePos n]} ∪ inspectedPos st) as Hmarked.
  { intros name _. by destruct (instantiate_detail c n stack name st0) as [-> _]. }
  assert (∀ msg, access_site pass critSecTypesByName n msg →
            check_access pass graph c fuel n stack msg st0 = Some st' →
            inspectedPos st' = {[NodePos n]} ∪ inspectedPos st ∧
            critSecTypesUsed st' = critSecTypesUsed st ∧
            (reports st' = reports st ∨
             ∃ msg nf,
               msg ≠ msg_multiple ∧
               reports st' = reports st ++ [mkDiagnostic (NodePos n) msg] ∧
               nearestFunction stack = Some nf ∧ live nf ∧
               justified pass graph critSecTypesByName n nf msg)) as Haccess.
  { intros msg Hsite. unfold check_access.
    destruct (nearestFunction stack) as [nf|] eqn:Hnf;
      [|intros [= <-]; by split; [|split; [|left]]].
    destruct (isFunctionInGraph _ _ _ nf) eqn:Hlive;
      [|intros [= <-]; by split; [|split; [|left]]].
    destruct (checkLease _ _ _ _ nf) as [[|]|] eqn:Hlease; simpl; [| |done];
      intros [= <-]; [by split; [|split; [|left]]|].
    split; [done|]. split; [done|]. right. exists msg, nf.
    split; [by destruct Hsite|]. split; [done|]. split; [done|].
    split; [by apply (live_order_live pass graph critSecTypesByName c)|].
    apply by_access; [done|]. destruct Hc as (_ & _ & Hv).
    intros Hg. by apply (checkLease_guarded _ _ _ _ _ _ Hv Hlease) in Hg. }
  destruct n as [p s|p X|X sp sel|t lb elts|p ps body|p np name ps body|names t
                |n0 names t vals|l0 lr tok r0 rr|p name t|p flds|p cs];
    cbn [switch]; try (simpl; intros [= <-]; by split; [|split; [|left]]).
  - simpl. destruct (found c _) eqn:Hfound;
      [|intros [= <-]; by split; [|split; [|left]]].
    destruct (String.eqb sel leaseFunction) eqn:Hsel;
      [intros [= <-]; by split; [|split; [|left]]|].
    apply Haccess. apply String.eqb_neq in Hsel.
    apply site_read; [|done]. by apply (found_matched graph _ c).
  - simpl. destruct ps as [ps|]; [|intros [= <-]; by split; [|split; [|left]]].
    destruct (isFunctionInGraph _ _ _ _) eqn:Hlive;
      [|intros [= <-]; by split; [|split; [|left]]].
    destruct (params_report _ _) eqn:Hps;
      intros [= <-]; [|by split; [|split; [|left]]].
    split; [done|]. split; [done|]. right.
    exists msg_param, (FuncDecl p np name (Some ps) body).
    split; [done|]. split; [done|].
    split; [rewrite Htop; apply nearestFunction_top|].
    split; [by apply (live_order_live pass graph critSecTypesByName c)|].
    by apply by_parameter.
  - destruct t as [[p' s'|p' X'|X' sp' sel'|t' lb' elts'|p' ps' body'
                   |p' np' name' ps' body'|names' t'|n1 names' t' vals'
                   |l0' lr' tok' r0' rr'|p' name' t'|p' flds'|p' cs']|];
      simpl; try (intros [= <-]; by split; [|split; [|left]]).
    intros [= <-]. split; [|done]. by apply (Hmarked s').
  - destruct (String.eqb tok ":=") eqn:Htok.
    + destruct r0 as [| | |[[p' s'|p' X'|X' sp' sel'|t' lb' elts'|p' ps' body'
                            |p' np' name' ps' body'|names' t'|n1 names' t' vals'
                            |l0' lr' tok' r0' rr'|p' name' t'|p' flds'|p' cs']|]
                          lb elts| | | | | | | |];
        simpl; rewrite ?Htok; try (intros [= <-]; by split; [|split; [|left]]).
      intros [= <-]. split; [|done]. apply (Hmarked s'). simpl. by rewrite Htok.
    + assert (instantiated (AssignStmt l0 lr tok r0 rr) = None) as ->.
      { simpl. destruct r0 as [| | |[[]|]| | | | | | | |]; try done.
        by rewrite Htok. }
      destruct (last_lhs l0 lr) as [p' s'|p' X'|X' sp' sel'|t' lb' elts'
                                   |p' ps' body'|p' np' name' ps' body'|names' t'
                                   |n1 names' t' vals'|l0' lr' tok' r0' rr'
                                   |p' name' t'|p' flds'|p' cs'] eqn:Hlast;
        try (intros [= <-]; by split; [|split; [|left]]).
      destruct (found c _) eqn:Hfound;
        [|intros [= <-]; by split; [|split; [|left]]].
      apply Haccess. apply String.eqb_neq in Htok.
      eapply site_write; [done|done|]. by apply (found_matched graph _ c).
Qed.

Lemma inspect_marks c fuel ev st st' :
  inspect pass graph critSecTypesByName c fuel ev st = Some st' →
  inspectedPos st' = {[NodePos (ev_node ev)]} ∪ inspectedPos st.
Proof.
  unfold inspect. case_bool_decide as Hseen.
  { intros [= <-]. set_solver. }
  destruct (switch _ _ _ _ _ _ _) as [s|msg] eqn:Hsw.
  - intros [= <-]. by destruct (switch_effect _ _ _ _ _ _ _ _ Hsw) as [-> _].
  - intros Hk. by destruct (check_access_effect _ _ _ _ _ _ _ _ _ Hk) as [-> _].
Qed.

(** ** The walk and the position test *)

(** A walk is the walk over the events it inspects: a call of the callback
    at a position that an earlier call has marked changes nothing, reports
    nothing and starts no search. *)
Theorem walk_skips_inspected c fuel evs st :
  walk pass graph critSecTypesByName c fuel evs st =
  walk pass graph critSecTypesByName c fuel
    (inspected_events (inspectedPos st) evs) st.
Proof.
  revert st. induction evs as [|ev evs IH]; intros st; [done|]. simpl.
  case_bool_decide as Hseen.
  - unfold inspect at 1. rewrite bool_decide_true by done. simpl. apply IH.
  - simpl. destruct (inspect _ _ _ _ _ ev st) as [st'|] eqn:Hi; [|done]. simpl.
    rewrite IH. by rewrite (inspect_marks _ _ _ _ _ Hi).
Qed.

(** ** What stands behind the diagnostics *)

Lemma inspects_justified ev st st' :
  node_on_top ev →
  inspects pass graph critSecTypesByName ev st st' →
  reports st' = reports st ∨
  ∃ msg nf,
    reports st' = reports st ++ [mkDiagnostic (NodePos (ev_node ev)) msg] ∧
    nearestFunction (ev_stack ev) = Some nf ∧ live nf ∧
    justified pass graph critSecTypesByName (ev_node ev) nf msg.
Proof.
  intros Htop (c & fuel & Hc & Hi).
  destruct (decide (NodePos (ev_node ev) ∈ inspectedPos st)) as [Hseen|Hfresh].
  { unfold inspect in Hi. rewrite bool_decide_true in Hi by done.
    left. congruence. }
  destruct (inspect_detail c fuel ev st st' Hc Htop Hfresh Hi) as [_ Hd].
  destruct (instantiated (ev_node ev)) as [name|] eqn:Hinst.
  - destruct (instantiate_detail c (ev_node ev) (ev_stack ev) name
                (mark (NodePos (ev_node ev)) st))
      as (_ & _ & [Hr|(nf & Hnf & Hlive & _ & Hr)]); rewrite <-Hd in *.
    + by left.
    + right. exists msg_multiple, nf. split; [done|]. split; [done|].
      split; [by apply (live_order_live pass graph critSecTypesByName c)|].
      by eapply by_instance.
  - destruct Hd as [_ [?|(msg & nf & _ & ? & ? & ? & ?)]]; [by left|].
    right. by exists msg, nf.
Qed.

Lemma walks_justified evs st st' :
  Forall node_on_top evs →
  walks pass graph critSecTypesByName evs st st' →
  ∃ new, reports st' = reports st ++ new ∧
         ∀ d, d ∈ new →
              ∃ ev nf, ev ∈ evs ∧ DPos d = NodePos (ev_node ev) ∧
                       nearestFunction (ev_stack ev) = Some nf ∧ live nf ∧
                       justified pass graph critSecTypesByName
                         (ev_node ev) nf (Message d).
Proof.
  intros Htop W. induction W as [st|ev evs st st' st'' Hi W IH].
  { exists []. split; [by rewrite app_nil_r|]. by intros d ?%elem_of_nil. }
  apply Forall_cons in Htop as [Hev Htop].
  destruct (IH Htop) as (new & Hr & Hnew).
  assert (∀ d, d ∈ new →
            ∃ ev0 nf, ev0 ∈ ev :: evs ∧ DPos d = NodePos (ev_node ev0) ∧
                      nearestFunction (ev_stack ev0) = Some nf ∧ live nf ∧
                      justified pass graph critSecTypesByName
                        (ev_node ev0) nf (Message d)) as Hnew'.
  { intros d (ev0 & nf & ? & ?)%Hnew. exists ev0, nf. split; [by right|done]. }
  destruct (inspects_justified ev st st' Hev Hi)
    as [Hsame|(msg & nf & Hone & Hnf & Hlive & Hj)].
  - exists new. split; [congruence|done].
  - exists (mkDiagnostic (NodePos (ev_node ev)) msg :: new). split.
    + rewrite Hr, Hone. by rewrite <-app_assoc.
    + intros d [->|Hd]%elem_of_cons; [|by apply Hnew'].
      exists ev, nf. split; [left|done].
Qed.

(** ** The names used *)

(** [instantiated] computes the relation [instantiation]. *)
Lemma instantiated_instantiation n name :
  instantiated n = Some name ↔ instantiation n name.
Proof.
  split.
  - destruct n as [| | | | | | |n0 names [[]|] vals
                  |l0 lr tok [| | |[[]|]| | | | | | | |] rr| | |];
      simpl; try done.
    + intros [= ->]. constructor.
    + destruct (String.eqb tok ":=") eqn:Htok; [|done].
      apply String.eqb_eq in Htok as ->. intros [= ->]. constructor.
  - by intros [].
Qed.

Lemma inspects_records ev st st' :
  node_on_top ev →
  inspects pass graph critSecTypesByName ev st st' →
  NodePos (ev_node ev) ∉ inspectedPos st →
  critSecTypesUsed st' =
  critSecTypesUsed st ∪
  match instantiated (ev_node ev) with Some name => {[name]} | None => ∅ end.
Proof.
  intros Htop (c & fuel & Hc & Hi) Hfresh.
  destruct (inspect_detail c fuel ev st st' Hc Htop Hfresh Hi) as [_ Hd].
  destruct (instantiated (ev_node ev)) as [name|].
  - destruct (instantiate_detail c (ev_node ev) (ev_stack ev) name
                (mark (NodePos (ev_node ev)) st)) as (_ & Hu & _).
    rewrite <-Hd in Hu. rewrite Hu. simpl. set_solver.
  - destruct Hd as [-> _]. set_solver.
Qed.

End Walks.


(** Every diagnostic of the walk for a file lies at a node of the files,
    inside a function that is live, and has its reason there: a parameter
    of a type of the catalog at a function declaration, an access site in a
    function that no search finds guarded, or the instantiation of a type
    name.  Nothing is reported at a node outside every function, and
    nothing at a node of another kind. *)
Theorem every_diagnostic_is_justified f ds :
  analyses pass graph f ds →
  ∀ d, d ∈ ds →
    ∃ ev nf, ev ∈ events (Files pass) ∧ DPos d = NodePos (ev_node ev) ∧
             nearestFunction (ev_stack ev) = Some nf ∧ live nf ∧
             justified pass graph (catalog pass f) (ev_node ev) nf (Message d).
Proof.
  intros (st & W & <-).
  destruct (walks_justified _ _ _ _ (events_node_on_top _) W) as (new & -> & Hnew).
  apply Hnew.
Qed.

Lemma params_report_empty ps : params_report (∅ : gmap string Ty) ps = false.
Proof.
  induction ps as [|q ps IH]; [done|]. simpl.
  destruct q as [| | | | | |names [| p [] | | | | | | | | | |]| | | | |];
    try done; by rewrite lookup_empty, bool_decide_false by by intros [? ?].
Qed.

(** A file that declares no struct type embedding the section has an empty
    catalog, and the walk for it reports second instances only: no
    parameter, no access and no assignment. *)
Theorem no_declaration_no_access_report f ds :
  declared pass f = [] →
  analyses pass graph f ds →
  catalog pass f = ∅ ∧ ∀ d, d ∈ ds → Message d = msg_multiple.
Proof.
  intros Hnone (st & W & <-).
  assert (catalog pass f = ∅) as Hempty by by rewrite catalog_registers, Hnone.
  split; [done|]. rewrite Hempty in W.
  destruct (walks_justified _ _ _ _ (events_node_on_top _) W) as (new & -> & Hnew).
  intros d (ev & nf & _ & _ & _ & _ & Hj)%Hnew.
  destruct Hj as [p np name ps body Hps|n nf' msg Hsite _|]; [| |done].
  - by rewrite params_report_empty in Hps.
  - destruct Hsite as [X p sel (name & t & Hn & _) _
                      |l0 lr tok r0 rr X p sel _ _ (name & t & Hn & _)];
      by rewrite lookup_empty in Hn.
Qed.

(** After a walk the names used are the names used before and the names
    of the instantiations among the inspected events: every instantiation
    the callback inspects is recorded, whether its function is live or not
    and whether the catalog holds the name or not, and nothing else is. *)
Theorem names_used_are_the_instantiations cat evs st st' :
  Forall node_on_top evs →
  walks pass graph cat evs st st' →
  critSecTypesUsed st' =
  critSecTypesUsed st ∪
  list_to_set (omap (λ ev, instantiated (ev_node ev))
                 (inspected_events (inspectedPos st) evs)).
Proof.
  intros Htop W. induction W as [st|ev evs st st' st'' Hi W IH]; simpl.
  { set_solver. }
  apply Forall_cons in Htop as [Hev Htop]. rewrite (IH Htop).
  destruct (inspects_effect _ _ _ _ _ _ Hi) as [Hmarked _].
  case_bool_decide as Hseen.
  - destruct Hi as (c & fuel & _ & Hi). unfold inspect in Hi.
    rewrite bool_decide_true in Hi by done. by simplify_eq.
  - rewrite Hmarked, (inspects_records _ _ _ _ Hev Hi Hseen). simpl.
    destruct (instantiated (ev_node ev)); set_solver.
Qed.

Lemma analyses_evaluated fuel f st :
  walk pass graph (catalog pass f) (plain graph (catalog pass f)) fuel
    (events (Files pass)) initial = Some st →
  analyses pass graph f (reports st).
Proof.
  intros W. exists st. split; [|done].
  eapply walk_walks; [apply plain_permitted|done].
Qed.

(** ** The reports of a second instance, file after file *)

Lemma multiples_app ds1 ds2 : multiples (ds1 ++ ds2) = multiples ds1 ++ multiples ds2.
Proof. apply filter_app. Qed.

Lemma multiples_other pos msg :
  msg ≠ msg_multiple → multiples [mkDiagnostic pos msg] = [].
Proof. intros Hmsg. unfold multiples. by rewrite filter_cons_False. Qed.

Lemma inspects_multiples cat1 cat2 ev s1 s1' s2 s2' :
  node_on_top ev →
  inspects pass graph cat1 ev s1 s1' → inspects pass graph cat2 ev s2 s2' →
  inspectedPos s1 = inspectedPos s2 →
  critSecTypesUsed s1 = critSecTypesUsed s2 →
  multiples (reports s1) = multiples (reports s2) →
  inspectedPos s1' = inspectedPos s2' ∧
  critSecTypesUsed s1' = critSecTypesUsed s2' ∧
  multiples (reports s1') = multiples (reports s2').
Proof.
  intros Htop (c1 & f1 & Hc1 & H1) (c2 & f2 & Hc2 & H2) Hpos Hused Hmult.
  destruct (decide (NodePos (ev_node ev) ∈ inspectedPos s1)) as [Hseen|Hfresh].
  { unfold inspect in H1, H2. rewrite bool_decide_true in H1 by done.
    rewrite bool_decide_true in H2 by by rewrite <-Hpos. by simplify_eq. }
  assert (NodePos (ev_node ev) ∉ inspectedPos s2) as Hfresh2 by by rewrite <-Hpos.
  destruct (inspect_detail cat1 c1 f1 ev s1 s1' Hc1 Htop Hfresh H1) as [Hm1 Hd1].
  destruct (inspect_detail cat2 c2 f2 ev s2 s2' Hc2 Htop Hfresh2 H2) as [Hm2 Hd2].
  split; [by rewrite Hm1, Hm2, Hpos|].
  destruct (instantiated (ev_node ev)) as [name|].
  - subst s1' s2'. unfold instantiate. simpl. rewrite <-Hused.
    case_bool_decide; [|done].
    destruct (nearestFunction (ev_stack ev)) as [nf|]; [|done].
    destruct Hc1 as (_ & Hv1 & _), Hc2 as (_ & Hv2 & _).
    rewrite (isFunctionInGraph_any_order _ _ _ nf Hv1),
            (isFunctionInGraph_any_order _ _ _ nf Hv2).
    destruct (isFunctionInGraph _ _ _ nf); [|done]. simpl.
    split; [done|]. by rewrite !multiples_app, Hmult.
  - destruct Hd1 as [Hu1 Hr1], Hd2 as [Hu2 Hr2].
    split; [by rewrite Hu1, Hu2|].
    assert (multiples (reports s1') = multiples (reports s1)) as ->.
    { destruct Hr1 as [->|(msg & nf & Hmsg & -> & _)]; [done|].
      by rewrite multiples_app, multiples_other, app_nil_r. }
    assert (multiples (reports s2') = multiples (reports s2)) as ->; [|done].
    destruct Hr2 as [->|(msg & nf & Hmsg & -> & _)]; [done|].
    by rewrite multiples_app, multiples_other, app_nil_r.
Qed.

Lemma walks_multiples cat1 cat2 evs s1 s1' s2 s2' :
  Forall node_on_top evs →
  walks pass graph cat1 evs s1 s1' → walks pass graph cat2 evs s2 s2' →
  inspectedPos s1 = inspectedPos s2 →
  critSecTypesUsed s1 = critSecTypesUsed s2 →
  multiples (reports s1) = multiples (reports s2) →
  multiples (reports s1') = multiples (reports s2').
Proof.
  intros Htop W1. revert s2 s2'.
  induction W1 as [s1|ev evs s1 s1' s1'' Hi1 W1 IH]; intros s2 s2'' W2.
  { by inversion W2. }
  inversion W2 as [|? ? ? s2' ? Hi2 W2']; subst.
  apply Forall_cons in Htop as [Hev Htop]. intros Hpos Hused Hmult.
  destruct (inspects_multiples _ _ _ _ _ _ _ Hev Hi1 Hi2 Hpos Hused Hmult)
    as (? & ? & ?).
  by apply (IH Htop s2').
Qed.

(** The loop of [run] walks every file of the pass once for each file, and
    a report of a second instance does not depend on the catalog of the file
    the walk is made for: a run over several files reports each second
    instance once for every file of the pass. *)
Theorem second_instances_repeat_for_every_file fs ds f0 ds0 :
  runs_over pass graph fs ds →
  analyses pass graph f0 ds0 →
  multiples ds = mjoin (replicate (length fs) (multiples ds0)).
Proof.
  intros R (st0 & W0 & <-).
  induction R as [|f fs ds ds' (st & W & <-) R IH]; [done|].
  simpl. rewrite multiples_app, IH. f_equal.
  by apply (walks_multiples _ _ _ _ _ _ _ (events_node_on_top _) W W0).
Qed.

End Further.

(** * The lease of package crit *)

Section LeaseProperties.

Context {D E : Type}.

Implicit Types (s : crit.Guarded D) (g : crit.Goroutine D E)
  (gs : list (crit.Goroutine D E)) (f c : crit.Code D E)
  (d : D) (fs : list (crit.Code D E))
  (p q : crit.Guarded D * list (crit.Goroutine D E)).

Lemma exclusive_start d fs : exclusive (crit.start d fs).
Proof.
  unfold crit.start. change (map crit.Lease fs) with (@crit.Lease D E <$> fs).
  split; [|split]; simpl.
  - intros g (f & -> & _)%list_elem_of_fmap. simpl. lia.
  - split; [done|]. by intros (g & (f & -> & _)%list_elem_of_fmap & ?).
  - intros i j gi gj Hi _ Hh.
    apply list_lookup_fmap_Some in Hi as (f & -> & _). done.
Qed.

Lemma exclusive_update s gs i g s' g' :
  exclusive (s, gs) → gs !! i = Some g → well_nested g' →
  (crit.holds g' = crit.holds g ∧ crit.lock s' = crit.lock s) ∨
  (crit.holds g = false ∧ crit.holds g' = true ∧
   crit.lock s = false ∧ crit.lock s' = true) ∨
  (crit.holds g = true ∧ crit.holds g' = false ∧ crit.lock s' = false) →
  exclusive (s', <[i:=g']> gs).
Proof.
  intros (Hwf & Hlock & Hone) Hi Hg' Hcase. simpl in *.
  assert (i < length gs) as Hlt by by eapply lookup_lt_Some.
  assert (∀ j gj, <[i:=g']> gs !! j = Some gj →
                  (j = i ∧ gj = g') ∨ (j ≠ i ∧ gs !! j = Some gj)) as Hlook.
  { intros j gj [(-> & -> & _)|[? ?]]%list_lookup_insert_Some; auto. }
  assert (∀ j gj, gs !! j = Some gj → crit.holds gj = true →
                  crit.lock s = true) as Hheld.
  { intros j gj Hj Hh. apply Hlock. exists gj. split; [|done].
    by eapply list_elem_of_lookup_2. }
  split; [|split]; simpl.
  - intros g0 (j & [[-> ->]|[_ Hj]]%Hlook)%list_elem_of_lookup; [done|].
    apply Hwf. by eapply list_elem_of_lookup_2.
  - split.
    + intros Hl. destruct Hcase as [[Hh Hs]|[(_ & Hh & _)|(_ & _ & Hs)]];
        [|exists g'; split; [|done]|congruence].
      * rewrite Hs in Hl. apply Hlock in Hl as (g0 & (j & Hj)%list_elem_of_lookup & Hg0).
        destruct (decide (j = i)) as [->|Hne].
        -- exists g'. split; [|simplify_eq; congruence].
           eapply list_elem_of_lookup_2. by apply list_lookup_insert_eq.
        -- exists g0. split; [|done]. eapply list_elem_of_lookup_2.
           by rewrite list_lookup_insert_ne.
      * eapply list_elem_of_lookup_2. by apply list_lookup_insert_eq.
    + intros (g0 & (j & [[-> ->]|[Hne Hj]]%Hlook)%list_elem_of_lookup & Hg0).
      * destruct Hcase as [[Hh ->]|[(_ & _ & _ & ?)|(_ & ? & _)]];
          [|done|congruence]. apply (Hheld i g); [done|congruence].
      * pose proof (Hheld j g0 Hj Hg0) as Hl.
        destruct Hcase as [[_ ->]|[(_ & _ & ? & _)|(Hh & _ & _)]];
          [done|congruence|]. by destruct Hne; apply (Hone j i g0 g).
  - intros j1 j2 g1 g2 [[-> ->]|[Hn1 H1]]%Hlook [[-> ->]|[Hn2 H2]]%Hlook Hh1 Hh2;
      [done| | |by eapply Hone].
    + pose proof (Hheld j2 g2 H2 Hh2) as Hl.
      destruct Hcase as [[Hh _]|[(_ & _ & ? & _)|(_ & ? & _)]]; [|congruence..].
      apply (Hone i j2 g g2); [done..|congruence|done].
    + pose proof (Hheld j1 g1 H1 Hh1) as Hl.
      destruct Hcase as [[Hh _]|[(_ & _ & ? & _)|(_ & ? & _)]]; [|congruence..].
      apply (Hone j1 i g1 g); [done..|congruence].
Qed.

Lemma exclusive_step p q : exclusive p → crit.step p q → exclusive q.
Proof.
  destruct p as [s gs], q as [s' gs'].
  intros Hex (i & g & g' & Hi & Hexec & Hq). simpl in *. subst gs'.
  pose proof Hex as (Hwf & Hlock & Hone). simpl in *.
  assert (well_nested g) as Hg by (apply Hwf; by eapply list_elem_of_lookup_2).
  assert (crit.holds g = true → crit.lock s = true) as Hheld.
  { intros Hh. apply Hlock. exists g. split; [by eapply list_elem_of_lookup_2|done]. }
  assert (crit.lock s = false → ∀ g0, g0 ∈ gs → crit.holds g0 = false) as Hfree.
  { intros Hl g0 Hg0. destruct (crit.holds g0) eqn:Hh; [|done].
    assert (crit.lock s = true) by (apply Hlock; by exists g0). congruence. }
  destruct g as [f ks|c ks|err|ks|]; simpl in Hexec, Hg; try done.
  - unfold crit.Lock in Hexec. destruct (crit.lock s) eqn:Hl; [done|].
    simplify_eq/=.
    assert (ks = []) as ->.
    { destruct ks as [|k ks]; [done|].
      by specialize (Hfree eq_refl _ (list_elem_of_lookup_2 _ _ _ Hi)). }
    eapply exclusive_update; [done..|]. right. left. done.
  - subst ks. assert (crit.lock s = true) as Hl by by apply Hheld.
    destruct c as [err|a k| |f k]; simpl in Hexec; unfold crit.Unlock in Hexec;
      rewrite ?Hl in Hexec; simplify_eq/=.
    + eapply exclusive_update; [done..|]. right. right. done.
    + eapply exclusive_update; [done..|]. left. done.
    + eapply exclusive_update; [done..|]. right. right. done.
    + eapply exclusive_update; [done| done |simpl; lia|]. left. done.
  - by subst ks.
Qed.

Lemma exclusive_reachable d fs p :
  rtc crit.step (crit.start d fs) p → exclusive p.
Proof.
  revert p. apply rtc_ind_r; [apply exclusive_start|].
  intros p q _ Hstep Hp. by eapply exclusive_step.
Qed.

Lemma schedule_steps turns p q :
  crit.schedule turns p = Some q → rtc (@crit.step D E) p q.
Proof.
  revert p. induction turns as [|i turns IH]; intros p; simpl.
  { by intros [= <-]. }
  destruct (crit.step_at i p) as [p'|] eqn:Hstep; [|done]. simpl. intros Hq.
  apply (rtc_l _ _ p'); [|by apply IH].
  unfold crit.step_at in Hstep.
  destruct (p.2 !! i) as [g|] eqn:Hg; [|done]. simpl in Hstep.
  destruct (crit.exec p.1 g) as [[s' g']|] eqn:Hexec; [|done].
  simpl in Hstep. injection Hstep as <-. by exists i, g, g'.
Qed.

(** Mutual exclusion: whatever the goroutines that call [Lease] on one
    section have done, one of them at most is inside its callback, and the
    mutex is locked exactly when one is: [Lease] has released it on every
    way out of the callback, a panic included.  No goroutine has unlocked a
    mutex that was not locked. *)
Theorem lease_is_exclusive d fs s gs :
  rtc crit.step (crit.start d fs) (s, gs) →
  (crit.Fatal ∉ gs) ∧
  (crit.lock s = true ↔ ∃ g, g ∈ gs ∧ crit.holds g = true) ∧
  (∀ i j gi gj, gs !! i = Some gi → gs !! j = Some gj →
                crit.holds gi = true → crit.holds gj = true → i = j).
Proof.
  intros (Hwf & Hlock & Hone)%exclusive_reachable. split; [|done].
  intros Hf. by apply Hwf in Hf.
Qed.

(** [Lease] is not reentrant: a goroutine that calls [Lease] inside a
    callback of a lease of the same section waits for the mutex it holds
    itself, and stays there whatever the other goroutines do. *)
Theorem lease_is_not_reentrant d fs s gs i f k ks s' gs' :
  rtc crit.step (crit.start d fs) (s, gs) →
  gs !! i = Some (crit.Calling f (k :: ks)) →
  rtc crit.step (s, gs) (s', gs') →
  gs' !! i = Some (crit.Calling f (k :: ks)).
Proof.
  intros Hreach Hi Hsteps.
  change (gs' !! i) with ((s', gs').2 !! i). revert Hsteps.
  generalize (s', gs'). clear s' gs'.
  apply (rtc_ind_r (λ q, q.2 !! i = Some (crit.Calling f (k :: ks))));
    [done|].
  intros [s1 gs1] [s' gs'] Hsteps Hstep IH. simpl in IH.
  assert (exclusive (s1, gs1)) as (_ & Hlock & Hone).
  { eapply exclusive_reachable. by etrans. }
  destruct Hstep as (j & g & g' & Hj & Hexec & Hq). simpl in *. subst gs'.
  destruct (decide (j = i)) as [->|Hne]; [|by rewrite list_lookup_insert_ne].
  simplify_eq. simpl in Hexec. unfold crit.Lock in Hexec.
  assert (crit.lock s1 = true) as Hl.
  { apply Hlock. eexists. split; [by eapply list_elem_of_lookup_2|done]. }
  by rewrite Hl in Hexec.
Qed.

(** [Lease] does not block by itself: as long as some goroutine has not
    left [Lease] and none waits inside a callback for the mutex it holds,
    some goroutine can make a step. *)
Theorem lease_makes_progress d fs s gs :
  rtc crit.step (crit.start d fs) (s, gs) →
  (∃ g, g ∈ gs ∧ crit.finished g = false) →
  (∀ g, g ∈ gs → crit.nested g = false) →
  ∃ q, crit.step (s, gs) q.
Proof.
  intros (Hwf & Hlock & _)%exclusive_reachable (g & Hg & Hfin) Hnested.
  simpl in *. destruct (crit.lock s) eqn:Hl.
  - destruct (proj1 Hlock eq_refl) as (h & Hh & Hholds).
    pose proof (Hwf _ Hh) as Hwfh. pose proof (Hnested _ Hh) as Hn.
    apply list_elem_of_lookup in Hh as [i Hi].
    destruct h as [f ks|c ks|err|ks|]; simpl in *; try done.
    { by destruct ks. }
    subst ks.
    destruct (crit.exec s (crit.Running c [])) as [[s' g']|] eqn:Hexec.
    + exists (s', <[i:=g']> gs), i, (crit.Running c []), g'. by simpl.
    + destruct c; simpl in Hexec; unfold crit.Unlock in Hexec;
        rewrite ?Hl in Hexec; done.
  - assert (crit.holds g = false) as Hholds.
    { destruct (crit.holds g) eqn:Hh; [|done].
      assert (false = true) as ?; [|done]. apply Hlock. by exists g. }
    pose proof (Hwf _ Hg) as Hwfg.
    apply list_elem_of_lookup in Hg as [i Hi].
    destruct g as [f ks|c ks|err|ks|]; simpl in *; try done.
    + destruct ks; [|done].
      exists (crit.mkGuarded true (crit.fields s), <[i:=crit.Running f []]> gs),
        i, (crit.Calling f []), (crit.Running f []).
      split; [done|]. split; [|done]. simpl. unfold crit.Lock. by rewrite Hl.
    + by subst ks.
Qed.

Lemma serial_start d fs : serial fs d (crit.start d fs).
Proof.
  unfold crit.start. change (map crit.Lease fs) with (@crit.Lease D E <$> fs).
  exists []. simpl. split; [constructor|]. split; [by rewrite length_fmap|].
  split; [|split; [|done]].
  - intros i. split; [by intros ?%elem_of_nil|].
    by intros (g & (f & -> & _)%list_lookup_fmap_Some & ?).
  - intros i g (f & -> & Hf)%list_lookup_fmap_Some. by exists f.
Qed.

Lemma in_turn_snoc fs done i f (d : D) :
  fs !! i = Some f →
  crit.in_turn fs (done ++ [i]) d = crit.effect f (crit.in_turn fs done d).
Proof.
  intros Hf. unfold crit.in_turn. rewrite fold_left_app. simpl. by rewrite Hf.
Qed.

Lemma serial_step fs d0 p q :
  exclusive p → serial fs d0 p → crit.step p q → serial fs d0 q.
Proof.
  destruct p as [s gs], q as [s' gs'].
  intros (Hwf & Hlock & Hone) (done & Hnd & Hlen & Hdone & Hgs & Hidle)
    (i & g & g' & Hi & Hexec & Hq). simpl in *. subst gs'.
  assert (i < length gs) as Hlt by by eapply lookup_lt_Some.
  assert (well_nested g) as Hg by (apply Hwf; by eapply list_elem_of_lookup_2).
  assert (∀ j gj, <[i:=g']> gs !! j = Some gj →
                  (j = i ∧ gj = g') ∨ (j ≠ i ∧ gs !! j = Some gj)) as Hlook.
  { intros j gj [(-> & -> & _)|[? ?]]%list_lookup_insert_Some; auto. }
  assert (crit.lock s = false → ∀ g0, g0 ∈ gs → crit.holds g0 = false) as Hfree.
  { intros Hl g0 Hg0. destruct (crit.holds g0) eqn:Hh; [|done].
    assert (crit.lock s = true) by (apply Hlock; by exists g0). congruence. }
  assert (crit.holds g = true → ∀ j gj, j ≠ i → gs !! j = Some gj →
          crit.holds gj = false) as Hothers.
  { intros Hh j gj Hne Hj. destruct (crit.holds gj) eqn:Hhj; [|done].
    by destruct Hne; apply (Hone j i gj g). }
  assert (crit.finished g = false → crit.finished g' = false →
          ∀ j, j ∈ done ↔
               ∃ g0, <[i:=g']> gs !! j = Some g0 ∧ crit.finished g0 = true)
    as Hsame.
  { intros Hf Hf' j. rewrite Hdone. split.
    - intros (g0 & Hj & Hg0). exists g0. split; [|done].
      rewrite list_lookup_insert_ne; [done|]. intros ->. congruence.
    - intros (g0 & [[-> ->]|[_ Hj]]%Hlook & Hg0); [congruence|]. by exists g0. }
  assert (crit.holds g = true → crit.finished g' = true →
          NoDup (done ++ [i]) ∧
          ∀ j, j ∈ done ++ [i] ↔
               ∃ g0, <[i:=g']> gs !! j = Some g0 ∧ crit.finished g0 = true)
    as Hmore.
  { intros Hh Hf'. split.
    - apply NoDup_app. split; [done|]. split; [|apply NoDup_singleton].
      intros j Hj ->%list_elem_of_singleton.
      apply Hdone in Hj as (g0 & ? & Hg0). simplify_eq.
      by destruct g as [? [|]| | | |].
    - intros j. rewrite elem_of_app, list_elem_of_singleton, Hdone. split.
      + intros [(g0 & Hj & Hg0)| ->].
        * exists g0. split; [|done]. rewrite list_lookup_insert_ne; [done|].
          intros ->. simplify_eq. by destruct g as [? [|]| | | |].
        * exists g'. split; [|done]. by apply list_lookup_insert_eq.
      + intros (g0 & [[-> ->]|[_ Hj]]%Hlook & Hg0); [by right|].
        left. by exists g0. }
  destruct (Hgs i g Hi) as (f0 & Hf0 & Hcond).
  destruct g as [f ks|c ks|err|ks|]; simpl in Hexec, Hg; try done.
  - unfold crit.Lock in Hexec. destruct (crit.lock s) eqn:Hl; [done|].
    simplify_eq/=.
    assert (ks = []) as ->.
    { destruct ks as [|k ks]; [done|].
      by specialize (Hfree eq_refl _ (list_elem_of_lookup_2 _ _ _ Hi)). }
    subst f0. exists done. simpl. split; [done|].
    split; [by rewrite length_insert|]. split; [by apply Hsame|]. split.
    + intros j gj [[-> ->]|[Hne Hj]]%Hlook; [|by apply Hgs].
      exists f. split; [done|]. by rewrite Hidle by by apply Hfree.
    + intros Hnone. specialize (Hnone (crit.Running f [])). simpl in Hnone.
      assert (true = false) as ?; [|done]. apply Hnone.
      eapply list_elem_of_lookup_2. by apply list_lookup_insert_eq.
  - subst ks.
    assert (crit.lock s = true) as Hl.
    { apply Hlock. eexists. split; [by eapply list_elem_of_lookup_2|done]. }
    pose proof (Hothers eq_refl) as Hnot.
    assert (∀ fields' done' j gj,
              j ≠ i → gs !! j = Some gj →
              ∃ f, fs !! j = Some f ∧
                   match gj with
                   | crit.Calling f' [] => f' = f
                   | crit.Running c _ =>
                       crit.effect c fields' =
                       crit.effect f (crit.in_turn fs done' d0)
                   | crit.Calling _ (_ :: _) =>
                       fields' = crit.effect f (crit.in_turn fs done' d0)
                   | _ => True
                   end) as Hrest.
    { intros fields' done' j gj Hne Hj. pose proof (Hnot j gj Hne Hj) as Hh.
      destruct (Hgs j gj Hj) as (f & Hf & Hc). exists f. split; [done|].
      by destruct gj as [? [|]| | | |]. }
    destruct c as [err|a k| |f k]; simpl in Hexec; unfold crit.Unlock in Hexec;
      rewrite ?Hl in Hexec; simplify_eq/=.
    + destruct Hmore as [Hnd' Hdone']; [done..|].
      exists (done ++ [i]). simpl. split; [done|].
      split; [by rewrite length_insert|]. split; [done|]. split.
      * intros j gj [[-> ->]|[Hne Hj]]%Hlook; [by exists f0|by apply Hrest].
      * intros _. by rewrite (in_turn_snoc _ _ _ f0).
    + exists done. simpl. split; [done|].
      split; [by rewrite length_insert|]. split; [by apply Hsame|]. split.
      * intros j gj [[-> ->]|[Hne Hj]]%Hlook; [by exists f0|by apply Hrest].
      * intros Hnone. specialize (Hnone (crit.Running k [])). simpl in Hnone.
        assert (true = false) as ?; [|done]. apply Hnone.
        eapply list_elem_of_lookup_2. by apply list_lookup_insert_eq.
    + destruct Hmore as [Hnd' Hdone']; [done..|].
      exists (done ++ [i]). simpl. split; [done|].
      split; [by rewrite length_insert|]. split; [done|]. split.
      * intros j gj [[-> ->]|[Hne Hj]]%Hlook; [by exists f0|by apply Hrest].
      * intros _. by rewrite (in_turn_snoc _ _ _ f0).
    + exists done. simpl. split; [done|].
      split; [by rewrite length_insert|]. split; [by apply Hsame|]. split.
      * intros j gj [[-> ->]|[Hne Hj]]%Hlook; [by exists f0|by apply Hrest].
      * intros Hnone. specialize (Hnone (crit.Calling f [k])). simpl in Hnone.
        assert (true = false) as ?; [|done]. apply Hnone.
        eapply list_elem_of_lookup_2. by apply list_lookup_insert_eq.
  - by subst ks.
Qed.

Lemma serial_reachable d fs p :
  rtc crit.step (crit.start d fs) p → exclusive p ∧ serial fs d p.
Proof.
  revert p. apply rtc_ind_r; [split; [apply exclusive_start|apply serial_start]|].
  intros p q _ Hstep [Hex Hser].
  split; [by eapply exclusive_step|by eapply serial_step].
Qed.

(** The callbacks are serialized: when every goroutine has left [Lease],
    the fields are what the callbacks leave when they run one after the
    other, each from its start to its return or its panic, in some order of
    the goroutines. *)
Theorem lease_serializes_the_callbacks d fs s gs :
  rtc crit.step (crit.start d fs) (s, gs) →
  Forall (λ g, crit.finished g = true) gs →
  ∃ order, order ≡ₚ seq 0 (length fs) ∧
           crit.fields s = crit.in_turn fs order d.
Proof.
  intros [(_ & Hlock & _) (done & Hnd & Hlen & Hdone & _ & Hidle)]%serial_reachable
    Hall. simpl in *. rewrite Forall_forall in Hall.
  exists done. split.
  - apply NoDup_Permutation; [done|apply NoDup_seq|].
    intros i. rewrite Hdone, elem_of_seq, <-Hlen. split.
    + intros (g & Hg%lookup_lt_Some & _). lia.
    + intros [_ Hi]. destruct (lookup_lt_is_Some_2 gs i) as [g Hg]; [lia|].
      exists g. split; [done|]. apply Hall. by eapply list_elem_of_lookup_2.
  - apply Hidle. intros g Hg. specialize (Hall g Hg). by destruct g as [? [|]| | | |].
Qed.

Lemma faithful_step fs p q :
  exclusive p → faithful fs p → crit.step p q → faithful fs q.
Proof.
  destruct p as [s gs], q as [s' gs'].
  intros (Hwf & Hlock & _) Hgs (i & g & g' & Hi & Hexec & Hq).
  simpl in *. subst gs'.
  intros j gj [(<- & <- & _)|[Hne Hj]]%list_lookup_insert_Some; [|by apply Hgs].
  destruct (Hgs i g Hi) as (f0 & Hf0 & Hcond). exists f0. split; [done|].
  assert (well_nested g) as Hg by (apply Hwf; by eapply list_elem_of_lookup_2).
  assert (crit.holds g = true → crit.lock s = true) as Hheld.
  { intros Hh. apply Hlock. exists g. split; [by eapply list_elem_of_lookup_2|done]. }
  destruct g as [f ks|c ks|err|ks|]; simpl in Hexec, Hg; try done.
  - unfold crit.Lock in Hexec. destruct (crit.lock s) eqn:Hl; [done|].
    simplify_eq/=. destruct ks as [|k ks]; [by subst|].
    by specialize (Hheld eq_refl).
  - subst ks. assert (crit.lock s = true) as Hl by by apply Hheld.
    destruct c as [err|a k| |f k]; simpl in Hexec; unfold crit.Unlock in Hexec;
      rewrite ?Hl in Hexec; by simplify_eq/=.
  - by subst ks.
Qed.

(** [Lease] returns what its callback returns: a goroutine that has
    returned from [Lease] with an error had a callback that returns this
    error, and a goroutine that left [Lease] by a panic had a callback that
    panics. *)
Theorem lease_returns_the_error_of_its_callback d fs s gs i g :
  rtc crit.step (crit.start d fs) (s, gs) →
  gs !! i = Some g → crit.finished g = true →
  ∃ f, fs !! i = Some f ∧
       crit.outcome f = Some (match g with
                              | crit.Returned err => Some err
                              | _ => None
                              end).
Proof.
  intros Hreach Hi Hfin.
  assert (faithful fs (s, gs)) as Hgs.
  { revert Hreach. generalize (s, gs).
    apply rtc_ind_r.
    - unfold crit.start.
      change (map crit.Lease fs) with (@crit.Lease D E <$> fs).
      intros j gj (f & -> & Hf)%list_lookup_fmap_Some. by exists f.
    - intros p q Hp Hstep IH. eapply faithful_step; [|done..].
      by apply (exclusive_reachable d fs). }
  destruct (Hgs i g Hi) as (f & Hf & Hcond). exists f. split; [done|].
  by destruct g as [? [|]| |?|[|]|].
Qed.

End LeaseProperties.

(** * The further properties on the example programs *)

(** ** The caller walk *)

Lemma looping_callers_known : callers_known looping.graph looping.loop_calls.
Proof.
  split; [compute_done|]. intros r inn Hr Hin.
  assert (Forall (λ r, Forall (λ inn, Caller inn ∈ Nodes looping.graph)
                         (In (node looping.graph r)))
            (Nodes looping.graph)) as Hall by compute_done.
  rewrite Forall_forall in Hall. specialize (Hall r Hr).
  rewrite Forall_forall in Hall. by apply Hall.
Qed.

Lemma caller_walk_bounded_witness :
  (∀ b, check_returns looping.graph looping.loop_calls b ↔
        check (length (Nodes looping.graph)) looping.graph looping.loop_calls =
        Some b) ∧
  (check (length (Nodes looping.graph)) looping.graph looping.loop_calls = None →
   ∀ fuel, check fuel looping.graph looping.loop_calls = None).
Proof.
  apply (caller_walk_bounded_by_nodes looping.graph looping.loop_calls).
  apply looping_callers_known.
Defined.

Lemma looping_linked : linked looping.graph.
Proof.
  intros r e He.
  destruct r as [|[|[|[|r]]]]; simpl in He;
    [..|by destruct r; apply elem_of_nil in He];
    set_unfold; naive_solver.
Qed.

Lemma guarded_path_witness :
  ∃ path e e0,
    e ∈ looping.visit_from_main ∧
    calls looping.pass looping.graph looping.worker e = true ∧
    last path = Some e ∧ head path = Some e0 ∧
    names_lease looping.graph e0 = true ∧ call_path path ∧ length path ≤ 2.
Proof.
  apply (guarded_has_call_path looping.pass looping.graph 2
           looping.visit_from_main looping.worker).
  - apply looping_linked.
  - by vm_compute.
Defined.

(** ** Positions as identities *)

Lemma same_line_witness :
  checkLease example.pass example.graph 3 (all_edges example.graph) example.used =
  checkLease example.pass example.graph 3 (all_edges example.graph)
    (example.id 27 6 "used") ∧
  (is_main example.used = is_main (example.id 27 6 "used") →
   isFunctionInGraph example.pass example.graph (all_edges example.graph)
     example.used =
   isFunctionInGraph example.pass example.graph (all_edges example.graph)
     (example.id 27 6 "used")).
Proof.
  apply (same_line_same_verdict example.pass example.graph). by vm_compute.
Defined.

Lemma uncalled_witness :
  isFunctionInGraph example.pass example.graph (all_edges example.graph)
    example.main = is_main example.main ∧
  checkLease example.pass example.graph 0 (all_edges example.graph)
    example.main = Some false.
Proof.
  apply (uncalled_function_is_unguarded example.pass example.graph).
  intros e He.
  assert (Forall (λ e, calls example.pass example.graph example.main e = false)
            (all_edges example.graph)) as Hall by compute_done.
  rewrite Forall_forall in Hall. by apply Hall.
Defined.

(** ** The catalog *)

Lemma example_declared :
  declared example.pass example.file =
  [("critSectionExample",
    StructType (at_ 9 25)
      [Field [] (example.sel 10 2 "crit" 7 "Section");
       Field [example.id 11 2 "value"] (example.id 11 8 "int")])].
Proof. by vm_compute. Qed.

Lemma catalog_entry_witness :
  catalog example.pass example.file !! "critSectionExample" =
    Some (TypeOf example.pass
            (StructType (at_ 9 25)
               [Field [] (example.sel 10 2 "crit" 7 "Section");
                Field [example.id 11 2 "value"] (example.id 11 8 "int")])) ∧
  catalog example.pass example.file !! ("*" +:+ "critSectionExample") =
    Some (NewPointer
            (TypeOf example.pass
               (StructType (at_ 9 25)
                  [Field [] (example.sel 10 2 "crit" 7 "Section");
                   Field [example.id 11 2 "value"] (example.id 11 8 "int")]))) ∧
  ∀ ct,
    ConvertibleTo ct
      (TypeOf example.pass
         (StructType (at_ 9 25)
            [Field [] (example.sel 10 2 "crit" 7 "Section");
             Field [example.id 11 2 "value"] (example.id 11 8 "int")])) = true ∨
    ConvertibleTo ct
      (NewPointer
         (TypeOf example.pass
            (StructType (at_ 9 25)
               [Field [] (example.sel 10 2 "crit" 7 "Section");
                Field [example.id 11 2 "value"] (example.id 11 8 "int")]))) = true →
    matched (catalog example.pass example.file) ct.
Proof.
  apply (declared_once_is_cataloged example.pass example.file
           "critSectionExample"
           (StructType (at_ 9 25)
              [Field [] (example.sel 10 2 "crit" 7 "Section");
               Field [example.id 11 2 "value"] (example.id 11 8 "int")])).
  - rewrite example_declared. left.
  - rewrite example_declared. by intros t' [= <-]%list_elem_of_singleton.
  - rewrite example_declared.
    intros s' t' r [= -> ->]%list_elem_of_singleton Hr.
    change ("*" +:+ r) with (String.append "*" r) in Hr. discriminate Hr.
Defined.

(** ** The diagnostics *)

Lemma example_analyses :
  analyses example.pass example.graph example.file
    [mkDiagnostic (at_ 27 1) msg_param;
     mkDiagnostic (at_ 28 2) msg_assign;
     mkDiagnostic (at_ 47 4) msg_assign;
     mkDiagnostic (at_ 55 2) msg_assign;
     mkDiagnostic (at_ 56 6) msg_access;
     mkDiagnostic (at_ 67 6) msg_multiple].
Proof.
  eexists. split.
  - eapply (walk_walks _ _ _ _ 3); [apply plain_permitted|].
    vm_compute. reflexivity.
  - reflexivity.
Qed.

Lemma every_diagnostic_witness :
  ∃ ev nf,
    ev ∈ events (Files example.pass) ∧
    DPos (mkDiagnostic (at_ 28 2) msg_assign) = NodePos (ev_node ev) ∧
    nearestFunction (ev_stack ev) = Some nf ∧
    live example.pass example.graph nf ∧
    justified example.pass example.graph
      (catalog example.pass example.file) (ev_node ev) nf
      (Message (mkDiagnostic (at_ 28 2) msg_assign)).
Proof.
  apply (every_diagnostic_is_justified example.pass example.graph example.file
           _ example_analyses).
  set_solver.
Defined.

Lemma plain_names_analyses :
  analyses plain_names.pass plain_names.graph plain_names.file
    [mkDiagnostic (at_ 5 6) msg_multiple].
Proof.
  eexists. split.
  - eapply (walk_walks _ _ _ _ 1); [apply plain_permitted|].
    vm_compute. reflexivity.
  - reflexivity.
Qed.

Lemma no_declaration_witness :
  catalog plain_names.pass plain_names.file = ∅ ∧
  ∀ d, d ∈ [mkDiagnostic (at_ 5 6) msg_multiple] → Message d = msg_multiple.
Proof.
  apply (no_declaration_no_access_report plain_names.pass plain_names.graph).
  - by vm_compute.
  - apply plain_names_analyses.
Defined.

Lemma plain_names_walk :
  ∃ st, walks plain_names.pass plain_names.graph
          (catalog plain_names.pass plain_names.file)
          (events [plain_names.file]) initial st.
Proof.
  eexists. eapply (walk_walks _ _ _ _ 1); [apply plain_permitted|].
  vm_compute. reflexivity.
Qed.

Lemma names_used_witness :
  ∃ st,
    walks plain_names.pass plain_names.graph
      (catalog plain_names.pass plain_names.file)
      (events [plain_names.file]) initial st ∧
    critSecTypesUsed st =
    critSecTypesUsed initial ∪
    list_to_set (omap (λ ev, instantiated (ev_node ev))
                   (inspected_events (inspectedPos initial)
                      (events [plain_names.file]))).
Proof.
  destruct plain_names_walk as [st W]. exists st. split; [done|].
  apply (names_used_are_the_instantiations plain_names.pass plain_names.graph
           _ _ _ _ (events_node_on_top _) W).
Defined.

(** ** A pass of two files *)

Lemma two_files_run :
  run_over two_files.pass two_files.graph 1
    [two_files.file_a; two_files.file_b] =
  Some [mkDiagnostic (at_ 10 6) msg_multiple;
        mkDiagnostic (at_ 10 6) msg_multiple].
Proof. by vm_compute. Qed.

Lemma two_files_analyses :
  analyses two_files.pass two_files.graph two_files.file_b
    [mkDiagnostic (at_ 10 6) msg_multiple].
Proof.
  eexists. split.
  - eapply (walk_walks _ _ _ _ 1); [apply plain_permitted|].
    vm_compute. reflexivity.
  - reflexivity.
Qed.

Lemma second_instances_witness :
  multiples [mkDiagnostic (at_ 10 6) msg_multiple;
             mkDiagnostic (at_ 10 6) msg_multiple] =
  mjoin (replicate (length [two_files.file_a; two_files.file_b])
           (multiples [mkDiagnostic (at_ 10 6) msg_multiple])).
Proof.
  apply (second_instances_repeat_for_every_file two_files.pass two_files.graph
           _ _ two_files.file_b).
  - apply (run_over_runs _ _ 1). apply two_files_run.
  - apply two_files_analyses.
Defined.

(** ** Goroutines that lease one section *)

Lemma first_inside_reached :
  rtc crit.step (crit.start 5 leases.three) leases.first_inside.
Proof. apply (schedule_steps [0; 0]). by vm_compute. Qed.

Lemma third_nested_reached :
  rtc crit.step (crit.start 5 leases.three) leases.third_nested.
Proof. apply (schedule_steps [2; 2]). by vm_compute. Qed.

Lemma second_then_first_reached :
  rtc crit.step (crit.start 5 leases.two) leases.second_then_first.
Proof. apply (schedule_steps [1; 1; 1; 0; 0; 0]). by vm_compute. Qed.

Lemma lease_exclusive_witness :
  (crit.Fatal ∉ leases.first_inside.2) ∧
  (crit.lock leases.first_inside.1 = true ↔
   ∃ g, g ∈ leases.first_inside.2 ∧ crit.holds g = true) ∧
  (∀ i j gi gj,
     leases.first_inside.2 !! i = Some gi →
     leases.first_inside.2 !! j = Some gj →
     crit.holds gi = true → crit.holds gj = true → i = j).
Proof.
  apply (lease_is_exclusive 5 leases.three). apply first_inside_reached.
Defined.

Lemma lease_not_reentrant_witness :
  leases.third_nested.2 !! 2 =
  Some (crit.Calling leases.add_one [λ err, crit.Return err]).
Proof.
  apply (lease_is_not_reentrant 5 leases.three
           leases.third_nested.1 leases.third_nested.2 2 leases.add_one
           (λ err, crit.Return err) []
           leases.third_nested.1 leases.third_nested.2).
  - apply third_nested_reached.
  - reflexivity.
  - apply rtc_refl.
Defined.

Lemma lease_progress_witness : ∃ q, crit.step leases.first_inside q.
Proof.
  apply (lease_makes_progress 5 leases.three).
  - apply first_inside_reached.
  - exists (crit.Calling leases.lease_again []). split; [|done]. set_solver.
  - intros g Hg. apply list_elem_of_In in Hg. simpl in Hg.
    by destruct Hg as [<-|[<-|[<-|[]]]].
Defined.

Lemma lease_serializes_witness :
  ∃ order, order ≡ₚ seq 0 (length leases.two) ∧
           crit.fields leases.second_then_first.1 =
           crit.in_turn leases.two order 5.
Proof.
  apply (lease_serializes_the_callbacks 5 leases.two _
           leases.second_then_first.2).
  - apply second_then_first_reached.
  - by repeat constructor.
Defined.

Lemma lease_returns_witness :
  ∃ f, leases.two !! 0 = Some f ∧
       crit.outcome f = Some (Some "added").
Proof.
  apply (lease_returns_the_error_of_its_callback 5 leases.two
           leases.second_then_first.1 leases.second_then_first.2 0
           (crit.Returned "added")).
  - apply second_then_first_reached.
  - reflexivity.
  - reflexivity.
Defined.
